(** * openevolve-go: the population store, the cascade evaluator and the
      reasoning-model switch, embedded and verified

    The development follows the Go sources package by package:

    - package [database], [island.go]: [Island], its MAP-Elites grid, the
      feature statistics and feature scaling;
    - package [database], [ProgramDatabase] (in the repository snapshot it
      follows the tests in [pkg/database/database_test.go]): [New],
      [AddProgram], [SampleMultiple] and [MigratePrograms];
    - package [evaluator]: [CascadeEvaluator] (it follows the iteration
      worker in [pkg/iteration/worker.go]) and the score parser of the
      worker pool ([pkg/evaluator/evaluator.go]);
    - package [iteration], [worker.go]: [samplePrograms] and the choice of
      the child's code;
    - package [llm], [openai.go]: [isReasoningModel], the request of
      [makeRequest] and the retry loop of [GenerateWithSystemMessage].

    Modelling conventions.

    - Go [int]/[int64] are [Z] with the two's-complement wrap-around written
      out ([wrap64]).
    - Go [float64] is Rocq's primitive binary64 [float]; comparisons are the
      IEEE ones ([<?]), so NaN is covered.
    - Go [string] is [string] (a sequence of bytes).
    - Go maps are stdpp [gmap]s.  Ranging over a Go map visits the entries
      in an unspecified order: functions that range over a map take the
      order as a parameter ([range_order]), and the theorems hold for every
      order.
    - [*types.Program] values are addresses into an explicit heap, so that
      the aliasing between the global index, the islands' program maps and
      the grid cells is the one of the Go program.  A [nil] or dangling
      dereference is a panic, modelled by [None].
    - Clock readings and random numbers are inputs of the functions that
      draw them.
    - Functions of the Go standard library that have no short byte-level
      definition ([fmt.Sscanf], [strings.ToLower], the regular expression
      matcher, ...) are parameters of the functions that call them.
    - Wall-clock stamps ([CreatedAt], [UpdatedAt], [LastUpdate],
      [Duration]), loggers and locks carry no information that the modelled
      functions read back and are left out. *)

From Stdlib Require Import ZArith Floats.
From stdpp Require Import gmap strings list fin_maps pretty.

#[local] Set Warnings "-inexact-float".
#[local] Open Scope Z_scope.

(* ===================================================================== *)
(** * Go base types *)
(* ===================================================================== *)

(** Two's-complement reduction of a mathematical integer to [int64]. *)
Definition wrap64 (z : Z) : Z := (z + 2 ^ 63) `mod` 2 ^ 64 - 2 ^ 63.

Definition max_int64 : Z := 2 ^ 63 - 1.
Definition min_int64 : Z := - 2 ^ 63.

(** [float64(n)] for an [int] [n]: the nearest binary64, ties to even. *)
Definition float64_of_int (n : Z) : float :=
  SF2Prim (binary_normalize 53 1024 n 0 false).

(** [int(f)] for a [float64] [f]: truncation toward zero.  The Go
    specification leaves the result open when the value does not fit; the
    amd64 instruction the compiler emits yields the smallest [int64], and
    that is what is modelled here. *)
Definition int_of_float64 (f : float) : Z :=
  match Prim2SF f with
  | S754_zero _ => 0
  | S754_finite s m e =>
      let mag := if 0 <=? e then Z.pos m * 2 ^ e else Z.pos m `div` 2 ^ (- e) in
      let v := if s then - mag else mag in
      if (min_int64 <=? v) && (v <=? max_int64) then v else min_int64
  | S754_infinity _ | S754_nan => min_int64
  end.

(** [fmt.Sprintf("%d", n)]. *)
Definition itoa (n : Z) : string := pretty n.

Definition pos_inf : float := infinity.
Definition neg_inf : float := neg_infinity.

(** A Go call that returns [(T, error)]. *)
Inductive result (A : Type) : Type :=
  | Ok (a : A)
  | Err (msg : string).
Arguments Ok {A} a.
Arguments Err {A} msg.

(* ===================================================================== *)
(** * internal/types *)
(* ===================================================================== *)

(** [types.Program]. *)
Record Program : Type := mkProgram {
  Program_ID : string;
  Program_Code : string;
  Program_Features : list float;
  Program_Score : float;
  Program_Fitness : float;
  Program_Generation : Z;
  Program_IslandID : Z;
  Program_Artifacts : gmap string string
}.

Definition Program_with_ID (id : string) (p : Program) : Program :=
  mkProgram id (Program_Code p) (Program_Features p) (Program_Score p)
    (Program_Fitness p) (Program_Generation p) (Program_IslandID p)
    (Program_Artifacts p).

Definition Program_with_Features (fs : list float) (p : Program) : Program :=
  mkProgram (Program_ID p) (Program_Code p) fs (Program_Score p)
    (Program_Fitness p) (Program_Generation p) (Program_IslandID p)
    (Program_Artifacts p).

Definition Program_with_IslandID (i : Z) (p : Program) : Program :=
  mkProgram (Program_ID p) (Program_Code p) (Program_Features p)
    (Program_Score p) (Program_Fitness p) (Program_Generation p) i
    (Program_Artifacts p).

(** Addresses of [types.Program] objects; [nil] is not an address. *)
Definition ptr : Type := positive.

(** The part of the Go heap that holds [types.Program] objects. *)
Abbreviation heap := (gmap ptr Program).

(** [types.DatabaseConfig]. *)
Record DatabaseConfig : Type := mkDatabaseConfig {
  NumIslands : Z;
  GridDimensions : list string;
  GridResolution : gmap string Z;
  GridBounds : gmap string (float * float);
  MigrationInterval : Z;
  MigrationRate : float;
  MaxProgramsPerCell : Z;
  CheckpointInterval : Z;
  OutputDir : string
}.

(** The counters of [types.EvolutionStats] that [AddProgram] maintains. *)
Record EvolutionStats : Type := mkEvolutionStats {
  TotalEvaluations : Z;
  SuccessfulEvals : Z;
  FailedEvals : Z
}.

(* ===================================================================== *)
(** * pkg/database/island.go *)
(* ===================================================================== *)

(** [FeatureStats], without its time stamp. *)
Record FeatureStats : Type := mkFeatureStats {
  Stats_Min : float;
  Stats_Max : float;
  Stats_Mean : float;
  Stats_Std : float;
  Stats_Count : Z
}.

(** The zero value a Go map lookup yields for a missing key. *)
Definition FeatureStats_zero : FeatureStats := mkFeatureStats 0 0 0 0 0.

(** [MAPGrid]. *)
Record MAPGrid : Type := mkMAPGrid {
  Grid_Dimensions : list string;
  Grid_Resolution : gmap string Z;
  Grid_Bounds : gmap string (float * float);
  Grid_Cells : gmap string ptr;
  Grid_TotalCells : Z;
  Grid_FilledCells : Z
}.

(** [Island]. *)
Record Island : Type := mkIsland {
  Island_ID : Z;
  Island_Programs : gmap string ptr;
  Island_Grid : MAPGrid;
  Island_BestProgram : option ptr;
  Island_BestScore : float;
  Island_BestID : string;
  Island_Generation : Z;
  Island_Migrated : Z;
  Island_FeatureStats : gmap string FeatureStats
}.

Definition Grid_with_Cells (c : gmap string ptr) (filled : Z) (g : MAPGrid) : MAPGrid :=
  mkMAPGrid (Grid_Dimensions g) (Grid_Resolution g) (Grid_Bounds g) c
    (Grid_TotalCells g) filled.

Definition Island_with_Programs (ps : gmap string ptr) (i : Island) : Island :=
  mkIsland (Island_ID i) ps (Island_Grid i) (Island_BestProgram i)
    (Island_BestScore i) (Island_BestID i) (Island_Generation i)
    (Island_Migrated i) (Island_FeatureStats i).

Definition Island_with_Grid (g : MAPGrid) (i : Island) : Island :=
  mkIsland (Island_ID i) (Island_Programs i) g (Island_BestProgram i)
    (Island_BestScore i) (Island_BestID i) (Island_Generation i)
    (Island_Migrated i) (Island_FeatureStats i).

Definition Island_with_Best (p : ptr) (score : float) (id : string) (i : Island) : Island :=
  mkIsland (Island_ID i) (Island_Programs i) (Island_Grid i) (Some p) score id
    (Island_Generation i) (Island_Migrated i) (Island_FeatureStats i).

Definition Island_with_Migrated (m : Z) (i : Island) : Island :=
  mkIsland (Island_ID i) (Island_Programs i) (Island_Grid i)
    (Island_BestProgram i) (Island_BestScore i) (Island_BestID i)
    (Island_Generation i) m (Island_FeatureStats i).

Definition Island_with_FeatureStats (fs : gmap string FeatureStats) (i : Island) : Island :=
  mkIsland (Island_ID i) (Island_Programs i) (Island_Grid i)
    (Island_BestProgram i) (Island_BestScore i) (Island_BestID i)
    (Island_Generation i) (Island_Migrated i) fs.

(** The total-cell product of [NewIsland]: resolution of each dimension,
    10 when the dimension has none. *)
Definition totalCells_of (config : DatabaseConfig) : Z :=
  fold_left (fun acc dim =>
               match GridResolution config !! dim with
               | Some res => wrap64 (acc * res)
               | None => wrap64 (acc * 10)
               end)
            (GridDimensions config) 1.

(** The initial statistics table of [NewIsland]. *)
Definition featureStats_init (dims : list string) : gmap string FeatureStats :=
  fold_left (fun m dim => <[dim := mkFeatureStats pos_inf neg_inf 0 0 0]> m) dims ∅.

Definition NewIsland (id : Z) (config : DatabaseConfig) : Island :=
  let grid := mkMAPGrid (GridDimensions config) (GridResolution config)
                (GridBounds config) ∅ (totalCells_of config) 0 in
  mkIsland id ∅ grid None neg_inf "" 0 0 (featureStats_init (GridDimensions config)).

(** One dimension's contribution to the cell key: ["<dim>:<index>;"]. *)
Definition cellKey_part (g : MAPGrid) (dim : string) (feature : float) : string :=
  let bounds := default (0%float, 1%float) (Grid_Bounds g !! dim) in
  let resolution := default 10 (Grid_Resolution g !! dim) in
  let normalized := ((feature - bounds.1) / (bounds.2 - bounds.1))%float in
  let normalized :=
    if (normalized <? 0)%float then 0%float
    else if (1 <? normalized)%float then 1%float
    else normalized in
  let index := int_of_float64 (normalized * float64_of_int (wrap64 (resolution - 1)))%float in
  dim +:+ ":" +:+ itoa index +:+ ";".

(** The loop of [calculateCellKey], from dimension index [dimIdx] on. *)
Fixpoint calculateCellKey_loop (g : MAPGrid) (dims : list string) (dimIdx : nat)
    (features : list float) (key : string) : string :=
  match dims with
  | [] => key
  | dim :: rest =>
      match features !! dimIdx with
      | None => key (* dimIdx >= len(features): break *)
      | Some feature =>
          calculateCellKey_loop g rest (S dimIdx) features
            (key +:+ cellKey_part g dim feature)
      end
  end.

Definition calculateCellKey (i : Island) (features : list float) : string :=
  if bool_decide (length features ≠ length (Grid_Dimensions (Island_Grid i))) then ""
  else calculateCellKey_loop (Island_Grid i) (Grid_Dimensions (Island_Grid i)) 0 features "".

(** One step of the running statistics of [updateFeatureStats]. *)
Definition updateStats (stats : FeatureStats) (feature : float) : FeatureStats :=
  let mn := if (feature <? Stats_Min stats)%float then feature else Stats_Min stats in
  let mx := if (Stats_Max stats <? feature)%float then feature else Stats_Max stats in
  let count := wrap64 (Stats_Count stats + 1) in
  if count =? 1 then mkFeatureStats mn mx feature 0 count
  else
    let delta := (feature - Stats_Mean stats)%float in
    let mean := (Stats_Mean stats + delta / float64_of_int count)%float in
    let delta2 := (feature - mean)%float in
    let std := PrimFloat.sqrt
                 ((float64_of_int (wrap64 (count - 1)) * Stats_Std stats * Stats_Std stats
                   + delta * delta2) / float64_of_int count)%float in
    mkFeatureStats mn mx mean std count.

Fixpoint updateFeatureStats_loop (dims : list string) (dimIdx : nat)
    (features : list float) (fs : gmap string FeatureStats) : gmap string FeatureStats :=
  match dims with
  | [] => fs
  | dim :: rest =>
      match features !! dimIdx with
      | None => updateFeatureStats_loop rest (S dimIdx) features fs (* continue *)
      | Some feature =>
          let stats := default FeatureStats_zero (fs !! dim) in
          updateFeatureStats_loop rest (S dimIdx) features
            (<[dim := updateStats stats feature]> fs)
      end
  end.

Definition updateFeatureStats (i : Island) (program : Program) : Island :=
  Island_with_FeatureStats
    (updateFeatureStats_loop (Grid_Dimensions (Island_Grid i)) 0
       (Program_Features program) (Island_FeatureStats i)) i.

(** [AddToGrid]: the boolean is the Go return value. *)
Definition AddToGrid (h : heap) (i : Island) (program : ptr) : option (Island * bool) :=
  prog ← h !! program;
  let cellKey := calculateCellKey i (Program_Features prog) in
  let place (filled : Z) : Island * bool :=
    let i' := Island_with_Grid
                (Grid_with_Cells (<[cellKey := program]> (Grid_Cells (Island_Grid i)))
                   filled (Island_Grid i)) i in
    (updateFeatureStats i' prog, true) in
  match Grid_Cells (Island_Grid i) !! cellKey with
  | None => Some (place (wrap64 (Grid_FilledCells (Island_Grid i) + 1)))
  | Some existing =>
      e ← h !! existing;
      if (Program_Score e <? Program_Score prog)%float
      then Some (place (Grid_FilledCells (Island_Grid i)))
      else Some (i, false)
  end.

(** [GetFromGrid]. *)
Definition GetFromGrid (i : Island) (features : list float) : option ptr :=
  Grid_Cells (Island_Grid i) !! calculateCellKey i features.

(** The value [ScaleFeatures] stores for one dimension. *)
Definition scaleFeature (stats : FeatureStats) (feature : float) : float :=
  if Stats_Count stats =? 0 then feature
  else
    let scaled :=
      if (Stats_Min stats <? Stats_Max stats)%float
      then ((feature - Stats_Min stats) / (Stats_Max stats - Stats_Min stats))%float
      else 0.5%float in
    if (scaled <? 0)%float then 0%float
    else if (1 <? scaled)%float then 1%float
    else scaled.

Fixpoint ScaleFeatures_loop (fs : gmap string FeatureStats) (dims : list string)
    (dimIdx : nat) (features scaled : list float) : list float :=
  match dims with
  | [] => scaled
  | dim :: rest =>
      match features !! dimIdx with
      | None => ScaleFeatures_loop fs rest (S dimIdx) features scaled (* continue *)
      | Some feature =>
          let stats := default FeatureStats_zero (fs !! dim) in
          ScaleFeatures_loop fs rest (S dimIdx) features
            (<[dimIdx := scaleFeature stats feature]> scaled)
      end
  end.

Definition ScaleFeatures (i : Island) (features : list float) : list float :=
  ScaleFeatures_loop (Island_FeatureStats i) (Grid_Dimensions (Island_Grid i)) 0
    features (replicate (length features) 0%float).

(* ===================================================================== *)
(** * pkg/database/database.go *)
(* ===================================================================== *)

(** [ProgramDatabase]. *)
Record ProgramDatabase : Type := mkProgramDatabase {
  db_config : DatabaseConfig;
  db_programs : gmap string ptr;
  db_islands : list Island;
  db_globalBest : option ptr;
  db_globalBestScore : float;
  db_currentIsland : Z;
  db_lastIteration : Z;
  db_lastMigrationGeneration : Z;
  db_stats : EvolutionStats;
  db_checkpointDir : string
}.

Definition db_with_islands (isls : list Island) (lastMig : Z) (db : ProgramDatabase)
    : ProgramDatabase :=
  mkProgramDatabase (db_config db) (db_programs db) isls (db_globalBest db)
    (db_globalBestScore db) (db_currentIsland db) (db_lastIteration db)
    lastMig (db_stats db) (db_checkpointDir db).

(** [s[i]] for a Go slice and an [int] index; out of range is a panic. *)
Definition index {A : Type} (s : list A) (i : Z) : option A :=
  if i <? 0 then None else s !! Z.to_nat i.

(** [len(s)] as a Go [int]. *)
Definition len {A : Type} (s : list A) : Z := Z.of_nat (length s).

(** [New]: [make] panics on a negative length. *)
Definition New (config : DatabaseConfig) (checkpointDir : string) : option ProgramDatabase :=
  if NumIslands config <? 0 then None
  else
    let islands := (fun i : nat => NewIsland (Z.of_nat i) config)
                     <$> seq 0 (Z.to_nat (NumIslands config)) in
    Some (mkProgramDatabase config ∅ islands None neg_inf 0 0 0
            (mkEvolutionStats 0 0 0) checkpointDir).

(** The island [AddProgram] stores a program on. *)
Definition targetIsland_of (db : ProgramDatabase) (prog : Program) : Z :=
  if (0 <=? Program_IslandID prog) && (Program_IslandID prog <? len (db_islands db))
  then Program_IslandID prog
  else db_currentIsland db.

(** [AddProgram].  [fresh_id] stands for the identifier [uuid.New()] would
    draw; it is used only when the program has none.  The Go function
    always returns a nil error, so the result is the new heap and store. *)
Definition AddProgram (fresh_id : string) (h : heap) (db : ProgramDatabase)
    (program : ptr) (iteration : Z) : option (heap * ProgramDatabase) :=
  prog ← h !! program;
  let prog := if bool_decide (Program_ID prog = "") then Program_with_ID fresh_id prog
              else prog in
  let programs := <[Program_ID prog := program]> (db_programs db) in
  let targetIsland := targetIsland_of db prog in
  island ← index (db_islands db) targetIsland;
  let island := Island_with_Programs
                  (<[Program_ID prog := program]> (Island_Programs island)) island in
  let scaledFeatures := ScaleFeatures island (Program_Features prog) in
  let prog := Program_with_Features scaledFeatures prog in
  let h := <[program := prog]> h in
  r ← AddToGrid h island program;
  let island := r.1 in
  let island :=
    if (Island_BestScore island <? Program_Score prog)%float
    then Island_with_Best program (Program_Score prog) (Program_ID prog) island
    else island in
  let newBest := (db_globalBestScore db <? Program_Score prog)%float in
  let globalBest := if newBest then Some program else db_globalBest db in
  let globalBestScore := if newBest then Program_Score prog else db_globalBestScore db in
  let st := db_stats db in
  let st :=
    if (0 <? Program_Score prog)%float
    then mkEvolutionStats (wrap64 (TotalEvaluations st + 1))
           (wrap64 (SuccessfulEvals st + 1)) (FailedEvals st)
    else mkEvolutionStats (wrap64 (TotalEvaluations st + 1))
           (SuccessfulEvals st) (wrap64 (FailedEvals st + 1)) in
  let islands := <[Z.to_nat targetIsland := island]> (db_islands db) in
  let currentIsland := wrap64 (db_currentIsland db + 1) `rem` len (db_islands db) in
  Some (h, mkProgramDatabase (db_config db) programs islands globalBest globalBestScore
             currentIsland (db_lastIteration db) (db_lastMigrationGeneration db)
             st (db_checkpointDir db)).

(** [GetCurrentIsland]. *)
Definition GetCurrentIsland (db : ProgramDatabase) : Z := db_currentIsland db.

(** The state the migration loops thread: the heap, the islands and the
    running counter [migrated]. *)
Abbreviation mstate := (heap * list Island * Z)%type.

Section Ranging.

(** The order in which a [range] over a map of programs visits it. *)
Variable range_order : gmap string ptr -> list (string * ptr).

(** [SampleFromGrid]; [nanos] is the reading of [time.Now().Nanosecond()]. *)
Definition SampleFromGrid (nanos : nat) (i : Island) : option ptr :=
  if bool_decide (size (Grid_Cells (Island_Grid i)) = 0%nat) then None
  else
    let programs := (range_order (Grid_Cells (Island_Grid i))).*2 in
    if (0 <? length programs)%nat
    then programs !! (nanos `mod` length programs)%nat
    else None.

(** First loop of [SampleMultiple]: one draw per island, for the island
    offsets in [todo]. *)
Fixpoint sampleIslands_loop (clock : nat -> nat) (db : ProgramDatabase)
    (todo : list nat) (programs : list ptr) : option (list ptr) :=
  match todo with
  | [] => Some programs
  | i :: rest =>
      let islandID := wrap64 (db_currentIsland db + Z.of_nat i) `rem` len (db_islands db) in
      island ← index (db_islands db) islandID;
      match SampleFromGrid (clock i) island with
      | Some program => sampleIslands_loop clock db rest (programs ++ [program])
      | None =>
          match Island_BestProgram island with
          | Some best => sampleIslands_loop clock db rest (programs ++ [best])
          | None => sampleIslands_loop clock db rest programs
          end
      end
  end.

(** Second loop of [SampleMultiple]: top up from the global index.  [rnd k]
    is the raw value behind the [k]-th call of [rand.Intn], reduced to the
    requested range.  [None] means the fuel ran out. *)
Fixpoint sampleGlobal_loop (rnd : nat -> nat) (db : ProgramDatabase) (count : Z)
    (fuel : nat) (k : nat) (programs : list ptr) : option (list ptr) :=
  if (len programs <? count) && (0 <? size (db_programs db))%nat then
    match fuel with
    | O => None
    | S fuel' =>
        let idx := (rnd k `mod` size (db_programs db))%nat in
        let programs :=
          match (range_order (db_programs db)).*2 !! idx with
          | Some program => programs ++ [program]
          | None => programs
          end in
        sampleGlobal_loop rnd db count fuel' (S k) programs
    end
  else Some programs.

(** [SampleMultiple]. *)
Definition SampleMultiple (clock rnd : nat -> nat) (fuel : nat)
    (db : ProgramDatabase) (count : Z) : option (result (list ptr)) :=
  if count <=? 0 then Some (Err ("invalid sample count: " +:+ itoa count))
  else
    let n := Nat.min (Z.to_nat count) (length (db_islands db)) in
    programs ← sampleIslands_loop clock db (seq 0 n) [];
    programs ← sampleGlobal_loop rnd db count fuel 0 programs;
    Some (Ok programs).

(** The candidates of one island, in the order the range visits them. *)
Fixpoint selectCandidates (h : heap) (bestScore : float) (ps : list ptr)
    : option (list ptr) :=
  match ps with
  | [] => Some []
  | program :: rest =>
      prog ← h !! program;
      cs ← selectCandidates h bestScore rest;
      if (bestScore * 0.8 <? Program_Score prog)%float
      then Some (program :: cs) else Some cs
  end.

(** Body of the inner loop of [MigratePrograms]: move [program] from island
    [i] to island [t]. *)
Definition moveProgram (i t : nat) (st : mstate) (program : ptr) : option mstate :=
  let '(h, islands, migrated) := st in
  prog ← h !! program;
  island ← islands !! i;
  let island := Island_with_Programs
                  (delete (Program_ID prog) (Island_Programs island)) island in
  let islands := <[i := island]> islands in
  targetIsland ← islands !! t;
  let prog := Program_with_IslandID (Island_ID targetIsland) prog in
  let h := <[program := prog]> h in
  let targetIsland := Island_with_Programs
                        (<[Program_ID prog := program]> (Island_Programs targetIsland))
                        targetIsland in
  r ← AddToGrid h targetIsland program;
  Some (h, <[t := r.1]> islands, wrap64 (migrated + 1)).

Fixpoint movePrograms (i t : nat) (st : mstate) (ps : list ptr) : option mstate :=
  match ps with
  | [] => Some st
  | program :: rest => st' ← moveProgram i t st program; movePrograms i t st' rest
  end.

(** Body of the outer loop of [MigratePrograms], for island [i]. *)
Definition migrateIsland (rate : float) (st : mstate) (i : nat) : option mstate :=
  let '(h, islands, migrated) := st in
  island ← islands !! i;
  let t := ((i + 1) `mod` length islands)%nat in
  candidates ← selectCandidates h (Island_BestScore island)
                 (range_order (Island_Programs island)).*2;
  let toMigrate := int_of_float64 (float64_of_int (len candidates) * rate)%float in
  let toMigrate := if (toMigrate <? 1) && (0 <? len candidates) then 1 else toMigrate in
  st' ← movePrograms i t (h, islands, migrated) (take (Z.to_nat toMigrate) candidates);
  let '(h', islands', migrated') := st' in
  island' ← islands' !! i;
  Some (h',
        <[i := Island_with_Migrated (wrap64 (Island_Migrated island' + migrated')) island']>
          islands',
        migrated').

Fixpoint migrateIslands (rate : float) (st : mstate) (idxs : list nat) : option mstate :=
  match idxs with
  | [] => Some st
  | i :: rest => st' ← migrateIsland rate st i; migrateIslands rate st' rest
  end.

(** [MigratePrograms].  The Go function always returns a nil error. *)
Definition MigratePrograms (h : heap) (db : ProgramDatabase)
    : option (heap * ProgramDatabase) :=
  if len (db_islands db) <? 2 then Some (h, db)
  else
    st ← migrateIslands (MigrationRate (db_config db)) (h, db_islands db, 0)
           (seq 0 (length (db_islands db)));
    let '(h', islands', _) := st in
    first ← islands' !! 0%nat;
    Some (h', db_with_islands islands' (Island_Generation first) db).

End Ranging.

(** The number of programs resident on the islands, summed. *)
Definition totalPrograms (islands : list Island) : nat :=
  sum_list ((fun i => size (Island_Programs i)) <$> islands).

(* ===================================================================== *)
(** * pkg/evaluator: the cascade evaluator and the score parsers *)
(* ===================================================================== *)

(** [types.EvaluationResult], without its duration. *)
Record EvaluationResult : Type := mkEvaluationResult {
  Result_ID : string;
  Result_Score : float;
  Result_Fitness : float;
  Result_Features : list float;
  Result_Success : bool;
  Result_Artifacts : gmap string string;
  Result_Error : string
}.

(** [CascadeStage]; [Stage_Timeout] is the [time.Duration] in nanoseconds. *)
Record CascadeStage : Type := mkCascadeStage {
  Stage_Name : string;
  Stage_Threshold : float;
  Stage_Timeout : Z;
  Stage_Critical : bool
}.

(** What running the external evaluator for one stage can come to: the
    stage's deadline passed, the command failed with an error (and whatever
    it printed), or it completed and printed [output]. *)
Inductive StageRun : Type :=
  | TimedOut
  | Failed (output err : string)
  | Completed (output : string).

Definition newline : string := String (Ascii.ascii_of_nat 10) EmptyString.

(** [line[7:]] and the test [len(line) > 7 && line[:7] == "SCORE: "]. *)
Definition has_score_prefix (line : string) : bool :=
  (7 <? String.length line)%nat && String.eqb (String.substring 0 7 line) "SCORE: ".

Definition after_score_prefix (line : string) : string :=
  String.substring 7 (String.length line - 7) line.

Section Cascade.

(** The Go standard library functions the evaluator calls:
    [fmt.Sscanf(s, "%f", &score)], giving the score when it returns no error;
    [fmt.Sprintf("%.3f", x)]; [time.Duration.String]; and [json.Unmarshal]
    into a [map[string]interface{}] followed by the [float64] assertion on
    its ["score"] entry. *)
Variable Sscanf_f : string -> option float.
Variable Sprintf_3f : float -> string.
Variable Duration_String : Z -> string.
Variable json_score : string -> option float.

(** The outcome of the external process for a stage and its number. *)
Variable exec : CascadeStage -> Z -> StageRun.

(** The loop over [lines] of [CascadeEvaluator.parseScoreOutput]. *)
Fixpoint parseScoreOutput_loop (lines : list string) : float :=
  match lines with
  | [] => (-1)%float
  | line :: rest =>
      if has_score_prefix line then
        match Sscanf_f (after_score_prefix line) with
        | Some score => score
        | None => parseScoreOutput_loop rest
        end
      else parseScoreOutput_loop rest
  end.

(** [CascadeEvaluator.parseScoreOutput]: [lines] is the one-element slice
    holding the whole output. *)
Definition parseScoreOutput (output : string) : float :=
  let lines := [output] in
  parseScoreOutput_loop lines.

(** The loop over [lines] of [WorkerPool.parseScoreOutput]. *)
Fixpoint WorkerPool_parseScoreOutput_loop (lines : list string) : float :=
  match lines with
  | [] => (-1)%float
  | line :: rest =>
      let tryNumber :=
        match Sscanf_f line with
        | Some score => score
        | None => WorkerPool_parseScoreOutput_loop rest
        end in
      if has_score_prefix line then
        match Sscanf_f (after_score_prefix line) with
        | Some score => score
        | None => tryNumber
        end
      else tryNumber
  end.

(** [WorkerPool.parseScoreOutput]. *)
Definition WorkerPool_parseScoreOutput (output : string) : float :=
  match json_score output with
  | Some score => score
  | None =>
      let lines := [output] in
      WorkerPool_parseScoreOutput_loop lines
  end.

(** [runStage]: the stage's result and the error, if any. *)
Definition runStage (stage : CascadeStage) (stageNumber : Z)
    : EvaluationResult * option string :=
  let id := "stage" +:+ itoa stageNumber +:+ "-" +:+ Stage_Name stage in
  match exec stage stageNumber with
  | TimedOut =>
      (mkEvaluationResult id 0 0 [] false
         (<["timeout_duration" := Duration_String (Stage_Timeout stage)]>
            (<["timeout" := "true"]> ∅))
         ("Stage " +:+ Stage_Name stage +:+ " timed out after "
          +:+ Duration_String (Stage_Timeout stage)),
       Some ("stage " +:+ Stage_Name stage +:+ " timed out"))
  | Failed output err =>
      (mkEvaluationResult id 0 0 [] false
         (<["error" := err]> (<["stderr" := output]> ∅))
         ("Stage " +:+ Stage_Name stage +:+ " execution failed: " +:+ err),
       Some ("stage execution failed: " +:+ err))
  | Completed output =>
      let score := parseScoreOutput output in
      (mkEvaluationResult id score 0 [] (0 <=? score)%float
         (<["stdout" := output]> ∅) "",
       None)
  end.

(** The body of the loop of [Evaluate] from stage number [n] on; [result] is
    the result under construction. *)
Fixpoint Evaluate_loop (stages : list CascadeStage) (n : Z) (result : EvaluationResult)
    : EvaluationResult * option string :=
  match stages with
  | [] =>
      (mkEvaluationResult (Result_ID result) (Result_Score result)
         (Result_Fitness result) (Result_Features result) true
         (Result_Artifacts result) (Result_Error result),
       None)
  | stage :: rest =>
      let (stageResult, err) := runStage stage n in
      match err with
      | Some msg =>
          (mkEvaluationResult (Result_ID result) (Result_Score result)
             (Result_Fitness result) (Result_Features result) (Result_Success result)
             (<["stage_error" := msg]>
                (<["failure_stage" := Stage_Name stage]> (Result_Artifacts result)))
             msg,
           Some msg)
      | None =>
          let failed := (Result_Score stageResult <? Stage_Threshold stage)%float in
          let result :=
            if failed then
              mkEvaluationResult (Result_ID result) (Result_Score stageResult)
                (Result_Fitness result) (Result_Features result) false
                (<["threshold_failed" := "true"]>
                   (<["failure_stage" := Stage_Name stage]> (Result_Artifacts result)))
                ("Stage " +:+ Stage_Name stage +:+ " failed threshold: "
                 +:+ Sprintf_3f (Result_Score stageResult) +:+ " < "
                 +:+ Sprintf_3f (Stage_Threshold stage))
            else result in
          if failed && Stage_Critical stage then
            (result,
             Some ("critical stage " +:+ Stage_Name stage +:+ " failed threshold"))
          else
            let score :=
              if (Result_Score result <? Result_Score stageResult)%float
              then Result_Score stageResult else Result_Score result in
            Evaluate_loop rest (n + 1)
              (mkEvaluationResult (Result_ID result) score
                 (Result_Fitness result) (Result_Features result)
                 (Result_Success result)
                 (Result_Artifacts stageResult ∪ Result_Artifacts result)
                 (Result_Error result))
      end
  end.

(** [CascadeEvaluator.Evaluate]; [now] is the reading of
    [time.Now().UnixNano()] that names the result. *)
Definition Evaluate (now : Z) (stages : list CascadeStage)
    : EvaluationResult * option string :=
  Evaluate_loop stages 1
    (mkEvaluationResult ("cascade-" +:+ itoa now) 0 0 [] false ∅ "").

End Cascade.

(** The score [Evaluate] carries from one stage to the next: a stage that
    misses its threshold sets it, and any stage raises it. *)
Definition score_after (stage : CascadeStage) (x : float) (s : float) : float :=
  let s := if (x <? Stage_Threshold stage)%float then x else s in
  if (s <? x)%float then x else s.

Fixpoint running_score (stages : list CascadeStage) (scores : list float) (s : float)
    : float :=
  match stages, scores with
  | stage :: stages', x :: scores' => running_score stages' scores' (score_after stage x s)
  | _, _ => s
  end.

(** The larger of two scores, as [Evaluate] compares them. *)
Definition fmax (s x : float) : float := if (s <? x)%float then x else s.

(** Specification-side parser for the line-scanning sentence: the lines of
    the output, the first one of the form [SCORE: <float>] wins. *)
Fixpoint split_lines_from (cur : string) (s : string) : list string :=
  match s with
  | EmptyString => [cur]
  | String c rest =>
      if Ascii.eqb c (Ascii.ascii_of_nat 10) then cur :: split_lines_from EmptyString rest
      else split_lines_from (cur +:+ String c EmptyString) rest
  end.

Definition split_lines (s : string) : list string := split_lines_from EmptyString s.

Definition scanScoreLines (Sscanf_f : string -> option float) (output : string) : float :=
  parseScoreOutput_loop Sscanf_f (split_lines output).

(** The three stages of the threshold scenario. *)
Definition stage_validation : CascadeStage := mkCascadeStage "validation" 0.0 30000000000 true.
Definition stage_basic : CascadeStage := mkCascadeStage "basic" 0.5 30000000000 false.
Definition stage_comprehensive : CascadeStage :=
  mkCascadeStage "comprehensive" 0.8 30000000000 false.

Definition scenario_stages : list CascadeStage :=
  [stage_validation; stage_basic; stage_comprehensive].

(** An evaluator whose runs complete and print the given lines, one per
    stage number, and a scanner that reads the score literals used here. *)
Definition exec_prints (outputs : list string) : CascadeStage -> Z -> StageRun :=
  fun _ n => Completed (default "" (outputs !! Z.to_nat (n - 1))).

Definition scan_literals (s : string) : option float :=
  if String.eqb s "0.5" then Some 0.5%float
  else if String.eqb s "0.4" then Some 0.4%float
  else if String.eqb s "0.9" then Some 0.9%float
  else if String.eqb s "0.85" then Some 0.85%float
  else None.

Definition scenario_Evaluate (outputs : list string) : EvaluationResult * option string :=
  Evaluate scan_literals (fun _ => "") (fun _ => "") (exec_prints outputs) 0 scenario_stages.

(** The name of the last stage whose score missed its threshold, if any
    ([init] when none did). *)
Fixpoint last_missed (stages : list CascadeStage) (scores : list float)
    (init : option string) : option string :=
  match stages, scores with
  | stage :: stages', x :: scores' =>
      last_missed stages' scores'
        (if (x <? Stage_Threshold stage)%float then Some (Stage_Name stage) else init)
  | _, _ => init
  end.

(** Every stage from number [n] on completes, and [scores] are the parsed
    scores of their outputs. *)
Definition all_complete (Sscanf_f : string -> option float)
    (exec : CascadeStage -> Z -> StageRun)
    (stages : list CascadeStage) (n : Z) (scores : list float) : Prop :=
  length scores = length stages /\
  forall k stage, stages !! k = Some stage ->
    exists output, exec stage (n + Z.of_nat k) = Completed output /\
                   scores !! k = Some (parseScoreOutput Sscanf_f output).

(** No critical stage misses its threshold. *)
Definition criticals_pass (stages : list CascadeStage) (scores : list float) : Prop :=
  forall k stage x, stages !! k = Some stage -> scores !! k = Some x ->
    Stage_Critical stage = true -> (x <? Stage_Threshold stage)%float = false.

(** No stage at all misses its threshold. *)
Definition all_accepted (stages : list CascadeStage) (scores : list float) : Prop :=
  forall k stage x, stages !! k = Some stage -> scores !! k = Some x ->
    (x <? Stage_Threshold stage)%float = false.

(* ===================================================================== *)
(** * pkg/llm/openai.go *)
(* ===================================================================== *)

(** The fields of [types.LLMModelConfig] the client reads here. *)
Record LLMModelConfig : Type := mkLLMModelConfig {
  Config_Name : string;
  Config_APIBase : string;
  Config_APIKey : string
}.

(** [OpenAIClient], without its HTTP client. *)
Record OpenAIClient : Type := mkOpenAIClient {
  client_config : LLMModelConfig;
  client_baseURL : string;
  client_apiKey : string
}.

Definition getOrDefault (value defaultValue : string) : string :=
  if String.eqb value "" then defaultValue else value.

Definition NewOpenAIClient (config : LLMModelConfig) : OpenAIClient :=
  mkOpenAIClient config
    (getOrDefault (Config_APIBase config) "https://api.openai.com/v1")
    (Config_APIKey config).

(** The byte 'A'..'Z' as 'a'..'z'; every other byte as it is. *)
Definition lower_byte (c : Ascii.ascii) : Ascii.ascii :=
  let n := Ascii.nat_of_ascii c in
  if (65 <=? n)%nat && (n <=? 90)%nat then Ascii.ascii_of_nat (n + 32) else c.

(** What [strings.ToLower] returns for a string of ASCII bytes: the letters
    'A'..'Z' folded to lower case, byte by byte. *)
Fixpoint lowerASCII (s : string) : string :=
  match s with
  | EmptyString => EmptyString
  | String c rest => String (lower_byte c) (lowerASCII rest)
  end.

(** Every byte of the string is below 0x80. *)
Fixpoint isASCII (s : string) : bool :=
  match s with
  | EmptyString => true
  | String c rest => (Ascii.nat_of_ascii c <? 128)%nat && isASCII rest
  end.

(** [strings.HasPrefix]. *)
Definition HasPrefix (s prefix : string) : bool := String.prefix prefix s.

(** [strings.Contains]. *)
Fixpoint Contains (s substr : string) : bool :=
  String.prefix substr s ||
  match s with
  | EmptyString => false
  | String _ rest => Contains rest substr
  end.

Definition reasoningPrefixes : list string :=
  ["o1-"; "o1"; "o3-"; "o3"; "o4-"; "gpt-5-"; "gpt-5"; "gpt-oss-120b"; "gpt-oss-20b"].

Section ReasoningModel.

(** [strings.ToLower] of the Go standard library.  It folds every Unicode
    letter, not only the ASCII ones, so it is taken as it is; what the
    theorems need of it is stated where they need it. *)
Variable ToLower : string -> string.

(** [isReasoningModel]. *)
Definition isReasoningModel (c : OpenAIClient) : bool :=
  let model := ToLower (Config_Name (client_config c)) in
  if existsb (HasPrefix model) reasoningPrefixes then true
  else
    let apiBase := ToLower (client_baseURL c) in
    let isOfficialAPI := Contains apiBase "api.openai.com" in
    isOfficialAPI && (HasPrefix model "o1" || HasPrefix model "o3" || HasPrefix model "o4").

End ReasoningModel.

(** A client for the model [name] behind the API base [base]. *)
Definition client_for (name base : string) : OpenAIClient :=
  NewOpenAIClient (mkLLMModelConfig name base "test-key").

(** [strings.ToLower] lower-cases a string of ASCII bytes byte by byte. *)
Definition lowers_ASCII (ToLower : string -> string) : Prop :=
  forall s, isASCII s = true -> ToLower s = lowerASCII s.

(* ===================================================================== *)
(** * Auxiliary definitions used by the statements *)
(* ===================================================================== *)

(** Specification-side definition for the arity-mismatch sentence: the key
    over the first [min (len features) (len dimensions)] dimensions. *)
Definition partialCellKey (g : MAPGrid) (features : list float) : string :=
  let n := Nat.min (length features) (length (Grid_Dimensions g)) in
  fold_left (fun key df => key +:+ cellKey_part g df.1 df.2)
    (zip (take n (Grid_Dimensions g)) (take n features)) "".

(** The clamp of [ScaleFeatures], on its own. *)
Definition clamp01 (x : float) : float :=
  if (x <? 0)%float then 0%float else if (1 <? x)%float then 1%float else x.

(** The occupant of the cell a feature vector addresses. *)
Definition occupant (i : Island) (features : list float) : option ptr :=
  Grid_Cells (Island_Grid i) !! calculateCellKey i features.

(** What [AddToGrid] stores when it accepts the program. *)
Definition placed (i : Island) (prog : Program) (p : ptr) (filled : Z) : Island :=
  updateFeatureStats
    (Island_with_Grid
       (Grid_with_Cells
          (<[calculateCellKey i (Program_Features prog) := p]>
             (Grid_Cells (Island_Grid i)))
          filled (Island_Grid i)) i) prog.

(* ===================================================================== *)
(** * Concrete stores taken from the test suite *)
(* ===================================================================== *)

(** The configuration of [TestIslandAddToGrid]: two dimensions over
    [0,1], five cells each. *)
Definition config_5x5 : DatabaseConfig :=
  mkDatabaseConfig 0 ["complexity"; "diversity"]
    (<["complexity" := 5]> (<["diversity" := 5]> ∅))
    (<["complexity" := (0%float, 1%float)]> (<["diversity" := (0%float, 1%float)]> ∅))
    0 0 0 0 "".

Definition island_5x5 : Island := NewIsland 0 config_5x5.

Definition program_test1 : Program :=
  mkProgram "test1" "func test() {}" [0.3%float; 0.7%float] 0.8 0 0 0 ∅.

Definition program_test2 : Program :=
  mkProgram "test2" "func test2() {}" [0.3%float; 0.7%float] 0.9 0 0 0 ∅.

Definition heap_tests : heap :=
  <[1%positive := program_test1]> (<[2%positive := program_test2]> ∅).

(** The island of [TestIslandScaleFeatures] after its two statistics
    updates. *)
Definition island_scaled : Island :=
  let config := mkDatabaseConfig 0 ["complexity"; "diversity"]
                  (<["complexity" := 10]> (<["diversity" := 10]> ∅))
                  (<["complexity" := (0%float, 10%float)]>
                     (<["diversity" := ((-5)%float, 5%float)]> ∅))
                  0 0 0 0 "" in
  let program1 := mkProgram "" "" [2%float; (-2)%float] 0 0 0 0 ∅ in
  let program2 := mkProgram "" "" [8%float; 2%float] 0 0 0 0 ∅ in
  updateFeatureStats (updateFeatureStats (NewIsland 0 config) program1) program2.

(** An island with the single dimension "complexity" after the
    statistics updates for the given features, in this order. *)
Definition island_observed (observations : list float) : Island :=
  let config := mkDatabaseConfig 0 ["complexity"]
                  (<["complexity" := 10]> ∅)
                  (<["complexity" := (0%float, 1%float)]> ∅)
                  0 0 0 0 "" in
  fold_left (fun i f => updateFeatureStats i (mkProgram "" "" [f] 0 0 0 0 ∅))
    observations (NewIsland 0 config).

(** Two finite observations far apart: the largest and the smallest binary64
    of magnitude 1e308. *)
Definition island_wide : Island := island_observed [(-1e308)%float; 1e308%float].

(** A single observation that is NaN. *)
Definition island_nan_observed : Island := island_observed [nan].

(* ===================================================================== *)
(** * Well-formed stores *)
(* ===================================================================== *)

(** Every program resident on the island is allocated and is stored under
    its own identifier. *)
Definition keyed_by_id (h : heap) (isl : Island) : Prop :=
  forall k p, Island_Programs isl !! k = Some p ->
              exists prog, h !! p = Some prog /\ Program_ID prog = k.

(** Every occupant of the island's grid is allocated. *)
Definition grid_allocated (h : heap) (isl : Island) : Prop :=
  forall key e, Grid_Cells (Island_Grid isl) !! key = Some e -> is_Some (h !! e).

(** No identifier is resident on two islands. *)
Definition islands_disjoint (islands : list Island) : Prop :=
  forall i j A B k,
    i <> j -> islands !! i = Some A -> islands !! j = Some B ->
    is_Some (Island_Programs A !! k) -> Island_Programs B !! k = None.

Definition store_ok (h : heap) (islands : list Island) : Prop :=
  (forall i A, islands !! i = Some A -> keyed_by_id h A) /\
  (forall i A, islands !! i = Some A -> grid_allocated h A) /\
  islands_disjoint islands.

(** Program [p] is resident, under identifier [k], on some island. *)
Definition resident (islands : list Island) (k : string) (p : ptr) : Prop :=
  exists i A, islands !! i = Some A /\ Island_Programs A !! k = Some p.

(* ===================================================================== *)
(** * Notions used in the migration proofs *)
(* ===================================================================== *)

(** A heap update that keeps every program's identifier. *)
Definition ids_preserved (h h' : heap) : Prop :=
  forall p prog, h !! p = Some prog ->
                 exists prog', h' !! p = Some prog' /\ Program_ID prog' = Program_ID prog.


(** The program maps after one move, read off the program maps before. *)
Definition moved (islands : list Island) (i t : nat) (k0 : string) (p : ptr)
    (islands' : list Island) : Prop :=
  length islands' = length islands /\
  forall x X', islands' !! x = Some X' ->
    exists X, islands !! x = Some X /\
      Island_Programs X' =
        (if decide (x = t) then <[k0 := p]> (Island_Programs X)
         else if decide (x = i) then delete k0 (Island_Programs X)
         else Island_Programs X) /\
      (x <> t -> Island_Grid X' = Island_Grid X).


(** What the migration loops keep. *)
Definition conserved (h : heap) (islands : list Island)
    (h' : heap) (islands' : list Island) : Prop :=
  length islands' = length islands /\
  store_ok h' islands' /\
  totalPrograms islands' = totalPrograms islands /\
  (forall k q, resident islands' k q <-> resident islands k q) /\
  ids_preserved h h'.


(** The candidates still to be moved are resident on island [i]. *)
Definition on_island (h : heap) (islands : list Island) (i : nat) (c : ptr) : Prop :=
  exists prog A,
    h !! c = Some prog /\ islands !! i = Some A /\
    Island_Programs A !! Program_ID prog = Some c.


(* ===================================================================== *)
(** * Concrete stores for the database *)
(* ===================================================================== *)

(** Two islands, no grid dimensions, migration rate 0.5. *)
Definition config_two_islands : DatabaseConfig :=
  mkDatabaseConfig 2 [] ∅ ∅ 1 0.5 0 0 "".

(** A program with score 1 and the given identifier and island id. *)
Definition program_scored (id : string) (islandID : Z) : Program :=
  mkProgram id "" [] 1 0 0 islandID ∅.

(** [AddProgram] for each address in turn; [fresh k] is the identifier the
    [k]-th call would draw. *)
Fixpoint AddPrograms (fresh : nat -> string) (k : nat) (h : heap)
    (db : ProgramDatabase) (ps : list ptr) : option (heap * ProgramDatabase) :=
  match ps with
  | [] => Some (h, db)
  | program :: rest =>
      r ← AddProgram (fresh k) h db program (Z.of_nat k);
      AddPrograms fresh (S k) r.1 r.2 rest
  end.

Definition no_fresh : nat -> string := fun _ => "00000000-0000-4000-8000-000000000000".

(** Programs "a" on island 0 and "b" on island 1, added through
    [AddProgram]. *)
Definition heap_two : heap :=
  <[1%positive := program_scored "a" 0]> (<[2%positive := program_scored "b" 1]> ∅).

Definition store_two : option (heap * ProgramDatabase) :=
  db ← New config_two_islands "";
  AddPrograms no_fresh 0 heap_two db [1%positive; 2%positive].

(** Two distinct programs that carry the same identifier "x", one added to
    island 0 and one to island 1. *)
Definition heap_same_id : heap :=
  <[1%positive := program_scored "x" 0]> (<[2%positive := program_scored "x" 1]> ∅).

Definition store_same_id : option (heap * ProgramDatabase) :=
  db ← New config_two_islands "";
  AddPrograms no_fresh 0 heap_same_id db [1%positive; 2%positive].

(** A hand-built well-formed store: "a" resident on island 0, "b" on
    island 1, empty grids. *)
Definition db_two : ProgramDatabase :=
  mkProgramDatabase config_two_islands
    (<["a" := 1%positive]> (<["b" := 2%positive]> ∅))
    [Island_with_Programs (<["a" := 1%positive]> ∅) (NewIsland 0 config_two_islands);
     Island_with_Programs (<["b" := 2%positive]> ∅) (NewIsland 1 config_two_islands)]
    None neg_inf 0 0 0 (mkEvolutionStats 0 0 0) "".

(** The summed island sizes before and after a migration of
    [store_same_id]. *)
Definition same_id_population : option (nat * nat) :=
  '(h, db) ← store_same_id;
  '(_, db') ← MigratePrograms map_to_list h db;
  Some (totalPrograms (db_islands db), totalPrograms (db_islands db')).

(** A migration of [store_two], island by island: the running counter
    after island 0 and after island 1, the [Migrated] fields after the two
    steps, and the [Migrated] fields [MigratePrograms] leaves. *)
Definition two_islands_migration : option (Z * Z * list Z * list Z) :=
  '(h, db) ← store_two;
  st1 ← migrateIsland map_to_list 0.5 (h, db_islands db, 0) 0;
  st2 ← migrateIsland map_to_list 0.5 st1 1;
  '(_, db') ← MigratePrograms map_to_list h db;
  let islands2 : list Island := st2.1.2 in
  Some (st1.2, st2.2, Island_Migrated <$> islands2,
        Island_Migrated <$> db_islands db').

(** One island holding the single program "a", added through [AddProgram]. *)
Definition store_single : option (heap * ProgramDatabase) :=
  db ← New (mkDatabaseConfig 1 [] ∅ ∅ 1 0.5 0 0 "") "";
  AddPrograms no_fresh 0 (<[1%positive := program_scored "a" 0]> ∅) db [1%positive].

(** Two samples drawn from [store_single]. *)
Definition single_program_samples : option (result (list ptr)) :=
  '(_, db) ← store_single;
  SampleMultiple map_to_list (fun _ => 0%nat) (fun _ => 0%nat) 2 db 2.

(** No program anywhere: empty global index, empty grids, no cached best. *)
Definition store_empty (db : ProgramDatabase) : Prop :=
  db_programs db = ∅ /\
  forall isl, isl ∈ db_islands db ->
              Grid_Cells (Island_Grid isl) = ∅ /\ Island_BestProgram isl = None.

(** The cursor is a position the first loop of [SampleMultiple] can start
    from without the island index overflowing. *)
Definition cursor_ok (db : ProgramDatabase) : Prop :=
  0 <= db_currentIsland db /\
  db_currentIsland db + len (db_islands db) <= max_int64.

(** The index of the first island on which identifier [id] is resident. *)
Definition island_of (db : ProgramDatabase) (id : string) : option nat :=
  fst <$> list_find (fun isl => is_Some (Island_Programs isl !! id)) (db_islands db).

(** Programs "a", "b", "c", all with the given island id. *)
Definition heap_abc (islandID : Z) : heap :=
  <[1%positive := program_scored "a" islandID]>
    (<[2%positive := program_scored "b" islandID]>
       (<[3%positive := program_scored "c" islandID]> ∅)).

(** The island each of "a", "b", "c" ends up on, and the cursor, after the
    three are added in this order to a fresh two-island store. *)
Definition round_robin_example (islandID : Z) : option (list (option nat) * Z) :=
  db ← New config_two_islands "";
  '(_, db') ← AddPrograms no_fresh 0 (heap_abc islandID) db
                [1%positive; 2%positive; 3%positive];
  Some (island_of db' <$> ["a"; "b"; "c"], GetCurrentIsland db').

(** The program's island id is not the index of an island. *)
Definition invalid_island (n : Z) (prog : Program) : Prop :=
  ~ (0 <= Program_IslandID prog < n).

(* ===================================================================== *)
(** * pkg/database: the remaining operations of the island and the store *)
(* ===================================================================== *)

Definition Island_with_Generation (g : Z) (i : Island) : Island :=
  mkIsland (Island_ID i) (Island_Programs i) (Island_Grid i)
    (Island_BestProgram i) (Island_BestScore i) (Island_BestID i)
    g (Island_Migrated i) (Island_FeatureStats i).

(** [IncrementGeneration]. *)
Definition IncrementGeneration (i : Island) : Island :=
  Island_with_Generation (wrap64 (Island_Generation i + 1)) i.

(** The loop of [GetBestProgram] over the island's programs, in the order
    the range visits them. *)
Fixpoint GetBestProgram_loop (h : heap) (i : Island) (ps : list ptr) : option Island :=
  match ps with
  | [] => Some i
  | program :: rest =>
      prog ← h !! program;
      let i := if (Island_BestScore i <? Program_Score prog)%float
               then Island_with_Best program (Program_Score prog) (Program_ID prog) i
               else i in
      GetBestProgram_loop h i rest
  end.

(** [GetProgram]: the program and whether it exists. *)
Definition GetProgram (db : ProgramDatabase) (id : string) : option ptr :=
  db_programs db !! id.

(** [GetGlobalBest]. *)
Definition GetGlobalBest (db : ProgramDatabase) : option ptr := db_globalBest db.

(** [UpdateGeneration].  The boolean tells whether the function starts the
    asynchronous [MigratePrograms]; reading [db.islands[0]] panics when the
    store has no island. *)
Definition UpdateGeneration (db : ProgramDatabase) : option (ProgramDatabase * bool) :=
  let islands := IncrementGeneration <$> db_islands db in
  first ← index islands 0;
  let migrate :=
    MigrationInterval (db_config db)
      <=? wrap64 (Island_Generation first - db_lastMigrationGeneration db) in
  Some (db_with_islands islands (db_lastMigrationGeneration db) db, migrate).

Section RangingMore.

Variable range_order : gmap string ptr -> list (string * ptr).

(** [GetBestProgram]: the island after the call (the cache may have been
    filled) and the returned program. *)
Definition GetBestProgram (h : heap) (i : Island) : option (Island * option ptr) :=
  if bool_decide (Island_BestProgram i = None) && (0 <? size (Island_Programs i))%nat
  then
    i' ← GetBestProgram_loop h i (range_order (Island_Programs i)).*2;
    Some (i', Island_BestProgram i')
  else Some (i, Island_BestProgram i).

(** [SampleFromIsland]; [nanos] is the clock reading of [SampleFromGrid]
    and [rnd] the raw value behind [rand.Intn]. *)
Definition SampleFromIsland (nanos rnd : nat) (db : ProgramDatabase) (islandID : Z)
    : option (result ptr) :=
  if (islandID <? 0) || (len (db_islands db) <=? islandID)
  then Some (Err ("invalid island ID: " +:+ itoa islandID))
  else
    island ← index (db_islands db) islandID;
    match SampleFromGrid range_order nanos island with
    | Some program => Some (Ok program)
    | None =>
        if (0 <? size (Island_Programs island))%nat then
          let programs := (range_order (Island_Programs island)).*2 in
          let idx := (rnd `mod` length programs)%nat in
          program ← programs !! idx;
          Some (Ok program)
        else Some (Err ("island " +:+ itoa islandID +:+ " is empty"))
    end.

(* ===================================================================== *)
(** * pkg/iteration/worker.go: sampling the parent and the inspirations *)
(* ===================================================================== *)

(** The fallback loop of [samplePrograms] over the island numbers in
    [todo]; [last] is the result of the latest [SampleFromIsland]. *)
Fixpoint samplePrograms_fallback (nanosF rndF : nat -> nat) (db : ProgramDatabase)
    (todo : list nat) (last : result ptr) : option (result ptr) :=
  match todo with
  | [] => Some last
  | i :: rest =>
      r ← SampleFromIsland (nanosF i) (rndF i) db (Z.of_nat i);
      match r with
      | Ok _ => Some r (* break *)
      | Err _ => samplePrograms_fallback nanosF rndF db rest r
      end
  end.

(** [samplePrograms].  [numIslands] is the worker's
    [config.Database.NumIslands]; [nanos0], [rnd0] feed the first draw,
    [nanosF], [rndF] the draws of the fallback loop and [clock], [rnd],
    [fuel] the call of [SampleMultiple]. *)
Definition samplePrograms (numIslands : Z) (nanos0 rnd0 : nat) (nanosF rndF : nat -> nat)
    (clock rnd : nat -> nat) (fuel : nat) (db : ProgramDatabase)
    : option (result (ptr * list ptr)) :=
  r ← SampleFromIsland nanos0 rnd0 db (GetCurrentIsland db);
  r ← match r with
      | Ok _ => Some r
      | Err _ =>
          samplePrograms_fallback nanosF rndF db (seq 0 (Z.to_nat numIslands)) r
      end;
  match r with
  | Err msg => Some (Err ("failed to sample parent program: " +:+ msg))
  | Ok parent =>
      m ← SampleMultiple range_order clock rnd fuel db 3;
      let inspirations := match m with Ok ps => ps | Err _ => [] end in
      Some (Ok (parent, inspirations))
  end.

End RangingMore.

(** The island holds no program: neither in its grid nor in its map. *)
Definition island_empty (isl : Island) : Prop :=
  Grid_Cells (Island_Grid isl) = ∅ /\ Island_Programs isl = ∅.

(** [p] is a program of the island: the occupant of a cell or a resident. *)
Definition island_member (isl : Island) (p : ptr) : Prop :=
  (exists key, Grid_Cells (Island_Grid isl) !! key = Some p) \/
  (exists k, Island_Programs isl !! k = Some p).

(** The island with index [id] exists and holds a program. *)
Definition samplable (db : ProgramDatabase) (id : Z) : Prop :=
  exists isl, index (db_islands db) id = Some isl /\ ~ island_empty isl.

(** The cached number of filled cells agrees with the cells of the grid. *)
Definition grid_counted (isl : Island) : Prop :=
  Grid_FilledCells (Island_Grid isl)
  = wrap64 (Z.of_nat (size (Grid_Cells (Island_Grid isl)))).

(** The island's best score is not below the score of any resident. *)
Definition island_best_bound (h : heap) (isl : Island) : Prop :=
  forall k q prog,
    Island_Programs isl !! k = Some q -> h !! q = Some prog ->
    (Island_BestScore isl <? Program_Score prog)%float = false.

(** The global best score is not below the score of any indexed program,
    and the global best program, if any, carries that score. *)
Definition global_best_bound (h : heap) (db : ProgramDatabase) : Prop :=
  (forall id q prog,
      GetProgram db id = Some q -> h !! q = Some prog ->
      (db_globalBestScore db <? Program_Score prog)%float = false) /\
  (forall q, GetGlobalBest db = Some q ->
             exists prog, h !! q = Some prog /\
                          Program_Score prog = db_globalBestScore db).

(** The evaluation counters add up. *)
Definition stats_consistent (st : EvolutionStats) : Prop :=
  0 <= SuccessfulEvals st /\ 0 <= FailedEvals st /\
  TotalEvaluations st = SuccessfulEvals st + FailedEvals st.

(** The number of programs of [ps], counted with repetition, whose score in
    the heap is above 0. *)
Fixpoint successes (h : heap) (ps : list ptr) : Z :=
  match ps with
  | [] => 0
  | p :: rest =>
      (match h !! p with
       | Some prog => if (0 <? Program_Score prog)%float then 1 else 0
       | None => 0
       end) + successes h rest
  end.

(** What [MigratePrograms] leaves alone: programs change in their island
    id only, and the islands keep their identity, generation, best record
    and grid layout; no filled cell becomes empty. *)
Definition migration_frame (h : heap) (islands : list Island)
    (h' : heap) (islands' : list Island) : Prop :=
  length islands' = length islands /\
  (forall p prog, h !! p = Some prog ->
                  exists z, h' !! p = Some (Program_with_IslandID z prog)) /\
  (forall p, h !! p = None -> h' !! p = None) /\
  (forall x A A', islands !! x = Some A -> islands' !! x = Some A' ->
     Island_ID A' = Island_ID A /\
     Island_Generation A' = Island_Generation A /\
     Island_BestProgram A' = Island_BestProgram A /\
     Island_BestScore A' = Island_BestScore A /\
     Island_BestID A' = Island_BestID A /\
     Grid_Dimensions (Island_Grid A') = Grid_Dimensions (Island_Grid A) /\
     Grid_Resolution (Island_Grid A') = Grid_Resolution (Island_Grid A) /\
     Grid_Bounds (Island_Grid A') = Grid_Bounds (Island_Grid A) /\
     Grid_TotalCells (Island_Grid A') = Grid_TotalCells (Island_Grid A) /\
     (forall key, is_Some (Grid_Cells (Island_Grid A) !! key) ->
                  is_Some (Grid_Cells (Island_Grid A') !! key))).

(** [k] calls of [UpdateGeneration] in a row, no migration running in
    between: the store after them and, call by call, whether the call
    started a migration. *)
Fixpoint UpdateGenerations (k : nat) (db : ProgramDatabase)
    : option (ProgramDatabase * list bool) :=
  match k with
  | O => Some (db, [])
  | S k' =>
      r ← UpdateGeneration db;
      r' ← UpdateGenerations k' r.1;
      Some (r'.1, r.2 :: r'.2)
  end.

(* ===================================================================== *)
(** * pkg/iteration/worker.go: the code of the child program *)
(* ===================================================================== *)

Section CodeBlocks.

(** The Go standard library functions [extractCodeBlocks] calls:
    [FindAllStringSubmatch(text, -1)] of the compiled pattern, giving for
    each match the matched text followed by its groups, and
    [strings.TrimSpace]. *)
Variable FindAllStringSubmatch : string -> list (list string).
Variable TrimSpace : string -> string.

(** [extractCodeBlocks]. *)
Definition extractCodeBlocks (text : string) : list string :=
  fold_left
    (fun blocks match_ =>
       if (1 <? length match_)%nat then
         let code := TrimSpace (default "" (match_ !! 1%nat)) in
         if bool_decide (code <> "") then blocks ++ [code] else blocks
       else blocks)
    (FindAllStringSubmatch text) [].

(** [parseFullRewrite]. *)
Definition parseFullRewrite (llmResponse : string) : string :=
  let codeBlocks := extractCodeBlocks llmResponse in
  if (length codeBlocks =? 0)%nat then ""
  else
    fold_left
      (fun largestBlock block =>
         if (String.length largestBlock <? String.length block)%nat
         then block else largestBlock)
      codeBlocks "".

(** [applyDiffs]: the new code and the description of the changes. *)
Definition applyDiffs (parentCode llmResponse : string) : result (string * string) :=
  let codeBlocks := extractCodeBlocks llmResponse in
  match codeBlocks with
  | [] => Err "no code blocks found in LLM response"
  | newCode :: _ => Ok (newCode, "Applied " +:+ itoa (len codeBlocks) +:+ " diff(s)")
  end.

End CodeBlocks.

(* ===================================================================== *)
(** * pkg/llm/openai.go: the retry loop *)
(* ===================================================================== *)

Definition getOrDefaultInt (value defaultValue : Z) : Z :=
  if value =? 0 then defaultValue else value.

Section Retry.

(** The value [makeRequest] returns on success. *)
Variable Response : Type.

(** What one call of [makeRequest] comes to: a response, an [*HTTPError],
    or any other error. *)
Inductive RequestOutcome : Type :=
  | Responded (response : Response)
  | HTTPError (StatusCode : Z) (Message : string)
  | OtherError (msg : string).

(** What [GenerateWithSystemMessage] returns: the response, the context's
    error, the error of the last request as it is, or the wrapped
    "max retries exceeded" error ([lastErr] is nil when no request was
    made). *)
Inductive GenerateOutcome : Type :=
  | Generated (response : Response)
  | ContextError
  | RequestError (err : RequestOutcome)
  | MaxRetriesExceeded (lastErr : option RequestOutcome).

(** The world the loop runs in: the outcome of the request of each attempt,
    whether the context is done when the wait before an attempt ends, and
    whether it is done after the attempt's request failed. *)
Variable makeRequest : nat -> RequestOutcome.
Variable done_in_wait : nat -> bool.
Variable done_after : nat -> bool.

(** The status codes the loop does not retry. *)
Definition no_retry (StatusCode : Z) : bool :=
  (StatusCode =? 400) || (StatusCode =? 401) || (StatusCode =? 403).

(** The loop of [GenerateWithSystemMessage] over the attempt numbers in
    [attempts].  The result carries, besides the Go return value, the
    number of requests sent. *)
Fixpoint retry_loop (attempts : list nat) (lastErr : option RequestOutcome)
    (sent : nat) : GenerateOutcome * nat :=
  match attempts with
  | [] => (MaxRetriesExceeded lastErr, sent)
  | attempt :: rest =>
      if (0 <? attempt)%nat && done_in_wait attempt then (ContextError, sent)
      else
        match makeRequest attempt with
        | Responded response => (Generated response, S sent)
        | err =>
            if done_after attempt then (ContextError, S sent)
            else
              match err with
              | HTTPError StatusCode _ =>
                  if no_retry StatusCode then (RequestError err, S sent)
                  else retry_loop rest (Some err) (S sent)
              | _ => retry_loop rest (Some err) (S sent)
              end
        end
  end.

(** [GenerateWithSystemMessage], from the retry logic on; [Retries] is the
    client's [config.Retries]. *)
Definition GenerateWithSystemMessage (Retries : Z) : GenerateOutcome * nat :=
  let maxRetries := getOrDefaultInt Retries 3 in
  retry_loop (seq 0 (Z.to_nat (maxRetries + 1))) None 0.

(** The request failed in a way the loop retries. *)
Definition retried (o : RequestOutcome) : Prop :=
  match o with
  | Responded _ => False
  | HTTPError StatusCode _ => no_retry StatusCode = false
  | OtherError _ => True
  end.

End Retry.

Arguments Responded {Response} response.
Arguments HTTPError {Response} StatusCode Message.
Arguments OtherError {Response} msg.
Arguments Generated {Response} response.
Arguments ContextError {Response}.
Arguments RequestError {Response} err.
Arguments MaxRetriesExceeded {Response} lastErr.
Arguments retried {Response} o.

(** A one-island store with the single grid dimension "complexity", and
    two programs to add to it. *)
Definition config_one_dim : DatabaseConfig :=
  mkDatabaseConfig 1 ["complexity"] (<["complexity" := 10]> ∅)
    (<["complexity" := (0%float, 1%float)]> ∅) 1 0.5 0 0 "".

Definition db_young : ProgramDatabase :=
  mkProgramDatabase config_one_dim ∅ [NewIsland 0 config_one_dim] None neg_inf 0 0 0
    (mkEvolutionStats 0 0 0) "".

Definition program_young_a : Program := mkProgram "a" "" [0.3%float] 1 0 0 0 ∅.
Definition program_young_b : Program := mkProgram "b" "" [0.9%float] 1 0 0 0 ∅.

Definition heap_young : heap :=
  <[1%positive := program_young_a]> (<[2%positive := program_young_b]> ∅).

(* ===================================================================== *)
(** * pkg/llm/openai.go: the request *)
(* ===================================================================== *)

(** The generation parameters of [types.LLMModelConfig], that is, the
    fields the record [LLMModelConfig] above does not carry. *)
Record LLMModelParams : Type := mkLLMModelParams {
  Config_SystemMessage : string;
  Config_Temperature : float;
  Config_TopP : float;
  Config_MaxTokens : Z;
  Config_Timeout : Z;
  Config_Retries : Z;
  Config_RetryDelay : Z;
  Config_RandomSeed : Z;
  Config_ReasoningEffort : option string
}.

(** [types.LLMMessage]. *)
Record LLMMessage : Type := mkLLMMessage {
  Message_Role : string;
  Message_Content : string
}.

(** [types.LLMRequest]; [Request_Timeout] is the [time.Duration] in
    nanoseconds. *)
Record LLMRequest : Type := mkLLMRequest {
  Request_Model : string;
  Request_Messages : list LLMMessage;
  Request_Temperature : float;
  Request_TopP : float;
  Request_MaxTokens : Z;
  Request_Timeout : Z
}.

(** The values [makeRequest] puts into its [map[string]interface{}]. *)
Inductive RequestValue : Type :=
  | VString (s : string)
  | VInt (n : Z)
  | VFloat (f : float)
  | VMessages (ms : list LLMMessage).

Definition getOrDefaultFloat64 (value defaultValue : float) : float :=
  if (value =? 0)%float then defaultValue else value.

Section Request.

(** [strings.ToLower], as in [isReasoningModel]. *)
Variable ToLower : string -> string.

(** The request [GenerateWithSystemMessage] prepares before its retry
    loop. *)
Definition GenerateWithSystemMessage_request (c : OpenAIClient) (params : LLMModelParams)
    (systemMessage : string) (messages : list LLMMessage) : LLMRequest :=
  let allMessages := mkLLMMessage "system" systemMessage :: messages in
  let request :=
    mkLLMRequest (Config_Name (client_config c)) allMessages
      (getOrDefaultFloat64 (Config_Temperature params) 0.7)
      (getOrDefaultFloat64 (Config_TopP params) 0.95)
      (getOrDefaultInt (Config_MaxTokens params) 4096)
      (wrap64 (getOrDefaultInt (Config_Timeout params) 60 * 1000000000)) in
  if isReasoningModel ToLower c
  then mkLLMRequest (Request_Model request) (Request_Messages request) 1 1
         (Request_MaxTokens request) (Request_Timeout request)
  else request.

(** The request map [makeRequest] encodes as the body of the HTTP
    request. *)
Definition makeRequest_requestMap (c : OpenAIClient) (params : LLMModelParams)
    (request : LLMRequest) : gmap string RequestValue :=
  let requestMap : gmap string RequestValue :=
    <["messages" := VMessages (Request_Messages request)]>
      (<["model" := VString (Request_Model request)]> ∅) in
  let requestMap :=
    if isReasoningModel ToLower c
    then <["max_completion_tokens" := VInt (Request_MaxTokens request)]> requestMap
    else <["top_p" := VFloat (Request_TopP request)]>
           (<["temperature" := VFloat (Request_Temperature request)]>
              (<["max_tokens" := VInt (Request_MaxTokens request)]> requestMap)) in
  let requestMap :=
    match Config_ReasoningEffort params with
    | Some effort => <["reasoning_effort" := VString effort]> requestMap
    | None => requestMap
    end in
  if 0 <? Config_RandomSeed params
  then <["seed" := VInt (Config_RandomSeed params)]> requestMap
  else requestMap.

End Request.

(* ===================================================================== *)
(** * Facts about Go integers and binary64 comparison *)
(* ===================================================================== *)

Lemma wrap64_small (z : Z) : min_int64 <= z <= max_int64 -> wrap64 z = z.
Proof.
  unfold wrap64, min_int64, max_int64. intros H.
  rewrite Z.mod_small by lia. lia.
Qed.

Section FloatOrder.

Lemma SFcompare_antisym (a b : spec_float) :
  SFcompare b a = CompOpp <$> SFcompare a b.
Proof.
  destruct a as [sa|sa| |sa ma ea], b as [sb|sb| |sb mb eb]; simpl;
    try reflexivity; try (destruct sa; reflexivity);
    try (destruct sb; reflexivity);
    try (destruct sa, sb; reflexivity).
  destruct sa, sb; simpl; try reflexivity;
    rewrite (Z.compare_antisym ea eb);
    destruct (ea ?= eb); simpl; try reflexivity;
    rewrite (ZC4 mb ma); try reflexivity.
  all: rewrite CompOpp_involutive; reflexivity.
Qed.

Lemma ltb_asym (x y : float) : (x <? y)%float = true -> (y <? x)%float = false.
Proof.
  rewrite !FloatAxioms.ltb_spec. unfold SFltb.
  rewrite (SFcompare_antisym (Prim2SF x) (Prim2SF y)).
  destruct (SFcompare (Prim2SF x) (Prim2SF y)) as [[]|]; simpl; congruence.
Qed.

Lemma ltb_irrefl (x : float) : (x <? x)%float = false.
Proof.
  destruct (x <? x)%float eqn:E; [|reflexivity].
  pose proof (ltb_asym _ _ E). congruence.
Qed.

Lemma eqb_not_ltb (x y : float) : (x =? y)%float = true -> (y <? x)%float = false.
Proof.
  rewrite FloatAxioms.eqb_spec, FloatAxioms.ltb_spec. unfold SFeqb, SFltb.
  rewrite (SFcompare_antisym (Prim2SF x) (Prim2SF y)).
  destruct (SFcompare (Prim2SF x) (Prim2SF y)) as [[]|]; simpl; congruence.
Qed.

Lemma clamp01_bounds (x : float) :
  (clamp01 x <? 0)%float = false /\ (1 <? clamp01 x)%float = false.
Proof.
  unfold clamp01.
  destruct (x <? 0)%float eqn:E0; [split; reflexivity|].
  destruct (1 <? x)%float eqn:E1; [split; reflexivity|].
  split; assumption.
Qed.

Lemma SFltb_trans (a b c : spec_float) :
  SFltb a b = true -> SFltb b c = true -> SFltb a c = true.
Proof.
  unfold SFltb.
  destruct a as [sa|sa| |sa ma ea], b as [sb|sb| |sb mb eb], c as [sc|sc| |sc mc ec];
    simpl; try discriminate; try reflexivity;
    repeat match goal with s : bool |- _ => destruct s end;
    simpl; try discriminate; try reflexivity;
    repeat match goal with
           | |- context [(?x ?= ?y)%Z] => destruct (Z.compare_spec x y)
           | |- context [Pos.compare_cont Eq ?x ?y] =>
               change (Pos.compare_cont Eq x y) with (Pos.compare x y);
               destruct (Pos.compare_spec x y)
           end; simpl; try discriminate; try reflexivity; try lia.
Qed.

Lemma ltb_trans (x y z : float) :
  (x <? y)%float = true -> (y <? z)%float = true -> (x <? z)%float = true.
Proof. rewrite !FloatAxioms.ltb_spec. apply SFltb_trans. Qed.

(** Raising a bound keeps it a bound. *)
Lemma ltb_raise (best s x : float) :
  (best <? s)%float = true -> (best <? x)%float = false -> (s <? x)%float = false.
Proof.
  intros Hs Hx. destruct (s <? x)%float eqn:E; [|reflexivity].
  rewrite (ltb_trans _ _ _ Hs E) in Hx. discriminate.
Qed.

Lemma ltb_neg_inf (x : float) : (x <? neg_inf)%float = false.
Proof.
  rewrite FloatAxioms.ltb_spec. unfold SFltb.
  change (Prim2SF neg_inf) with (S754_infinity true).
  destruct (Prim2SF x) as [s|s| |s m e]; simpl; try reflexivity;
    destruct s; reflexivity.
Qed.

Lemma pos_inf_ltb (x : float) : (pos_inf <? x)%float = false.
Proof.
  rewrite FloatAxioms.ltb_spec. unfold SFltb.
  change (Prim2SF pos_inf) with (S754_infinity false).
  destruct (Prim2SF x) as [s|s| |s m e]; simpl; try reflexivity;
    destruct s; reflexivity.
Qed.

(** binary64 values that are not NaN are totally ordered. *)
Lemma SFcompare_Some (a b : spec_float) :
  a <> S754_nan -> b <> S754_nan -> exists c, SFcompare a b = Some c.
Proof.
  destruct a as [sa|sa| |sa ma ea], b as [sb|sb| |sb mb eb]; intros Ha Hb;
    try contradiction; simpl; eauto;
    try (destruct sa; eauto); try (destruct sb; eauto);
    destruct (ea ?= eb); eauto.
Qed.

Lemma is_nan_Prim2SF (x : float) : is_nan x = false -> Prim2SF x <> S754_nan.
Proof.
  unfold is_nan. rewrite FloatAxioms.eqb_spec. intros H E. rewrite E in H.
  discriminate.
Qed.

Lemma Prim2SF_is_nan (x : float) : is_nan x = true -> Prim2SF x = S754_nan.
Proof.
  unfold is_nan. rewrite FloatAxioms.eqb_spec. unfold SFeqb.
  destruct (Prim2SF x) as [s|s| |s m e]; simpl; try reflexivity;
    try (destruct s; discriminate).
  destruct s; rewrite Z.compare_refl, Pos.compare_cont_refl; discriminate.
Qed.

(** Every comparison with a NaN is false. *)
Lemma nan_ltb (x y : float) :
  is_nan x = true -> (x <? y)%float = false /\ (y <? x)%float = false.
Proof.
  intros H%Prim2SF_is_nan. rewrite !FloatAxioms.ltb_spec. unfold SFltb.
  rewrite H. split; [reflexivity|].
  destruct (Prim2SF y) as [s|s| |s m e]; reflexivity.
Qed.

Lemma not_ltb_leb (x y : float) :
  is_nan x = false -> is_nan y = false ->
  (x <? y)%float = false -> (y <=? x)%float = true.
Proof.
  intros Hx%is_nan_Prim2SF Hy%is_nan_Prim2SF.
  rewrite FloatAxioms.ltb_spec, FloatAxioms.leb_spec. unfold SFltb, SFleb.
  rewrite (SFcompare_antisym (Prim2SF x) (Prim2SF y)).
  destruct (SFcompare_Some _ _ Hx Hy) as [c ->]. destruct c; simpl; congruence.
Qed.

(** The clamp puts every value that is not NaN into [0, 1], and lets a NaN
    through. *)
Lemma clamp01_range (x : float) :
  is_nan x = false ->
  (0 <=? clamp01 x)%float = true /\ (clamp01 x <=? 1)%float = true.
Proof.
  intros Hx. unfold clamp01.
  destruct (x <? 0)%float eqn:E0; [split; reflexivity|].
  destruct (1 <? x)%float eqn:E1; [split; reflexivity|].
  split; apply not_ltb_leb; auto.
Qed.

Lemma clamp01_nan (x : float) : is_nan x = true -> clamp01 x = x.
Proof.
  intros Hx. unfold clamp01.
  rewrite (proj1 (nan_ltb x 0 Hx)), (proj2 (nan_ltb x 1 Hx)). reflexivity.
Qed.

End FloatOrder.

(* ===================================================================== *)
(** * The MAP-Elites grid: cell keys and insertion *)
(* ===================================================================== *)

Section Grid.

Implicit Types (h : heap) (i : Island) (g : MAPGrid) (p q e : ptr).

Lemma calculateCellKey_loop_ext g g' dims k features key :
  Grid_Bounds g' = Grid_Bounds g ->
  Grid_Resolution g' = Grid_Resolution g ->
  calculateCellKey_loop g' dims k features key
  = calculateCellKey_loop g dims k features key.
Proof.
  intros Hb Hr. revert k key.
  induction dims as [|dim rest IH]; intros k key; simpl; [reflexivity|].
  destruct (features !! k) as [f|]; [|reflexivity].
  rewrite IH. unfold cellKey_part. rewrite Hb, Hr. reflexivity.
Qed.

(** The key depends on the grid's configuration only. *)
Lemma calculateCellKey_ext i i' features :
  Grid_Dimensions (Island_Grid i') = Grid_Dimensions (Island_Grid i) ->
  Grid_Bounds (Island_Grid i') = Grid_Bounds (Island_Grid i) ->
  Grid_Resolution (Island_Grid i') = Grid_Resolution (Island_Grid i) ->
  calculateCellKey i' features = calculateCellKey i features.
Proof.
  intros Hd Hb Hr. unfold calculateCellKey. rewrite Hd.
  case_bool_decide; [reflexivity|].
  apply calculateCellKey_loop_ext; assumption.
Qed.

Lemma placed_key i prog p filled features :
  calculateCellKey (placed i prog p filled) features = calculateCellKey i features.
Proof. apply calculateCellKey_ext; reflexivity. Qed.

Lemma placed_occupant i prog p filled :
  occupant (placed i prog p filled) (Program_Features prog) = Some p.
Proof.
  unfold occupant. rewrite placed_key. simpl. apply lookup_insert_eq.
Qed.

Lemma AddToGrid_empty h i p prog :
  h !! p = Some prog ->
  occupant i (Program_Features prog) = None ->
  AddToGrid h i p
  = Some (placed i prog p (wrap64 (Grid_FilledCells (Island_Grid i) + 1)), true).
Proof.
  unfold occupant, AddToGrid. intros -> Hc. simpl. rewrite Hc. reflexivity.
Qed.

Lemma AddToGrid_better h i p prog e eprog :
  h !! p = Some prog ->
  occupant i (Program_Features prog) = Some e ->
  h !! e = Some eprog ->
  (Program_Score eprog <? Program_Score prog)%float = true ->
  AddToGrid h i p = Some (placed i prog p (Grid_FilledCells (Island_Grid i)), true).
Proof.
  unfold occupant, AddToGrid. intros -> Hc He Hlt. simpl.
  rewrite Hc. simpl. rewrite He. simpl. rewrite Hlt. reflexivity.
Qed.

Lemma AddToGrid_not_better h i p prog e eprog :
  h !! p = Some prog ->
  occupant i (Program_Features prog) = Some e ->
  h !! e = Some eprog ->
  (Program_Score eprog <? Program_Score prog)%float = false ->
  AddToGrid h i p = Some (i, false).
Proof.
  unfold occupant, AddToGrid. intros -> Hc He Hlt. simpl.
  rewrite Hc. simpl. rewrite He. simpl. rewrite Hlt. reflexivity.
Qed.

(** The three outcomes of [AddToGrid], by the state of the addressed cell. *)
Lemma AddToGrid_cases h i p prog :
  h !! p = Some prog ->
  (forall e, occupant i (Program_Features prog) = Some e -> is_Some (h !! e)) ->
  (occupant i (Program_Features prog) = None /\
   AddToGrid h i p
   = Some (placed i prog p (wrap64 (Grid_FilledCells (Island_Grid i) + 1)), true))
  \/ (exists e eprog,
        occupant i (Program_Features prog) = Some e /\ h !! e = Some eprog /\
        (Program_Score eprog <? Program_Score prog)%float = true /\
        AddToGrid h i p
        = Some (placed i prog p (Grid_FilledCells (Island_Grid i)), true))
  \/ (exists e eprog,
        occupant i (Program_Features prog) = Some e /\ h !! e = Some eprog /\
        (Program_Score eprog <? Program_Score prog)%float = false /\
        AddToGrid h i p = Some (i, false)).
Proof.
  intros Hp Halloc.
  destruct (occupant i (Program_Features prog)) as [e|] eqn:Hocc.
  - destruct (Halloc e eq_refl) as [eprog He].
    destruct (Program_Score eprog <? Program_Score prog)%float eqn:Hlt.
    + right; left. exists e, eprog. repeat split; try assumption.
      eapply AddToGrid_better; eassumption.
    + right; right. exists e, eprog. repeat split; try assumption.
      eapply AddToGrid_not_better; eassumption.
  - left. split; [reflexivity|]. apply AddToGrid_empty; assumption.
Qed.

(** Inserting [q] after [p] into the cell [p] has just filled. *)
Lemma AddToGrid_second h i p q prog qprog filled :
  h !! p = Some prog -> h !! q = Some qprog ->
  calculateCellKey i (Program_Features qprog)
  = calculateCellKey i (Program_Features prog) ->
  exists i'' b,
    AddToGrid h (placed i prog p filled) q = Some (i'', b) /\
    b = (Program_Score prog <? Program_Score qprog)%float /\
    occupant i'' (Program_Features prog) = Some (if b then q else p).
Proof.
  intros Hp Hq Hkey.
  assert (Hocc : occupant (placed i prog p filled) (Program_Features qprog) = Some p).
  { unfold occupant. rewrite placed_key, Hkey. simpl. apply lookup_insert_eq. }
  destruct (Program_Score prog <? Program_Score qprog)%float eqn:Hlt.
  - eexists _, true. split; [eapply AddToGrid_better; eassumption|].
    split; [reflexivity|].
    unfold occupant. rewrite !placed_key. simpl.
    rewrite !placed_key, Hkey. apply lookup_insert_eq.
  - eexists _, false. split; [eapply AddToGrid_not_better; eassumption|].
    split; [reflexivity|]. apply placed_occupant.
Qed.

End Grid.

(** C1.  [AddToGrid] on an allocated program always returns; it returns
    [true] exactly when the addressed cell is empty or the program's score is
    strictly greater than the occupant's, and then the program is the new
    occupant; otherwise nothing changes, in particular on a tie the occupant
    stays.  [FilledCells] is incremented when the cell was empty and is
    unchanged otherwise, so (short of the [int] overflowing) it grows by one
    exactly when the cell was empty.  Finally, when a second program [q] is
    inserted into the same, previously empty, cell after [p], the occupant
    is the one with the strictly higher score, and [p], the first, on a tie:
    as [p] and [q] are arbitrary, this covers both insertion orders. *)
Theorem AddToGrid_contract (h : heap) (i : Island) (p : ptr) (prog : Program) :
  h !! p = Some prog ->
  (forall e, occupant i (Program_Features prog) = Some e -> is_Some (h !! e)) ->
  exists i' b,
    AddToGrid h i p = Some (i', b) /\
    (b = true <->
       occupant i (Program_Features prog) = None \/
       exists e eprog, occupant i (Program_Features prog) = Some e /\
                       h !! e = Some eprog /\
                       (Program_Score eprog <? Program_Score prog)%float = true) /\
    (b = true -> occupant i' (Program_Features prog) = Some p) /\
    (b = false -> i' = i) /\
    (forall e eprog,
        occupant i (Program_Features prog) = Some e -> h !! e = Some eprog ->
        Program_Score prog = Program_Score eprog \/
        (Program_Score prog =? Program_Score eprog)%float = true ->
        b = false /\ occupant i' (Program_Features prog) = Some e) /\
    Grid_FilledCells (Island_Grid i')
    = match occupant i (Program_Features prog) with
      | Some _ => Grid_FilledCells (Island_Grid i)
      | None => wrap64 (Grid_FilledCells (Island_Grid i) + 1)
      end /\
    (min_int64 <= Grid_FilledCells (Island_Grid i) < max_int64 ->
     (Grid_FilledCells (Island_Grid i') = Grid_FilledCells (Island_Grid i) + 1
      <-> occupant i (Program_Features prog) = None)) /\
    (forall q qprog,
        h !! q = Some qprog ->
        occupant i (Program_Features prog) = None ->
        calculateCellKey i (Program_Features qprog)
        = calculateCellKey i (Program_Features prog) ->
        exists i'' b',
          AddToGrid h i' q = Some (i'', b') /\
          ((Program_Score prog <? Program_Score qprog)%float = true ->
           occupant i'' (Program_Features prog) = Some q) /\
          ((Program_Score qprog <? Program_Score prog)%float = true ->
           occupant i'' (Program_Features prog) = Some p) /\
          (Program_Score qprog = Program_Score prog \/
           (Program_Score qprog =? Program_Score prog)%float = true ->
           occupant i'' (Program_Features prog) = Some p)).
Proof.
  intros Hp Halloc.
  destruct (AddToGrid_cases h i p prog Hp Halloc)
    as [[Hocc Hadd]|[(e & eprog & Hocc & He & Hlt & Hadd)|(e & eprog & Hocc & He & Hlt & Hadd)]].
  - (* empty cell *)
    eexists _, true. split; [exact Hadd|]. rewrite Hocc.
    split; [split; [intros _; left; reflexivity|reflexivity]|].
    split; [intros _; apply placed_occupant|].
    split; [discriminate|].
    split; [intros ? ? [=]|].
    split; [reflexivity|].
    split.
    { intros Hrange. simpl. rewrite wrap64_small by (unfold min_int64, max_int64 in *; lia).
      split; reflexivity. }
    intros q qprog Hq _ Hkey.
    destruct (AddToGrid_second h i p q prog qprog
                (wrap64 (Grid_FilledCells (Island_Grid i) + 1)) Hp Hq Hkey)
      as (i'' & b' & Hadd2 & Hb' & Hocc2).
    exists i'', b'. split; [exact Hadd2|]. subst b'.
    split; [intros Hlt; rewrite Hlt in Hocc2; exact Hocc2|].
    split.
    + intros Hlt. rewrite (ltb_asym _ _ Hlt) in Hocc2. exact Hocc2.
    + intros [Heq|Heq].
      * rewrite Heq, ltb_irrefl in Hocc2. exact Hocc2.
      * rewrite (eqb_not_ltb _ _ Heq) in Hocc2. exact Hocc2.
  - (* occupied, strictly better *)
    eexists _, true. split; [exact Hadd|]. rewrite Hocc.
    split; [split; [intros _; right; eauto|reflexivity]|].
    split; [intros _; apply placed_occupant|].
    split; [discriminate|].
    split.
    { intros e' eprog' [= <-] He' Heq. rewrite He in He'. injection He' as <-.
      destruct Heq as [Heq|Heq].
      - rewrite Heq, ltb_irrefl in Hlt. discriminate.
      - rewrite (eqb_not_ltb _ _ Heq) in Hlt. discriminate. }
    split; [reflexivity|].
    split.
    { intros Hrange. simpl. split; [lia|discriminate]. }
    intros q qprog _ [=].
  - (* occupied, not better *)
    exists i, false. split; [exact Hadd|]. rewrite Hocc.
    split.
    { split; [discriminate|].
      intros [[=]|(e' & eprog' & [= <-] & He' & Hlt')].
      rewrite He in He'. injection He' as <-. congruence. }
    split; [discriminate|].
    split; [reflexivity|].
    split.
    { intros e' eprog' [= <-] _ _. split; reflexivity. }
    split; [reflexivity|].
    split.
    { intros Hrange. split; [lia|discriminate]. }
    intros q qprog _ [=].
Qed.

(** Witness of [AddToGrid_contract]: the first insertion of
    [TestIslandAddToGrid]. *)
Lemma AddToGrid_contract_witness :
  exists i' b, AddToGrid heap_tests island_5x5 1%positive = Some (i', b) /\ b = true.
Proof.
  assert (H1 : heap_tests !! 1%positive = Some program_test1) by reflexivity.
  assert (H2 : forall e, occupant island_5x5 (Program_Features program_test1) = Some e ->
                         is_Some (heap_tests !! e)).
  { intros e He. vm_compute in He. discriminate. }
  destruct (AddToGrid_contract heap_tests island_5x5 1%positive program_test1 H1 H2)
    as (i' & b & Hadd & Hiff & _).
  exists i', b. split; [exact Hadd|].
  apply Hiff. left. vm_compute. reflexivity.
Defined.

Section CellKey.

Lemma calculateCellKey_loop_zip (g : MAPGrid) (dims : list string) (k : nat)
    (features : list float) (key : string) :
  calculateCellKey_loop g dims k features key
  = fold_left (fun key df => key +:+ cellKey_part g df.1 df.2)
      (zip dims (drop k features)) key.
Proof.
  revert k key. induction dims as [|dim rest IH]; intros k key; simpl; [reflexivity|].
  destruct (features !! k) as [f|] eqn:Hf.
  - rewrite (drop_S _ _ _ Hf). simpl. apply IH.
  - rewrite drop_ge by (apply lookup_ge_None; exact Hf). reflexivity.
Qed.

Lemma zip_take_min {A B : Type} (l1 : list A) (l2 : list B) :
  zip (take (Nat.min (length l2) (length l1)) l1)
      (take (Nat.min (length l2) (length l1)) l2) = zip l1 l2.
Proof.
  revert l2. induction l1 as [|a l1 IH]; intros [|b l2]; simpl; try reflexivity.
  f_equal. apply IH.
Qed.

End CellKey.

(** C6, as the code has it.  [calculateCellKey] computes the key over every
    dimension when the feature vector has exactly as many entries as the
    grid has dimensions; for every other arity it returns the empty key. *)
Theorem calculateCellKey_arity (i : Island) (features : list float) :
  calculateCellKey i features
  = if bool_decide (length features = length (Grid_Dimensions (Island_Grid i)))
    then partialCellKey (Island_Grid i) features
    else "".
Proof.
  unfold calculateCellKey, partialCellKey.
  repeat case_bool_decide; try congruence; try reflexivity.
  rewrite calculateCellKey_loop_zip, zip_take_min. reflexivity.
Qed.

(** C6 fails as stated: on the two-dimensional grid of the test suite, the
    one-entry vectors [0.3] and [0.9] are both mapped to the empty key,
    although their keys over the first dimension differ. *)
Lemma calculateCellKey_arity_counterexample :
  length [0.3%float] <> length (Grid_Dimensions (Island_Grid island_5x5)) /\
  calculateCellKey island_5x5 [0.3%float] = "" /\
  calculateCellKey island_5x5 [0.9%float] = "" /\
  partialCellKey (Island_Grid island_5x5) [0.3%float] = "complexity:1;" /\
  partialCellKey (Island_Grid island_5x5) [0.9%float] = "complexity:3;".
Proof. repeat split; try (vm_compute; reflexivity). simpl. lia. Qed.

Section Scaling.

Variable fs : gmap string FeatureStats.

Lemma ScaleFeatures_loop_length dims k features scaled :
  length (ScaleFeatures_loop fs dims k features scaled) = length scaled.
Proof.
  revert k scaled. induction dims as [|dim rest IH]; intros k scaled; simpl;
    [reflexivity|].
  destruct (features !! k); rewrite IH; [apply length_insert|reflexivity].
Qed.

Lemma ScaleFeatures_loop_before dims k features scaled j :
  (j < k)%nat ->
  ScaleFeatures_loop fs dims k features scaled !! j = scaled !! j.
Proof.
  revert k scaled. induction dims as [|dim rest IH]; intros k scaled Hj; simpl;
    [reflexivity|].
  destruct (features !! k); rewrite IH by lia; [|reflexivity].
  apply list_lookup_insert_ne. lia.
Qed.

Lemma ScaleFeatures_loop_at dims k d features scaled dim feature :
  length scaled = length features ->
  dims !! d = Some dim ->
  features !! (k + d)%nat = Some feature ->
  ScaleFeatures_loop fs dims k features scaled !! (k + d)%nat
  = Some (scaleFeature (default FeatureStats_zero (fs !! dim)) feature).
Proof.
  revert k d scaled. induction dims as [|x rest IH]; intros k d scaled Hlen Hd Hf;
    [discriminate|].
  destruct d as [|d]; simpl in *.
  - injection Hd as ->. rewrite Nat.add_0_r in *. rewrite Hf.
    rewrite ScaleFeatures_loop_before by lia.
    apply list_lookup_insert_eq.
    rewrite Hlen. eapply lookup_lt_Some; eassumption.
  - replace (k + S d)%nat with (S k + d)%nat in * by lia.
    destruct (features !! k); apply IH; try assumption.
    rewrite length_insert. assumption.
Qed.

End Scaling.

(** C7, as the code has it.  For every feature vector and every dimension
    of the grid that the vector has an entry for, [ScaleFeatures] stores:
    the raw entry when the dimension's sample count is 0; 0.5 when the
    count is not 0 and the minimum is not strictly below the maximum (the
    two are equal, the maximum is below the minimum, or one of them is NaN);
    and otherwise the quotient (feature - min) / (max - min), replaced by 0
    when it is below 0 and by 1 when it is above 1.  With a count that is
    not 0 the stored value lies in [0, 1] whenever it is 0.5 or the quotient
    is not NaN; when the quotient is NaN the stored value is that NaN, and
    then it is not in [0, 1]. *)
Theorem ScaleFeatures_contract (i : Island) (features : list float)
    (dimIdx : nat) (dim : string) (feature : float) :
  Grid_Dimensions (Island_Grid i) !! dimIdx = Some dim ->
  features !! dimIdx = Some feature ->
  let stats := default FeatureStats_zero (Island_FeatureStats i !! dim) in
  let quotient :=
    ((feature - Stats_Min stats) / (Stats_Max stats - Stats_Min stats))%float in
  length (ScaleFeatures i features) = length features /\
  exists out,
    ScaleFeatures i features !! dimIdx = Some out /\
    (Stats_Count stats = 0 -> out = feature) /\
    (Stats_Count stats <> 0 ->
     (Stats_Min stats <? Stats_Max stats)%float = false -> out = 0.5%float) /\
    (Stats_Count stats <> 0 ->
     Stats_Max stats = Stats_Min stats \/
     (Stats_Max stats =? Stats_Min stats)%float = true \/
     (Stats_Max stats <? Stats_Min stats)%float = true \/
     is_nan (Stats_Min stats) = true \/ is_nan (Stats_Max stats) = true ->
     out = 0.5%float) /\
    (Stats_Count stats <> 0 ->
     (Stats_Min stats <? Stats_Max stats)%float = true ->
     out = clamp01 quotient /\
     ((quotient <? 0)%float = true -> out = 0%float) /\
     ((1 <? quotient)%float = true -> out = 1%float) /\
     ((quotient <? 0)%float = false -> (1 <? quotient)%float = false ->
      out = quotient)) /\
    (Stats_Count stats <> 0 ->
     (out <? 0)%float = false /\ (1 <? out)%float = false) /\
    (Stats_Count stats <> 0 ->
     (Stats_Min stats <? Stats_Max stats)%float = false \/ is_nan quotient = false ->
     (0 <=? out)%float = true /\ (out <=? 1)%float = true) /\
    (Stats_Count stats <> 0 ->
     (Stats_Min stats <? Stats_Max stats)%float = true ->
     is_nan quotient = true ->
     out = quotient /\ is_nan out = true /\
     (0 <=? out)%float = false /\ (out <=? 1)%float = false).
Proof.
  intros Hdim Hf stats quotient. unfold ScaleFeatures.
  split.
  { rewrite ScaleFeatures_loop_length. apply length_replicate. }
  exists (scaleFeature stats feature). split.
  { apply (ScaleFeatures_loop_at _ _ 0 dimIdx); [apply length_replicate|assumption..]. }
  assert (Hhalf : Stats_Count stats <> 0 ->
                  (Stats_Min stats <? Stats_Max stats)%float = false ->
                  scaleFeature stats feature = 0.5%float).
  { intros Hc Hlt. unfold scaleFeature.
    destruct (Z.eqb_spec (Stats_Count stats) 0) as [|_]; [contradiction|].
    rewrite Hlt. reflexivity. }
  assert (Hnorm : Stats_Count stats <> 0 ->
                  (Stats_Min stats <? Stats_Max stats)%float = true ->
                  scaleFeature stats feature = clamp01 quotient).
  { intros Hc Hlt. unfold scaleFeature.
    destruct (Z.eqb_spec (Stats_Count stats) 0) as [|_]; [contradiction|].
    rewrite Hlt. reflexivity. }
  split.
  { intros Hc. unfold scaleFeature. rewrite Hc. reflexivity. }
  split; [exact Hhalf|].
  split.
  { intros Hc [Heq|[Heq|[Hlt|[Hnan|Hnan]]]]; apply Hhalf; try assumption.
    - rewrite Heq. apply ltb_irrefl.
    - apply eqb_not_ltb. exact Heq.
    - apply ltb_asym. exact Hlt.
    - apply (nan_ltb _ _ Hnan).
    - apply (nan_ltb _ _ Hnan). }
  split.
  { intros Hc Hlt. rewrite (Hnorm Hc Hlt). split; [reflexivity|].
    unfold clamp01. split; [intros ->; reflexivity|]. split.
    - intros H1. destruct (quotient <? 0)%float eqn:H0; [|rewrite H1; reflexivity].
      exfalso.
      assert (Hone : (0 <? 1)%float = true) by reflexivity.
      pose proof (ltb_trans quotient 0%float 1%float H0 Hone) as Hq.
      rewrite (ltb_asym _ _ H1) in Hq. discriminate.
    - intros -> ->. reflexivity. }
  split.
  { intros Hc. unfold scaleFeature.
    destruct (Z.eqb_spec (Stats_Count stats) 0) as [|_]; [contradiction|].
    apply clamp01_bounds. }
  split.
  { intros Hc Hcase.
    destruct (Stats_Min stats <? Stats_Max stats)%float eqn:Hlt.
    - destruct Hcase as [Hcase|Hq]; [discriminate|].
      rewrite (Hnorm Hc eq_refl). apply clamp01_range. exact Hq.
    - rewrite (Hhalf Hc eq_refl). split; reflexivity. }
  intros Hc Hlt Hq. rewrite (Hnorm Hc Hlt), (clamp01_nan _ Hq).
  split; [reflexivity|]. split; [exact Hq|].
  apply Prim2SF_is_nan in Hq. rewrite !FloatAxioms.leb_spec. unfold SFleb.
  rewrite Hq. split; [|reflexivity].
  change (Prim2SF 0) with (S754_zero false). reflexivity.
Qed.

(** Witness of [ScaleFeatures_contract]: the scaled value [TestIslandScaleFeatures]
    checks, (5-2)/(8-2) = 0.5. *)
Lemma ScaleFeatures_contract_witness :
  exists out,
    ScaleFeatures island_scaled [5%float; 0%float] !! 0%nat = Some out /\
    out = 0.5%float.
Proof.
  destruct (ScaleFeatures_contract island_scaled [5%float; 0%float] 0 "complexity"
              5%float eq_refl eq_refl)
    as (_ & out & Hout & _ & _ & _ & Hnorm & _).
  exists out. split; [exact Hout|].
  destruct Hnorm as [-> _]; [vm_compute; discriminate|vm_compute; reflexivity|].
  vm_compute. reflexivity.
Defined.

(** C7 fails as stated.  After the two finite observations -1e308 and
    1e308 the statistics hold the finite bounds -1e308 and 1e308, and the
    feature 1e308 scales to a value that is not in [0, 1] (a NaN: both the
    numerator and the denominator overflow).  After a single NaN observation
    the maximum is below the minimum, and the feature 0.3 scales to 0.5 where
    min-max normalisation has no value in [0, 1] to offer. *)
Lemma ScaleFeatures_counterexample :
  (exists stats out,
      Island_FeatureStats island_wide !! "complexity" = Some stats /\
      Stats_Min stats = (-1e308)%float /\ Stats_Max stats = 1e308%float /\
      Stats_Count stats = 2 /\
      ScaleFeatures island_wide [1e308%float] = [out] /\
      is_nan out = true /\
      (0 <=? out)%float = false /\ (out <=? 1)%float = false) /\
  (exists stats,
      Island_FeatureStats island_nan_observed !! "complexity" = Some stats /\
      Stats_Count stats = 1 /\
      (Stats_Max stats <? Stats_Min stats)%float = true /\
      ScaleFeatures island_nan_observed [0.3%float] = [0.5%float]).
Proof.
  split.
  - eexists _, _. split; [vm_compute; reflexivity|].
    split; [reflexivity|]. split; [reflexivity|]. split; [reflexivity|].
    split; [vm_compute; reflexivity|]. repeat split.
  - eexists. split; [vm_compute; reflexivity|].
    split; [reflexivity|]. split; [reflexivity|]. vm_compute. reflexivity.
Qed.

(* ===================================================================== *)
(** * Migration conserves the population *)
(* ===================================================================== *)

Section Migration.

Implicit Types (h : heap) (islands : list Island) (A B T : Island) (p : ptr).

Lemma ids_preserved_insert h p prog prog' :
  h !! p = Some prog -> Program_ID prog' = Program_ID prog ->
  ids_preserved h (<[p := prog']> h).
Proof.
  intros Hp Hid q qprog Hq. destruct (decide (q = p)) as [->|Hne].
  - rewrite lookup_insert_eq. exists prog'. split; [reflexivity|]. congruence.
  - rewrite lookup_insert_ne by congruence. eauto.
Qed.

Lemma keyed_by_id_mono h h' A :
  ids_preserved h h' -> keyed_by_id h A -> keyed_by_id h' A.
Proof.
  intros Hpres HA k p Hk. destruct (HA k p Hk) as (prog & Hp & Hid).
  destruct (Hpres p prog Hp) as (prog' & Hp' & Hid'). exists prog'. split; congruence.
Qed.

Lemma grid_allocated_mono h h' A :
  ids_preserved h h' -> grid_allocated h A -> grid_allocated h' A.
Proof.
  intros Hpres HA key e Hk. destruct (HA key e Hk) as [prog Hp].
  destruct (Hpres e prog Hp) as (prog' & Hp' & _). eauto.
Qed.

(** Whatever [AddToGrid] returns, it leaves the program map, the
    identity and the counters of the island alone. *)
Lemma AddToGrid_Some_frame h A p A' b :
  AddToGrid h A p = Some (A', b) ->
  Island_Programs A' = Island_Programs A /\
  Island_ID A' = Island_ID A /\
  Island_Migrated A' = Island_Migrated A /\
  Island_Generation A' = Island_Generation A /\
  Island_BestScore A' = Island_BestScore A /\
  Island_BestProgram A' = Island_BestProgram A.
Proof.
  unfold AddToGrid. destruct (h !! p) as [prog|]; simpl; [|discriminate].
  destruct (Grid_Cells (Island_Grid A) !! _) as [e|]; simpl.
  - destruct (h !! e) as [eprog|]; simpl; [|discriminate].
    destruct (_ <? _)%float; intros [= <- <-]; repeat split; reflexivity.
  - intros [= <- <-]; repeat split; reflexivity.
Qed.

(** [AddToGrid] touches the grid and the statistics only, and keeps the
    grid's occupants allocated. *)
Lemma AddToGrid_frame h A p :
  is_Some (h !! p) -> grid_allocated h A ->
  exists A' b,
    AddToGrid h A p = Some (A', b) /\
    Island_Programs A' = Island_Programs A /\
    Island_ID A' = Island_ID A /\
    Island_Migrated A' = Island_Migrated A /\
    Island_Generation A' = Island_Generation A /\
    Island_BestScore A' = Island_BestScore A /\
    grid_allocated h A'.
Proof.
  intros [prog Hp] Hgrid.
  assert (Hplaced : forall filled, grid_allocated h (placed A prog p filled)).
  { intros filled key e. simpl. intros [[_ <-]|[_ He]]%lookup_insert_Some; eauto. }
  destruct (AddToGrid_cases h A p prog Hp) as [[_ ->]|[(e & ep & _ & _ & _ & ->)|(e & ep & _ & _ & _ & ->)]].
  - intros e He. eapply Hgrid. exact He.
  - eexists _, _. split; [reflexivity|]. repeat split; try reflexivity. apply Hplaced.
  - eexists _, _. split; [reflexivity|]. repeat split; try reflexivity. apply Hplaced.
  - eexists _, _. split; [reflexivity|]. repeat split; try reflexivity. exact Hgrid.
Qed.


Lemma totalPrograms_insert islands i A A' :
  islands !! i = Some A ->
  (totalPrograms (<[i := A']> islands) + size (Island_Programs A)
   = totalPrograms islands + size (Island_Programs A'))%nat.
Proof.
  unfold totalPrograms. revert i.
  induction islands as [|X l IH]; intros [|i] Hi; try discriminate.
  - injection Hi as ->. cbn. lia.
  - cbn. rewrite <- !Nat.add_assoc. f_equal. exact (IH i Hi).
Qed.

Lemma moveProgram_spec i t h islands migrated p prog A T :
  i <> t ->
  islands !! i = Some A -> islands !! t = Some T ->
  h !! p = Some prog ->
  grid_allocated h T ->
  exists islands',
    moveProgram i t (h, islands, migrated) p
    = Some (<[p := Program_with_IslandID (Island_ID T) prog]> h, islands',
            wrap64 (migrated + 1)) /\
    moved islands i t (Program_ID prog) p islands' /\
    (forall T', islands' !! t = Some T' ->
       grid_allocated (<[p := Program_with_IslandID (Island_ID T) prog]> h) T').
Proof.
  intros Hne Hi Ht Hp Hgrid.
  set (h' := <[p := Program_with_IslandID (Island_ID T) prog]> h).
  set (A' := Island_with_Programs (delete (Program_ID prog) (Island_Programs A)) A).
  set (T0 := Island_with_Programs (<[Program_ID prog := p]> (Island_Programs T)) T).
  assert (Hpres : ids_preserved h h') by (eapply ids_preserved_insert; eauto).
  assert (Hgrid0 : grid_allocated h' T0).
  { eapply grid_allocated_mono; [exact Hpres|]. exact Hgrid. }
  assert (Hp' : is_Some (h' !! p)) by (unfold h'; rewrite lookup_insert_eq; eauto).
  destruct (AddToGrid_frame h' T0 p Hp' Hgrid0)
    as (T' & b & Hadd & Hprogs & _ & _ & _ & _ & Hgrid').
  assert (Hlt_i : (i < length islands)%nat) by (eapply lookup_lt_Some; eauto).
  assert (Hlt_t : (t < length islands)%nat) by (eapply lookup_lt_Some; eauto).
  exists (<[t := T']> (<[i := A']> islands)). split; [|split].
  - unfold moveProgram. rewrite Hp. simpl. rewrite Hi. simpl.
    rewrite list_lookup_insert_ne by exact Hne. rewrite Ht. simpl.
    fold h' T0. rewrite Hadd. reflexivity.
  - split; [rewrite !length_insert; reflexivity|].
    intros x X' Hx. destruct (decide (x = t)) as [->|Hxt].
    + rewrite list_lookup_insert_eq in Hx by (rewrite length_insert; exact Hlt_t).
      injection Hx as <-. exists T. split; [exact Ht|]. split; [exact Hprogs|congruence].
    + rewrite list_lookup_insert_ne in Hx by congruence.
      destruct (decide (x = i)) as [->|Hxi].
      * rewrite list_lookup_insert_eq in Hx by exact Hlt_i.
        injection Hx as <-. exists A. split; [exact Hi|]. split; reflexivity.
      * rewrite list_lookup_insert_ne in Hx by congruence.
        exists X'. split; [exact Hx|]. split; reflexivity.
  - intros T'' HT''.
    rewrite list_lookup_insert_eq in HT'' by (rewrite length_insert; exact Hlt_t).
    injection HT'' as <-. exact Hgrid'.
Qed.

Lemma moveProgram_total i t h islands migrated p prog A T st' :
  i <> t ->
  islands !! i = Some A -> islands !! t = Some T ->
  h !! p = Some prog ->
  Island_Programs A !! Program_ID prog = Some p ->
  Island_Programs T !! Program_ID prog = None ->
  moveProgram i t (h, islands, migrated) p = Some st' ->
  totalPrograms st'.1.2 = totalPrograms islands.
Proof.
  intros Hne Hi Ht Hp Hres Habs. unfold moveProgram.
  rewrite Hp. simpl. rewrite Hi. simpl.
  rewrite list_lookup_insert_ne by exact Hne. rewrite Ht. simpl.
  destruct (AddToGrid _ _ p) as [[T' b]|] eqn:Hadd; simpl; [|discriminate].
  intros [= <-]. simpl.
  assert (HT' : Island_Programs T' = <[Program_ID prog := p]> (Island_Programs T)).
  { apply AddToGrid_Some_frame in Hadd as [-> _]. reflexivity. }
  set (A' := Island_with_Programs (delete (Program_ID prog) (Island_Programs A)) A).
  pose proof (totalPrograms_insert islands i A A' Hi) as H1.
  assert (Ht1 : <[i := A']> islands !! t = Some T)
    by (rewrite list_lookup_insert_ne by exact Hne; exact Ht).
  pose proof (totalPrograms_insert _ t T T' Ht1) as H2.
  rewrite HT', map_size_insert_None in H2 by exact Habs.
  unfold A' in H1 at 2. simpl in H1.
  rewrite map_size_delete_Some in H1 by eauto.
  assert (size (Island_Programs A) <> 0%nat) by (eapply map_size_ne_0_lookup_2; eauto).
  lia.
Qed.

(** One move keeps the store well formed and the set of residents. *)
Lemma moved_store_ok h h' islands islands' i t p prog A :
  i <> t ->
  store_ok h islands ->
  ids_preserved h h' ->
  (exists prog', h' !! p = Some prog' /\ Program_ID prog' = Program_ID prog) ->
  islands !! i = Some A ->
  Island_Programs A !! Program_ID prog = Some p ->
  (t < length islands)%nat ->
  moved islands i t (Program_ID prog) p islands' ->
  (forall T', islands' !! t = Some T' -> grid_allocated h' T') ->
  store_ok h' islands' /\
  (forall k q, resident islands' k q <-> resident islands k q).
Proof.
  intros Hne (Hkeyed & Hgrid & Hdisj) Hpres Hp' Hi Hres Hlt [Hlen Hmoved] Hgrid_t.
  set (k0 := Program_ID prog) in *.
  assert (Hother : forall x X, x <> i -> islands !! x = Some X ->
                               Island_Programs X !! k0 = None).
  { intros x X Hx HX. eapply (Hdisj i x A X k0); eauto. }
  split; [split; [|split]|].
  - (* keyed_by_id *)
    intros x X' Hx k q Hk. destruct (Hmoved x X' Hx) as (X & HX & Hprogs & _).
    rewrite Hprogs in Hk.
    assert (Hold : forall q, Island_Programs X !! k = Some q ->
                             exists prog0, h' !! q = Some prog0 /\ Program_ID prog0 = k).
    { intros q0 Hq0. eapply keyed_by_id_mono; eauto. }
    destruct (decide (x = t)) as [->|Hxt].
    + apply lookup_insert_Some in Hk as [[<- <-]|[_ Hk]]; [exact Hp'|eauto].
    + destruct (decide (x = i)) as [->|Hxi]; [|eauto].
      apply lookup_delete_Some in Hk as [_ Hk]. eauto.
  - (* grid_allocated *)
    intros x X' Hx. destruct (decide (x = t)) as [->|Hxt]; [eauto|].
    destruct (Hmoved x X' Hx) as (X & HX & _ & Hg).
    intros key e. rewrite (Hg Hxt). intros He.
    eapply grid_allocated_mono; eauto.
  - (* islands_disjoint *)
    intros x y X' Y' k Hxy Hx Hy [q Hq].
    destruct (Hmoved x X' Hx) as (X & HX & HpX & _).
    destruct (Hmoved y Y' Hy) as (Y & HY & HpY & _).
    rewrite HpX in Hq. rewrite HpY. clear HpX HpY.
    assert (Hold : is_Some (Island_Programs X !! k) -> Island_Programs Y !! k = None).
    { intros HXk. eapply (Hdisj x y X Y k); eauto. }
    destruct (decide (k = k0)) as [->|Hk].
    + (* the moved identifier lives on [t] only *)
      assert (x = t) as ->.
      { destruct (decide (x = t)) as [|Hxt]; [assumption|exfalso].
        destruct (decide (x = i)) as [->|Hxi].
        - rewrite lookup_delete_eq in Hq. discriminate.
        - rewrite (Hother x X Hxi HX) in Hq. discriminate. }
      destruct (decide (y = t)) as [->|_]; [congruence|].
      destruct (decide (y = i)) as [->|Hyi]; [apply lookup_delete_eq|].
      eapply Hother; eauto.
    + assert (HXk : is_Some (Island_Programs X !! k)).
      { destruct (decide (x = t)); [rewrite lookup_insert_ne in Hq by congruence; eauto|].
        destruct (decide (x = i)); [rewrite lookup_delete_ne in Hq by congruence; eauto|].
        eauto. }
      specialize (Hold HXk).
      destruct (decide (y = t)); [rewrite lookup_insert_ne by congruence; exact Hold|].
      destruct (decide (y = i)); [rewrite lookup_delete_ne by congruence; exact Hold|].
      exact Hold.
  - (* residents *)
    intros k q. split.
    + intros (x & X' & Hx & Hk).
      destruct (Hmoved x X' Hx) as (X & HX & Hprogs & _). rewrite Hprogs in Hk.
      destruct (decide (x = t)) as [->|Hxt].
      * apply lookup_insert_Some in Hk as [[<- <-]|[_ Hk]];
          [exists i, A; eauto|exists t, X; eauto].
      * destruct (decide (x = i)) as [->|Hxi]; [|exists x, X; eauto].
        apply lookup_delete_Some in Hk as [_ Hk]. exists i, X; eauto.
    + intros (x & X & HX & Hk).
      destruct (decide (k = k0)) as [->|Hkk].
      * assert (x = i) as ->.
        { destruct (decide (x = i)); [assumption|].
          rewrite (Hother x X) in Hk by assumption. discriminate. }
        assert (q = p) as -> by congruence.
        destruct (lookup_lt_is_Some_2 islands' t) as [T' HT']; [lia|].
        destruct (Hmoved t T' HT') as (T & _ & Hprogs & _).
        rewrite decide_True in Hprogs by reflexivity.
        exists t, T'. split; [exact HT'|]. rewrite Hprogs. apply lookup_insert_eq.
      * destruct (lookup_lt_is_Some_2 islands' x) as [X' HX'].
        { rewrite Hlen. eapply lookup_lt_Some; eauto. }
        destruct (Hmoved x X' HX') as (X0 & HX0 & Hprogs & _).
        assert (X0 = X) as -> by congruence.
        exists x, X'. split; [exact HX'|]. rewrite Hprogs.
        destruct (decide (x = t)); [rewrite lookup_insert_ne by congruence; exact Hk|].
        destruct (decide (x = i)); [rewrite lookup_delete_ne by congruence; exact Hk|].
        exact Hk.
Qed.


Lemma ids_preserved_refl h : ids_preserved h h.
Proof. intros p prog Hp. eauto. Qed.

Lemma ids_preserved_trans h1 h2 h3 :
  ids_preserved h1 h2 -> ids_preserved h2 h3 -> ids_preserved h1 h3.
Proof.
  intros H12 H23 p prog Hp.
  destruct (H12 p prog Hp) as (prog2 & Hp2 & Hid2).
  destruct (H23 p prog2 Hp2) as (prog3 & Hp3 & Hid3).
  exists prog3. split; congruence.
Qed.

Lemma conserved_trans h1 l1 h2 l2 h3 l3 :
  conserved h1 l1 h2 l2 -> conserved h2 l2 h3 l3 -> conserved h1 l1 h3 l3.
Proof.
  intros (Hlen1 & _ & Htot1 & Hres1 & Hids1) (Hlen2 & Hok2 & Htot2 & Hres2 & Hids2).
  split; [congruence|]. split; [exact Hok2|]. split; [congruence|].
  split; [|eapply ids_preserved_trans; eauto].
  intros k q. rewrite Hres2. apply Hres1.
Qed.

Lemma moveProgram_conserved i t h islands migrated c :
  i <> t -> (t < length islands)%nat ->
  store_ok h islands ->
  on_island h islands i c ->
  exists h' islands',
    moveProgram i t (h, islands, migrated) c = Some (h', islands', wrap64 (migrated + 1)) /\
    conserved h islands h' islands' /\
    (forall c', c' <> c -> on_island h islands i c' -> on_island h' islands' i c').
Proof.
  intros Hne Hlt Hok (prog & A & Hc & Hi & Hres).
  destruct (lookup_lt_is_Some_2 islands t Hlt) as [T Ht].
  pose proof Hok as (Hkeyed & Hgrid & Hdisj).
  assert (Habs : Island_Programs T !! Program_ID prog = None).
  { eapply (Hdisj i t A T); eauto. }
  destruct (moveProgram_spec i t h islands migrated c prog A T Hne Hi Ht Hc (Hgrid t T Ht))
    as (islands' & Hmove & Hmoved & Hgrid').
  set (h' := <[c := Program_with_IslandID (Island_ID T) prog]> h) in *.
  assert (Hpres : ids_preserved h h') by (eapply ids_preserved_insert; eauto).
  assert (Hc' : exists prog', h' !! c = Some prog' /\ Program_ID prog' = Program_ID prog).
  { eexists. unfold h'. rewrite lookup_insert_eq. split; reflexivity. }
  destruct (moved_store_ok h h' islands islands' i t c prog A
              Hne Hok Hpres Hc' Hi Hres Hlt Hmoved Hgrid') as [Hok' Hres'].
  exists h', islands'. split; [exact Hmove|]. split.
  - split; [apply Hmoved|]. split; [exact Hok'|]. split; [|split; assumption].
    pose proof (moveProgram_total i t h islands migrated c prog A T _
                  Hne Hi Ht Hc Hres Habs Hmove) as Htot. exact Htot.
  - intros c' Hcc' (prog' & A0 & Hc'0 & Hi0 & Hres0).
    assert (A0 = A) as -> by congruence.
    destruct Hmoved as [Hlen Hmoved].
    destruct (lookup_lt_is_Some_2 islands' i) as [A' HA'].
    { rewrite Hlen. eapply lookup_lt_Some; eauto. }
    destruct (Hmoved i A' HA') as (A1 & HA1 & Hprogs & _).
    assert (A1 = A) as -> by congruence.
    rewrite decide_False, decide_True in Hprogs by congruence.
    exists prog', A'. split; [|split; [exact HA'|]].
    + unfold h'. rewrite lookup_insert_ne by congruence. exact Hc'0.
    + rewrite Hprogs. rewrite lookup_delete_ne; [exact Hres0|].
      intros Heq. rewrite Heq in Hres. congruence.
Qed.

Lemma movePrograms_cons i t st c rest :
  movePrograms i t st (c :: rest)
  = moveProgram i t st c ≫= fun st' => movePrograms i t st' rest.
Proof. reflexivity. Qed.

Lemma movePrograms_conserved i t cs :
  forall h islands migrated,
    i <> t -> (t < length islands)%nat ->
    store_ok h islands ->
    NoDup cs ->
    (forall c, c ∈ cs -> on_island h islands i c) ->
    exists h' islands' migrated',
      movePrograms i t (h, islands, migrated) cs = Some (h', islands', migrated') /\
      conserved h islands h' islands'.
Proof.
  induction cs as [|c rest IH]; intros h islands migrated Hne Hlt Hok Hnd Hon.
  - exists h, islands, migrated. split; [reflexivity|].
    split; [reflexivity|]. split; [exact Hok|]. split; [reflexivity|].
    split; [reflexivity|apply ids_preserved_refl].
  - apply NoDup_cons in Hnd as [Hnotin Hnd].
    destruct (moveProgram_conserved i t h islands migrated c Hne Hlt Hok)
      as (h1 & islands1 & Hmove & Hcons1 & Hstill).
    { apply Hon. left. }
    pose proof Hcons1 as (Hlen1 & Hok1 & _).
    destruct (IH h1 islands1 (wrap64 (migrated + 1)) Hne) as (h2 & islands2 & m2 & Hrest & Hcons2).
    + rewrite Hlen1. exact Hlt.
    + exact Hok1.
    + exact Hnd.
    + intros c' Hc'. apply Hstill; [|apply Hon; right; exact Hc'].
      intros ->. contradiction.
    + exists h2, islands2, m2. split.
      * rewrite movePrograms_cons, Hmove. simpl. exact Hrest.
      * eapply conserved_trans; eauto.
Qed.

Lemma selectCandidates_sublist h best ps :
  (forall p, p ∈ ps -> is_Some (h !! p)) ->
  exists cs, selectCandidates h best ps = Some cs /\ cs `sublist_of` ps.
Proof.
  induction ps as [|p rest IH]; intros Halloc.
  - exists []. split; [reflexivity|constructor].
  - destruct (Halloc p) as [prog Hp]; [left|].
    destruct IH as (cs & Hcs & Hsub); [intros q Hq; apply Halloc; right; exact Hq|].
    simpl. rewrite Hp. simpl. rewrite Hcs. simpl.
    destruct (_ <? _)%float; eexists; (split; [reflexivity|]).
    + apply sublist_skip. exact Hsub.
    + apply sublist_cons. exact Hsub.
Qed.


(** Replacing an island by one with the same program map and grid. *)
Lemma replace_conserved h islands i A A' :
  islands !! i = Some A ->
  Island_Programs A' = Island_Programs A ->
  Island_Grid A' = Island_Grid A ->
  store_ok h islands ->
  conserved h islands h (<[i := A']> islands).
Proof.
  intros Hi Hprogs Hgrid (Hkeyed & Hgalloc & Hdisj).
  assert (Hlt : (i < length islands)%nat) by (eapply lookup_lt_Some; eauto).
  assert (Hfwd : forall x X', <[i := A']> islands !! x = Some X' ->
            exists X, islands !! x = Some X /\
                      Island_Programs X' = Island_Programs X /\
                      Island_Grid X' = Island_Grid X).
  { intros x X' Hx. destruct (decide (x = i)) as [->|Hxi].
    - rewrite list_lookup_insert_eq in Hx by exact Hlt. injection Hx as <-. eauto.
    - rewrite list_lookup_insert_ne in Hx by congruence. eauto. }
  assert (Hbwd : forall x X, islands !! x = Some X ->
            exists X', <[i := A']> islands !! x = Some X' /\
                       Island_Programs X' = Island_Programs X).
  { intros x X Hx. destruct (decide (x = i)) as [->|Hxi].
    - rewrite list_lookup_insert_eq by exact Hlt. exists A'. split; congruence.
    - rewrite list_lookup_insert_ne by congruence. eauto. }
  split; [apply length_insert|]. split; [split; [|split]|].
  - intros x X' Hx k q. destruct (Hfwd x X' Hx) as (X & HX & -> & _).
    apply (Hkeyed x X HX).
  - intros x X' Hx key e. destruct (Hfwd x X' Hx) as (X & HX & _ & ->).
    apply (Hgalloc x X HX).
  - intros x y X' Y' k Hxy Hx Hy.
    destruct (Hfwd x X' Hx) as (X & HX & -> & _).
    destruct (Hfwd y Y' Hy) as (Y & HY & -> & _).
    eapply Hdisj; eauto.
  - split; [|split; [|apply ids_preserved_refl]].
    + pose proof (totalPrograms_insert islands i A A' Hi) as Htot.
      rewrite Hprogs in Htot. lia.
    + intros k q. split.
      * intros (x & X' & Hx & Hk). destruct (Hfwd x X' Hx) as (X & HX & HpX & _).
        exists x, X. split; [exact HX|]. rewrite <- HpX. exact Hk.
      * intros (x & X & Hx & Hk). destruct (Hbwd x X Hx) as (X' & HX' & HpX).
        exists x, X'. split; [exact HX'|]. rewrite HpX. exact Hk.
Qed.

Variable range_order : gmap string ptr -> list (string * ptr).
Hypothesis range_order_perm : forall m, range_order m ≡ₚ map_to_list m.

Lemma range_order_elem (m : gmap string ptr) (p : ptr) :
  p ∈ (range_order m).*2 -> exists k, m !! k = Some p.
Proof.
  intros ([k q] & -> & Hin)%list_elem_of_fmap. exists k. simpl.
  rewrite range_order_perm in Hin. apply elem_of_map_to_list in Hin. exact Hin.
Qed.

Lemma range_order_NoDup h A :
  keyed_by_id h A -> NoDup (range_order (Island_Programs A)).*2.
Proof.
  intros Hkeyed. rewrite range_order_perm.
  apply NoDup_fmap_2_strong; [|apply NoDup_map_to_list].
  intros [k1 p1] [k2 p2] H1%elem_of_map_to_list H2%elem_of_map_to_list. simpl.
  intros <-. destruct (Hkeyed _ _ H1) as (prog1 & Hp1 & <-).
  destruct (Hkeyed _ _ H2) as (prog2 & Hp2 & <-). congruence.
Qed.

Lemma ring_successor (n i : nat) :
  (2 <= n)%nat -> (i < n)%nat -> ((i + 1) `mod` n <> i /\ (i + 1) `mod` n < n)%nat.
Proof.
  intros Hn Hi. split; [|apply Nat.mod_upper_bound; lia].
  destruct (decide (i + 1 = n)%nat) as [<-|Hne].
  - rewrite Nat.Div0.mod_same. lia.
  - rewrite Nat.mod_small by lia. lia.
Qed.

Lemma migrateIsland_conserved rate h islands migrated i :
  (2 <= length islands)%nat -> (i < length islands)%nat ->
  store_ok h islands ->
  exists h' islands' migrated',
    migrateIsland range_order rate (h, islands, migrated) i
    = Some (h', islands', migrated') /\
    conserved h islands h' islands'.
Proof.
  intros Hn Hi Hok. pose proof Hok as (Hkeyed & _ & _).
  destruct (lookup_lt_is_Some_2 islands i Hi) as [A HA].
  destruct (ring_successor _ _ Hn Hi) as [Hne Hlt].
  set (t := ((i + 1) `mod` length islands)%nat) in *.
  set (ps := (range_order (Island_Programs A)).*2).
  assert (Hon : forall c, c ∈ ps -> on_island h islands i c).
  { intros c [k Hk]%range_order_elem.
    destruct (Hkeyed i A HA k c Hk) as (prog & Hc & <-). exists prog, A. eauto. }
  destruct (selectCandidates_sublist h (Island_BestScore A) ps) as (cs & Hcs & Hsub).
  { intros c Hc. destruct (Hon c Hc) as (prog & _ & -> & _). eauto. }
  set (n := int_of_float64 (float64_of_int (len cs) * rate)%float).
  set (toMigrate := if (n <? 1) && (0 <? len cs) then 1 else n).
  assert (Hsub' : take (Z.to_nat toMigrate) cs `sublist_of` ps).
  { etrans; [apply sublist_take|exact Hsub]. }
  destruct (movePrograms_conserved i t (take (Z.to_nat toMigrate) cs) h islands migrated)
    as (h' & islands' & migrated' & Hmove & Hcons); try assumption.
  { congruence. }
  { eapply sublist_NoDup; [|exact Hsub']. eapply range_order_NoDup. eauto. }
  { intros c Hc. apply Hon. eapply elem_of_sublist; eauto. }
  pose proof Hcons as (Hlen & Hok' & _).
  destruct (lookup_lt_is_Some_2 islands' i) as [A' HA']; [lia|].
  eexists h', _, migrated'. split.
  - unfold migrateIsland. rewrite HA. simpl. fold ps. rewrite Hcs. simpl.
    fold n toMigrate t. rewrite Hmove. simpl. rewrite HA'. simpl. reflexivity.
  - eapply conserved_trans; [exact Hcons|].
    eapply replace_conserved; eauto.
Qed.

Lemma migrateIslands_conserved rate idxs :
  forall h islands migrated,
    (2 <= length islands)%nat ->
    (forall i, i ∈ idxs -> (i < length islands)%nat) ->
    store_ok h islands ->
    exists h' islands' migrated',
      migrateIslands range_order rate (h, islands, migrated) idxs
      = Some (h', islands', migrated') /\
      conserved h islands h' islands'.
Proof.
  induction idxs as [|i rest IH]; intros h islands migrated Hn Hidx Hok.
  - exists h, islands, migrated. split; [reflexivity|].
    split; [reflexivity|]. split; [exact Hok|]. split; [reflexivity|].
    split; [reflexivity|apply ids_preserved_refl].
  - destruct (migrateIsland_conserved rate h islands migrated i Hn)
      as (h1 & islands1 & m1 & Hstep & Hcons1); [apply Hidx; left|exact Hok|].
    pose proof Hcons1 as (Hlen1 & Hok1 & _).
    destruct (IH h1 islands1 m1) as (h2 & islands2 & m2 & Hrest & Hcons2).
    + lia.
    + intros j Hj. rewrite Hlen1. apply Hidx. right. exact Hj.
    + exact Hok1.
    + exists h2, islands2, m2. split; [|eapply conserved_trans; eauto].
      change (migrateIslands range_order rate (h, islands, migrated) (i :: rest))
        with (migrateIsland range_order rate (h, islands, migrated) i
              ≫= fun st' => migrateIslands range_order rate st' rest).
      rewrite Hstep. simpl. exact Hrest.
Qed.

Lemma MigratePrograms_conserved h db :
  store_ok h (db_islands db) ->
  exists h' db',
    MigratePrograms range_order h db = Some (h', db') /\
    db_programs db' = db_programs db /\
    conserved h (db_islands db) h' (db_islands db').
Proof.
  intros Hok. unfold MigratePrograms.
  destruct (Z.ltb_spec (len (db_islands db)) 2) as [Hlt|Hge].
  - exists h, db. split; [reflexivity|]. split; [reflexivity|].
    split; [reflexivity|]. split; [exact Hok|]. split; [reflexivity|].
    split; [reflexivity|apply ids_preserved_refl].
  - unfold len in Hge.
    destruct (migrateIslands_conserved (MigrationRate (db_config db))
                (seq 0 (length (db_islands db))) h (db_islands db) 0)
      as (h' & islands' & m' & Hrun & Hcons); [lia| |exact Hok|].
    { intros i Hi%elem_of_seq. lia. }
    pose proof Hcons as (Hlen & _).
    destruct (lookup_lt_is_Some_2 islands' 0) as [first Hfirst]; [lia|].
    rewrite Hrun. simpl. rewrite Hfirst. simpl.
    eexists _, _. split; [reflexivity|]. split; [reflexivity|]. exact Hcons.
Qed.

End Migration.

(** C2, with the well-formedness it needs.  In every store whose islands
    key each resident program by its own identifier, keep no identifier on
    two islands and hold allocated grid occupants, [MigratePrograms] returns;
    it leaves the global index as it is; the program count summed over the
    islands is unchanged; a program is resident somewhere afterwards exactly
    when it was before (none is lost, none appears), and still on one island
    only; so the equality between the summed island sizes and the size of
    the global index survives the migration.  This holds for every order in
    which the Go runtime may range over the program maps. *)
Theorem MigratePrograms_conservation
    (range_order : gmap string ptr -> list (string * ptr))
    (h : heap) (db : ProgramDatabase) :
  (forall m, range_order m ≡ₚ map_to_list m) ->
  store_ok h (db_islands db) ->
  exists h' db',
    MigratePrograms range_order h db = Some (h', db') /\
    db_programs db' = db_programs db /\
    totalPrograms (db_islands db') = totalPrograms (db_islands db) /\
    (forall k p, resident (db_islands db') k p <-> resident (db_islands db) k p) /\
    store_ok h' (db_islands db') /\
    (totalPrograms (db_islands db) = size (db_programs db) ->
     totalPrograms (db_islands db') = size (db_programs db')).
Proof.
  intros Hperm Hok.
  destruct (MigratePrograms_conserved range_order Hperm h db Hok)
    as (h' & db' & Hrun & Hidx & _ & Hok' & Htot & Hres & _).
  exists h', db'.
  split; [exact Hrun|]. split; [exact Hidx|]. split; [exact Htot|].
  split; [exact Hres|]. split; [exact Hok'|].
  intros Heq. rewrite Htot, Hidx. exact Heq.
Qed.

Lemma db_two_store_ok : store_ok heap_two (db_islands db_two).
Proof.
  split; [|split].
  - intros [|[|x]] A HA; simplify_eq/=; intros k p Hk;
      cbn [Island_Programs Island_with_Programs] in Hk;
      apply lookup_insert_Some in Hk as [[<- <-]|[_ Hk]];
      try (rewrite lookup_empty in Hk; discriminate);
      eexists; split; reflexivity.
  - intros [|[|x]] A HA; simplify_eq/=; intros key e He;
      cbn [Grid_Cells Island_Grid Island_with_Programs NewIsland] in He;
      rewrite lookup_empty in He; discriminate.
  - intros [|[|x]] [|[|y]] A B k Hxy HA HB [q Hq]; simplify_eq/=;
      cbn [Island_Programs Island_with_Programs] in *;
      apply lookup_insert_Some in Hq as [[<- <-]|[_ Hq]];
      try (rewrite lookup_empty in Hq; discriminate);
      reflexivity.
Qed.

(** Witness of [MigratePrograms_conservation]: the two-island store with one
    program on each island, ranged over in [map_to_list] order. *)
Lemma MigratePrograms_conservation_witness :
  exists h' db',
    MigratePrograms map_to_list heap_two db_two = Some (h', db') /\
    totalPrograms (db_islands db') = 2%nat.
Proof.
  destruct (MigratePrograms_conservation map_to_list heap_two db_two
              (fun m => reflexivity (map_to_list m)) db_two_store_ok)
    as (h' & db' & Hrun & _ & Htot & _).
  exists h', db'. split; [exact Hrun|]. rewrite Htot. reflexivity.
Defined.

(** C2 fails for arbitrary stores.  Adding two programs that carry the same
    identifier, one to island 0 and one to island 1, gives a store with two
    resident programs; after [MigratePrograms] only one is left. *)
Lemma MigratePrograms_counterexample :
  same_id_population = Some (2%nat, 1%nat).
Proof. vm_compute. reflexivity. Qed.

(** C5 on the code.  Two islands hold one program each.  Island 0 moves one
    program (the running counter goes from 0 to 1) and its [Migrated] becomes
    1; island 1 then moves one program (the counter goes from 1 to 2), but
    its [Migrated] becomes 2: the counter is not reset between islands. *)
Theorem MigratePrograms_Migrated_running_total :
  two_islands_migration = Some (1, 2, [1; 2], [1; 2]).
Proof. vm_compute. reflexivity. Qed.

(* ===================================================================== *)
(** * Sampling *)
(* ===================================================================== *)

Section Sampling.

Variable range_order : gmap string ptr -> list (string * ptr).
Hypothesis range_order_perm : forall m, range_order m ≡ₚ map_to_list m.

Lemma range_order_length (m : gmap string ptr) :
  length (range_order m).*2 = size m.
Proof.
  rewrite length_fmap, range_order_perm. apply length_map_to_list.
Qed.

Lemma SampleFromGrid_empty nanos isl :
  Grid_Cells (Island_Grid isl) = ∅ -> SampleFromGrid range_order nanos isl = None.
Proof.
  intros Hc. unfold SampleFromGrid. rewrite Hc, map_size_empty.
  rewrite bool_decide_eq_true_2 by reflexivity. reflexivity.
Qed.

Lemma island_index_ok (db : ProgramDatabase) (i : nat) :
  cursor_ok db -> (i < length (db_islands db))%nat ->
  is_Some (index (db_islands db)
             (wrap64 (db_currentIsland db + Z.of_nat i) `rem` len (db_islands db))).
Proof.
  intros [Hlo Hhi] Hi. unfold len in *.
  rewrite wrap64_small by (unfold min_int64, max_int64 in *; lia).
  rewrite Z.rem_mod_nonneg by lia.
  pose proof (Z.mod_pos_bound (db_currentIsland db + Z.of_nat i)
                (Z.of_nat (length (db_islands db)))) as Hb.
  unfold index.
  destruct (Z.ltb_spec ((db_currentIsland db + Z.of_nat i)
                        `mod` Z.of_nat (length (db_islands db))) 0) as [|_]; [lia|].
  apply lookup_lt_is_Some_2. lia.
Qed.

Lemma sampleIslands_loop_spec clock db todo :
  cursor_ok db ->
  (forall i, i ∈ todo -> (i < length (db_islands db))%nat) ->
  forall acc,
    exists ps,
      sampleIslands_loop range_order clock db todo acc = Some ps /\
      (length ps <= length acc + length todo)%nat /\
      (store_empty db -> ps = acc).
Proof.
  intros Hcur. induction todo as [|i rest IH]; intros Htodo acc.
  - exists acc. split; [reflexivity|]. split; [simpl; lia|reflexivity].
  - destruct (island_index_ok db i Hcur) as [isl Hisl]; [apply Htodo; left|].
    assert (Hrest : forall j, j ∈ rest -> (j < length (db_islands db))%nat)
      by (intros j Hj; apply Htodo; right; exact Hj).
    assert (Hin : isl ∈ db_islands db).
    { unfold index in Hisl. destruct (_ <? 0); [discriminate|].
      eapply list_elem_of_lookup_2. exact Hisl. }
    cbn [sampleIslands_loop]. rewrite Hisl. simpl.
    destruct (SampleFromGrid range_order (clock i) isl) as [program|] eqn:Hgrid.
    + destruct (IH Hrest (acc ++ [program])) as (ps & Hps & Hlen & Hempty).
      exists ps. split; [exact Hps|]. split.
      * rewrite length_app in Hlen. simpl in *. lia.
      * intros [Hidx Hall]. destruct (Hall isl Hin) as [Hcells _].
        rewrite SampleFromGrid_empty in Hgrid by exact Hcells. discriminate.
    + destruct (Island_BestProgram isl) as [best|] eqn:Hbest.
      * destruct (IH Hrest (acc ++ [best])) as (ps & Hps & Hlen & Hempty).
        exists ps. split; [exact Hps|]. split.
        -- rewrite length_app in Hlen. simpl in *. lia.
        -- intros [Hidx Hall]. destruct (Hall isl Hin) as [_ Hnone]. congruence.
      * destruct (IH Hrest acc) as (ps & Hps & Hlen & Hempty).
        exists ps. split; [exact Hps|]. split; [simpl; lia|exact Hempty].
Qed.

Lemma sampleGlobal_loop_spec rnd db count fuel :
  forall k acc,
    len acc <= count ->
    (Z.to_nat (count - len acc) <= fuel)%nat ->
    exists ps,
      sampleGlobal_loop range_order rnd db count fuel k acc = Some ps /\
      (db_programs db <> ∅ -> len ps = count) /\
      (db_programs db = ∅ -> ps = acc).
Proof.
  induction fuel as [|fuel IH]; intros k acc Hacc Hfuel.
  - assert (len acc = count) by lia.
    exists acc. simpl.
    destruct (Z.ltb_spec (len acc) count) as [|_]; [lia|]. simpl.
    split; [reflexivity|]. split; [intros _; assumption|reflexivity].
  - cbn [sampleGlobal_loop].
    destruct (Z.ltb_spec (len acc) count) as [Hlt|Hge]; simpl.
    + destruct (Nat.ltb_spec 0 (size (db_programs db))) as [Hpos|Hzero]; simpl.
      * pose proof (Nat.mod_upper_bound (rnd k) (size (db_programs db))) as Hidx.
        destruct (lookup_lt_is_Some_2 (range_order (db_programs db)).*2
                    (rnd k `mod` size (db_programs db))) as [program Hprogram].
        { rewrite range_order_length. lia. }
        rewrite Hprogram.
        destruct (IH (S k) (acc ++ [program])) as (ps & Hps & Hfull & Hnone).
        { unfold len in *. rewrite length_app. simpl. lia. }
        { unfold len in *. rewrite length_app. simpl. lia. }
        exists ps. split; [exact Hps|]. split; [exact Hfull|].
        intros Hempty. rewrite Hempty, map_size_empty in Hpos. lia.
      * exists acc. split; [reflexivity|].
        assert (db_programs db = ∅) by (apply map_size_empty_iff; lia).
        split; [congruence|reflexivity].
    + exists acc. split; [reflexivity|].
      split; [intros _; lia|reflexivity].
Qed.

Lemma SampleMultiple_spec clock rnd fuel db count :
  0 < count -> cursor_ok db -> (Z.to_nat count <= fuel)%nat ->
  exists ps,
    SampleMultiple range_order clock rnd fuel db count = Some (Ok ps) /\
    (db_programs db <> ∅ -> len ps = count) /\
    (store_empty db -> ps = []).
Proof.
  intros Hcount Hcur Hfuel. unfold SampleMultiple.
  destruct (Z.leb_spec count 0) as [|_]; [lia|].
  set (n := Nat.min (Z.to_nat count) (length (db_islands db))).
  destruct (sampleIslands_loop_spec clock db (seq 0 n) Hcur) with (acc := @nil ptr)
    as (ps1 & Hps1 & Hlen1 & Hempty1).
  { intros i Hi%elem_of_seq. lia. }
  rewrite length_seq in Hlen1. simpl in Hlen1.
  destruct (sampleGlobal_loop_spec rnd db count fuel 0 ps1)
    as (ps & Hps & Hfull & Hnone); [unfold len; lia..|].
  exists ps. rewrite Hps1. simpl. rewrite Hps. simpl.
  split; [reflexivity|]. split; [exact Hfull|].
  intros Hempty. rewrite (Hnone (proj1 Hempty)). apply Hempty1. exact Hempty.
Qed.

End Sampling.

(** C10.  For every count [n > 0] (and a cursor in range) [SampleMultiple]
    returns, with a nil error, whatever the clock, the random source and the
    order of map iteration are, as soon as the fuel of the top-up loop is at
    least [n].  When the global index is not empty the list holds exactly
    [n] programs; when the store holds no program at all the list is empty.
    Nothing makes the programs distinct: two samples from a store with a
    single program are that program twice. *)
Theorem SampleMultiple_contract
    (range_order : gmap string ptr -> list (string * ptr))
    (clock rnd : nat -> nat) (fuel : nat) (db : ProgramDatabase) (count : Z) :
  (forall m, range_order m ≡ₚ map_to_list m) ->
  0 < count -> cursor_ok db -> (Z.to_nat count <= fuel)%nat ->
  (exists ps,
     SampleMultiple range_order clock rnd fuel db count = Some (Ok ps) /\
     (db_programs db <> ∅ -> len ps = count) /\
     (store_empty db -> ps = [])) /\
  single_program_samples = Some (Ok [1%positive; 1%positive]).
Proof.
  intros Hperm Hcount Hcur Hfuel. split.
  - apply SampleMultiple_spec; assumption.
  - vm_compute. reflexivity.
Qed.

(** Witness of [SampleMultiple_contract]: three samples from the two-island
    store [db_two]. *)
Lemma SampleMultiple_contract_witness :
  exists ps,
    SampleMultiple map_to_list (fun _ => 0%nat) (fun _ => 0%nat) 3 db_two 3
    = Some (Ok ps) /\ len ps = 3.
Proof.
  destruct (SampleMultiple_contract map_to_list (fun _ => 0%nat) (fun _ => 0%nat)
              3 db_two 3 (fun m => reflexivity (map_to_list m)))
    as [(ps & Hps & Hfull & _) _].
  - lia.
  - split; vm_compute; congruence.
  - vm_compute. lia.
  - exists ps. split; [exact Hps|]. apply Hfull.
    intros Hempty. apply (f_equal (fun m : gmap string ptr => m !! "a")) in Hempty.
    vm_compute in Hempty. discriminate.
Defined.

(* ===================================================================== *)
(** * Round-robin insertion *)
(* ===================================================================== *)

Section RoundRobin.

Implicit Types (h : heap) (db : ProgramDatabase) (p : ptr).

Lemma grid_allocated_insert h A p prog :
  grid_allocated h A -> grid_allocated (<[p := prog]> h) A.
Proof.
  intros HA key e He. apply lookup_insert_is_Some.
  destruct (decide (p = e)); [left; assumption|right; split; [assumption|eauto]].
Qed.

(** One insertion of a program whose island id is not valid: it lands on the
    island under the cursor, and the cursor moves on. *)
Lemma AddProgram_cursor fresh h db p prog iteration :
  h !! p = Some prog ->
  invalid_island (len (db_islands db)) prog ->
  0 <= db_currentIsland db < len (db_islands db) ->
  len (db_islands db) <= max_int64 ->
  (forall i A, db_islands db !! i = Some A -> grid_allocated h A) ->
  exists h' db' prog' isl',
    AddProgram fresh h db p iteration = Some (h', db') /\
    db_currentIsland db' = (db_currentIsland db + 1) `mod` len (db_islands db) /\
    length (db_islands db') = length (db_islands db) /\
    h' !! p = Some prog' /\
    Program_IslandID prog' = Program_IslandID prog /\
    (forall q, q <> p -> h' !! q = h !! q) /\
    db_islands db' !! Z.to_nat (db_currentIsland db) = Some isl' /\
    Island_Programs isl' !! Program_ID prog' = Some p /\
    (forall i A, db_islands db' !! i = Some A -> grid_allocated h' A).
Proof.
  intros Hp Hinv Hcur Hmax Hgrid. unfold AddProgram. rewrite Hp. simpl.
  set (prog1 := if bool_decide (Program_ID prog = "") then Program_with_ID fresh prog
                else prog).
  assert (Hid1 : Program_IslandID prog1 = Program_IslandID prog).
  { unfold prog1. case_bool_decide; reflexivity. }
  assert (Htarget : targetIsland_of db prog1 = db_currentIsland db).
  { unfold targetIsland_of, invalid_island in *. rewrite Hid1.
    destruct (Z.leb_spec 0 (Program_IslandID prog));
      destruct (Z.ltb_spec (Program_IslandID prog) (len (db_islands db)));
      simpl; try reflexivity. lia. }
  rewrite Htarget.
  assert (Hlt : (Z.to_nat (db_currentIsland db) < length (db_islands db))%nat)
    by (unfold len in *; lia).
  destruct (lookup_lt_is_Some_2 _ _ Hlt) as [A HA].
  unfold index at 1. destruct (Z.ltb_spec (db_currentIsland db) 0) as [|_]; [lia|].
  rewrite HA. simpl.
  set (A1 := Island_with_Programs (<[Program_ID prog1 := p]> (Island_Programs A)) A).
  set (prog2 := Program_with_Features (ScaleFeatures A1 (Program_Features prog1)) prog1).
  set (h1 := <[p := prog2]> h).
  assert (Hp1 : is_Some (h1 !! p)) by (unfold h1; rewrite lookup_insert_eq; eauto).
  assert (Hg1 : grid_allocated h1 A1).
  { apply grid_allocated_insert. exact (Hgrid _ _ HA). }
  destruct (AddToGrid_frame h1 A1 p Hp1 Hg1)
    as (A2 & b & Hadd & Hprogs & _ & _ & _ & _ & Hg2).
  rewrite Hadd. simpl.
  set (A3 := if (Island_BestScore A2 <? Program_Score prog2)%float
             then Island_with_Best p (Program_Score prog2) (Program_ID prog2) A2
             else A2).
  assert (HA3 : Island_Programs A3 = Island_Programs A2 /\ Island_Grid A3 = Island_Grid A2).
  { unfold A3. destruct (_ <? _)%float; split; reflexivity. }
  assert (Hg3 : grid_allocated h1 A3).
  { intros key e. rewrite (proj2 HA3). apply Hg2. }
  eexists _, _, prog2, A3. split; [reflexivity|]. simpl.
  split.
  { rewrite wrap64_small by (unfold min_int64, max_int64 in *; lia).
    apply Z.rem_mod_nonneg; lia. }
  split; [apply length_insert|].
  split; [apply lookup_insert_eq|].
  split; [exact Hid1|].
  split; [intros q Hq; apply lookup_insert_ne; congruence|].
  split; [apply list_lookup_insert_eq; exact Hlt|].
  split.
  { destruct HA3 as [-> _]. rewrite Hprogs. apply lookup_insert_eq. }
  intros i X HX. destruct (decide (i = Z.to_nat (db_currentIsland db))) as [->|Hne].
  - rewrite list_lookup_insert_eq in HX by exact Hlt. injection HX as <-.
    exact Hg3.
  - rewrite list_lookup_insert_ne in HX by congruence.
    apply grid_allocated_insert. exact (Hgrid _ _ HX).
Qed.

Lemma AddPrograms_cons fresh k h db p rest :
  AddPrograms fresh k h db (p :: rest)
  = AddProgram (fresh k) h db p (Z.of_nat k)
    ≫= fun r => AddPrograms fresh (S k) r.1 r.2 rest.
Proof. reflexivity. Qed.

(** Any number of such insertions: the cursor ends [len ps] positions
    further round the ring, and the [j]-th program is, right after its own
    insertion, resident on the island [j] positions further. *)
Lemma AddPrograms_cursor fresh ps :
  forall k h db,
    0 <= db_currentIsland db < len (db_islands db) ->
    len (db_islands db) <= max_int64 ->
    (forall i A, db_islands db !! i = Some A -> grid_allocated h A) ->
    (forall p, p ∈ ps ->
       exists prog, h !! p = Some prog /\ invalid_island (len (db_islands db)) prog) ->
    (exists h' db',
       AddPrograms fresh k h db ps = Some (h', db') /\
       db_currentIsland db' = (db_currentIsland db + len ps) `mod` len (db_islands db)) /\
    (forall j p, ps !! j = Some p ->
       exists hj dbj progj islj,
         AddPrograms fresh k h db (take (S j) ps) = Some (hj, dbj) /\
         hj !! p = Some progj /\
         index (db_islands dbj)
           ((db_currentIsland db + Z.of_nat j) `mod` len (db_islands db)) = Some islj /\
         Island_Programs islj !! Program_ID progj = Some p).
Proof.
  induction ps as [|p0 rest IH]; intros k h db Hcur Hmax Hgrid Hps.
  - split; [|intros j p [=]].
    exists h, db. split; [reflexivity|].
    unfold len at 1. simpl. rewrite Z.add_0_r, Z.mod_small by lia. reflexivity.
  - destruct (Hps p0) as (prog0 & Hp0 & Hinv0); [left|].
    destruct (AddProgram_cursor (fresh k) h db p0 prog0 (Z.of_nat k) Hp0 Hinv0 Hcur Hmax Hgrid)
      as (h1 & db1 & prog1 & isl1 & Hadd & Hcur1 & Hlen1 & Hp1 & Hid1 & Hother & Hisl1 & Hres1 & Hgrid1).
    assert (Hlen1' : len (db_islands db1) = len (db_islands db))
      by (unfold len; congruence).
    assert (Hcur1' : 0 <= db_currentIsland db1 < len (db_islands db1)).
    { rewrite Hcur1, Hlen1'. apply Z.mod_pos_bound. lia. }
    destruct (IH (S k) h1 db1 Hcur1') as [(h' & db' & Hrun & Hend) Heach].
    + rewrite Hlen1'. exact Hmax.
    + exact Hgrid1.
    + intros q Hq. rewrite Hlen1'. destruct (decide (q = p0)) as [->|Hne].
      * exists prog1. split; [exact Hp1|]. unfold invalid_island in *. rewrite Hid1.
        exact Hinv0.
      * destruct (Hps q) as (prog & Hq' & Hinv); [right; exact Hq|].
        exists prog. split; [|exact Hinv]. rewrite Hother by exact Hne. exact Hq'.
    + split.
      * exists h', db'. rewrite AddPrograms_cons, Hadd. simpl. split; [exact Hrun|].
        assert (Hcons : len (p0 :: rest) = len rest + 1)
          by (unfold len; simpl length; lia).
        rewrite Hend, Hcur1, Hlen1', Hcons, Zplus_mod_idemp_l. f_equal. lia.
      * intros [|j] p Hj.
        -- simpl in Hj. injection Hj as <-.
           exists h1, db1, prog1, isl1. simpl take. rewrite AddPrograms_cons, Hadd. simpl.
           split; [reflexivity|]. split; [exact Hp1|]. split; [|exact Hres1].
           rewrite Z.add_0_r, Z.mod_small by lia. unfold index.
           destruct (Z.ltb_spec (db_currentIsland db) 0) as [|_]; [lia|exact Hisl1].
        -- simpl in Hj. destruct (Heach j p Hj) as (hj & dbj & progj & islj & Hrunj & Hpj & Hislj & Hresj).
           exists hj, dbj, progj, islj.
           change (take (S (S j)) (p0 :: rest)) with (p0 :: take (S j) rest).
           rewrite AddPrograms_cons, Hadd. simpl.
           split; [exact Hrunj|]. split; [exact Hpj|]. split; [|exact Hresj].
           rewrite Hcur1, Hlen1', Zplus_mod_idemp_l in Hislj.
           replace (db_currentIsland db + Z.of_nat (S j))
             with (db_currentIsland db + 1 + Z.of_nat j) by lia.
           exact Hislj.
Qed.

Lemma New_fresh config dir db :
  New config dir = Some db ->
  0 <= NumIslands config /\
  len (db_islands db) = NumIslands config /\
  db_currentIsland db = 0 /\
  (forall h i A, db_islands db !! i = Some A -> grid_allocated h A).
Proof.
  unfold New. destruct (Z.ltb_spec (NumIslands config) 0) as [|Hn]; [discriminate|].
  intros [= <-]. cbn [db_islands db_currentIsland]. split; [exact Hn|]. split.
  { unfold len. rewrite length_fmap, length_seq. lia. }
  split; [reflexivity|].
  intros h i A HA key e He.
  apply list_lookup_fmap_Some in HA as (n & -> & _).
  cbn in He. rewrite lookup_empty in He. discriminate.
Qed.

End RoundRobin.

(** C4, as the code has it.  Programs whose island id is not the index of an
    island (negative, or at least the number of islands), added to a freshly
    created store with [N >= 1] islands, are spread round-robin: the
    insertions all return, the [j]-th program (from 0) is resident on island
    [j mod N] right after its insertion, and after [k] insertions the cursor
    is [k mod N].  With 2 islands and three programs of island id -1 the
    assignments are [0, 1, 0] and the cursor is 1. *)
Theorem AddProgram_round_robin (config : DatabaseConfig) (dir : string)
    (fresh : nat -> string) (h : heap) (ps : list ptr) (db : ProgramDatabase) :
  New config dir = Some db ->
  0 < NumIslands config <= max_int64 ->
  (forall p, p ∈ ps ->
     exists prog, h !! p = Some prog /\ invalid_island (NumIslands config) prog) ->
  (exists h' db',
     AddPrograms fresh 0 h db ps = Some (h', db') /\
     GetCurrentIsland db' = len ps `mod` NumIslands config) /\
  (forall j p, ps !! j = Some p ->
     exists hj dbj progj islj,
       AddPrograms fresh 0 h db (take (S j) ps) = Some (hj, dbj) /\
       hj !! p = Some progj /\
       index (db_islands dbj) (Z.of_nat j `mod` NumIslands config) = Some islj /\
       Island_Programs islj !! Program_ID progj = Some p) /\
  round_robin_example (-1) = Some ([Some 0%nat; Some 1%nat; Some 0%nat], 1).
Proof.
  intros Hnew Hn Hps.
  destruct (New_fresh config dir db Hnew) as (_ & Hlen & Hcur & Hgrid).
  destruct (AddPrograms_cursor fresh ps 0 h db) as [Hend Heach].
  - rewrite Hcur, Hlen. lia.
  - rewrite Hlen. lia.
  - apply Hgrid.
  - rewrite Hlen. exact Hps.
  - rewrite Hcur, Hlen in *. split; [exact Hend|]. split; [exact Heach|].
    vm_compute. reflexivity.
Qed.

(** Witness of [AddProgram_round_robin]: three programs with island id -1 and
    a fresh two-island store. *)
Lemma AddProgram_round_robin_witness :
  exists h' db',
    AddPrograms no_fresh 0 (heap_abc (-1))
      (mkProgramDatabase config_two_islands ∅
         [NewIsland 0 config_two_islands; NewIsland 1 config_two_islands]
         None neg_inf 0 0 0 (mkEvolutionStats 0 0 0) "")
      [1%positive; 2%positive; 3%positive] = Some (h', db') /\
    GetCurrentIsland db' = 1.
Proof.
  destruct (AddProgram_round_robin config_two_islands "" no_fresh (heap_abc (-1))
              [1%positive; 2%positive; 3%positive] _ eq_refl)
    as [(h' & db' & Hrun & Hcur) _].
  - vm_compute. split; [reflexivity|discriminate].
  - intros p Hp. unfold invalid_island.
    apply list_elem_of_In in Hp. simpl in Hp.
    destruct Hp as [<-|[<-|[<-|[]]]]; eexists; (split; [reflexivity|]); simpl; lia.
  - exists h', db'. split; [exact Hrun|]. rewrite Hcur. reflexivity.
Defined.

(** C4 fails as stated.  A program built without an island id carries Go's
    zero value 0, which is the index of island 0: three such programs, added
    to a fresh two-island store, all land on island 0 (the cursor still ends
    at 1). *)
Lemma AddProgram_round_robin_counterexample :
  round_robin_example 0 = Some ([Some 0%nat; Some 0%nat; Some 0%nat], 1).
Proof. vm_compute. reflexivity. Qed.

(* ===================================================================== *)
(** * The cascade evaluator *)
(* ===================================================================== *)

Section CascadeFacts.

Variable Sscanf_f : string -> option float.
Variable Sprintf_3f : float -> string.
Variable Duration_String : Z -> string.
Variable exec : CascadeStage -> Z -> StageRun.

Lemma runStage_completed stage n output :
  exec stage n = Completed output ->
  runStage Sscanf_f Duration_String exec stage n
  = (mkEvaluationResult ("stage" +:+ itoa n +:+ "-" +:+ Stage_Name stage)
       (parseScoreOutput Sscanf_f output) 0 []
       (0 <=? parseScoreOutput Sscanf_f output)%float
       (<["stdout" := output]> ∅) "",
     None).
Proof. intros H. unfold runStage. rewrite H. reflexivity. Qed.

Lemma Evaluate_loop_completed stages :
  forall n result scores,
    all_complete Sscanf_f exec stages n scores ->
    criticals_pass stages scores ->
    let r := Evaluate_loop Sscanf_f Sprintf_3f Duration_String exec stages n result in
    r.2 = None /\
    Result_Success r.1 = true /\
    Result_Score r.1 = running_score stages scores (Result_Score result) /\
    Result_Artifacts r.1 !! "failure_stage"
    = last_missed stages scores (Result_Artifacts result !! "failure_stage").
Proof.
  induction stages as [|stage rest IH]; intros n result scores [Hlen Hall] Hcrit.
  - destruct scores; [|discriminate]. simpl. repeat split.
  - destruct scores as [|x scores]; [discriminate|].
    destruct (Hall 0%nat stage eq_refl) as (output & Hexec & Hx).
    rewrite Z.add_0_r in Hexec. simpl in Hx. injection Hx as Hx.
    cbn [Evaluate_loop]. rewrite (runStage_completed stage n output Hexec).
    cbn [Result_Score Result_Artifacts]. rewrite <- Hx.
    assert (Hrest : all_complete Sscanf_f exec rest (n + 1) scores).
    { split; [simpl in Hlen; lia|]. intros k st Hk.
      destruct (Hall (S k) st Hk) as (out & He & Hs). exists out.
      split; [|exact Hs]. rewrite <- He. f_equal. lia. }
    assert (Hcrit' : criticals_pass rest scores).
    { intros k st y Hk Hy. apply (Hcrit (S k) st y Hk Hy). }
    destruct (x <? Stage_Threshold stage)%float eqn:Hmiss.
    + assert (Hnc : Stage_Critical stage = false).
      { destruct (Stage_Critical stage) eqn:Hc; [|reflexivity].
        rewrite (Hcrit 0%nat stage x eq_refl eq_refl Hc) in Hmiss. discriminate. }
      rewrite Hnc. cbn [andb].
      match goal with |- context [Evaluate_loop _ _ _ _ rest (n + 1) ?res] =>
        destruct (IH (n + 1) res scores Hrest Hcrit') as (He & Hs & Hsc & Hfs)
      end.
      split; [exact He|]. split; [exact Hs|]. split.
      * rewrite Hsc. cbn [Result_Score running_score]. unfold score_after.
        rewrite Hmiss. reflexivity.
      * rewrite Hfs. cbn [Result_Artifacts last_missed]. rewrite Hmiss.
        f_equal. rewrite lookup_union_r by reflexivity.
        rewrite lookup_insert_ne by discriminate. apply lookup_insert_eq.
    + cbn [andb].
      match goal with |- context [Evaluate_loop _ _ _ _ rest (n + 1) ?res] =>
        destruct (IH (n + 1) res scores Hrest Hcrit') as (He & Hs & Hsc & Hfs)
      end.
      split; [exact He|]. split; [exact Hs|]. split.
      * rewrite Hsc. cbn [Result_Score running_score]. unfold score_after.
        rewrite Hmiss. reflexivity.
      * rewrite Hfs. cbn [Result_Artifacts last_missed]. rewrite Hmiss.
        f_equal. apply lookup_union_r. reflexivity.
Qed.

Lemma running_score_all_accepted stages :
  forall scores s,
    length scores = length stages ->
    all_accepted stages scores ->
    running_score stages scores s = fold_left fmax scores s /\
    last_missed stages scores None = None.
Proof.
  induction stages as [|stage rest IH]; intros [|x scores] s Hlen Hacc;
    try discriminate; [split; reflexivity|].
  cbn [running_score last_missed fold_left].
  rewrite (Hacc 0%nat stage x eq_refl eq_refl).
  destruct (IH scores (score_after stage x s)) as [-> ->].
  { simpl in Hlen. lia. }
  { intros k st y Hk Hy. apply (Hacc (S k) st y Hk Hy). }
  unfold score_after, fmax. rewrite (Hacc 0%nat stage x eq_refl eq_refl).
  split; reflexivity.
Qed.

Lemma last_missed_None stages :
  forall scores init,
    length scores = length stages ->
    last_missed stages scores init = None ->
    all_accepted stages scores /\ init = None.
Proof.
  induction stages as [|stage rest IH]; intros [|x scores] init Hlen Hnone;
    try discriminate.
  - split; [intros k st y [=]|exact Hnone].
  - cbn [last_missed] in Hnone.
    destruct (IH scores _ ltac:(simpl in Hlen; lia) Hnone) as [Hacc Hinit].
    destruct (x <? Stage_Threshold stage)%float eqn:Hmiss; [discriminate|].
    split; [|exact Hinit].
    intros [|k] st y Hk Hy; simplify_eq/=; [exact Hmiss|eapply Hacc; eauto].
Qed.

End CascadeFacts.

(** C3, as the code has it.  In the threshold scenario (validation 0.0
    critical, basic 0.5 and comprehensive 0.8 non-critical; parsed scores
    0.5, 0.4, 0.9) [Evaluate] returns no error, success = true and score
    0.9, and the artifacts carry failure_stage = basic, left by the
    non-critical stage that missed its threshold.  In general, when every
    stage's run completes and no critical stage misses its threshold,
    [Evaluate] goes through all stages and returns success = true without
    error: a non-critical miss does not stop it.  The score starts at 0, is
    set to the score of a stage that misses its threshold and is raised to
    any stage's score that is higher; failure_stage names the last stage that
    missed.  When no stage misses, the score is the running maximum of 0 and
    the stage scores; and there is no failure_stage exactly when no stage
    misses. *)
Theorem Evaluate_cascade_contract
    (Sscanf_f : string -> option float) (Sprintf_3f : float -> string)
    (Duration_String : Z -> string) (exec : CascadeStage -> Z -> StageRun)
    (now : Z) (stages : list CascadeStage) (scores : list float) :
  all_complete Sscanf_f exec stages 1 scores ->
  criticals_pass stages scores ->
  let r := Evaluate Sscanf_f Sprintf_3f Duration_String exec now stages in
  (r.2 = None /\
   Result_Success r.1 = true /\
   Result_Score r.1 = running_score stages scores 0 /\
   Result_Artifacts r.1 !! "failure_stage" = last_missed stages scores None) /\
  (all_accepted stages scores ->
   Result_Score r.1 = fold_left fmax scores 0%float /\
   Result_Artifacts r.1 !! "failure_stage" = None) /\
  (Result_Artifacts r.1 !! "failure_stage" = None -> all_accepted stages scores) /\
  (stages = scenario_stages -> scores = [0.5; 0.4; 0.9]%float ->
   r.2 = None /\
   Result_Success r.1 = true /\
   Result_Score r.1 = 0.9%float /\
   Result_Artifacts r.1 !! "failure_stage" = Some "basic").
Proof.
  intros Hall Hcrit r.
  destruct (Evaluate_loop_completed Sscanf_f Sprintf_3f Duration_String exec stages 1
              (mkEvaluationResult ("cascade-" +:+ itoa now) 0 0 [] false ∅ "")
              scores Hall Hcrit) as (He & Hs & Hsc & Hfs).
  fold (Evaluate Sscanf_f Sprintf_3f Duration_String exec now stages) in He, Hs, Hsc, Hfs.
  fold r in He, Hs, Hsc, Hfs.
  cbn [Result_Score Result_Artifacts] in Hsc, Hfs. rewrite lookup_empty in Hfs.
  split; [repeat split; assumption|]. split.
  - intros Hacc.
    destruct (running_score_all_accepted stages scores 0%float (proj1 Hall) Hacc)
      as [Hmax Hnone].
    split; congruence.
  - split.
    { intros Hnone. rewrite Hfs in Hnone.
      apply (last_missed_None stages scores None (proj1 Hall) Hnone). }
    intros -> ->. split; [exact He|]. split; [exact Hs|]. split.
    + rewrite Hsc. vm_compute. reflexivity.
    + rewrite Hfs. vm_compute. reflexivity.
Qed.

(** Witness of [Evaluate_cascade_contract]: the scenario, with an evaluator
    that prints SCORE: 0.5, SCORE: 0.4 and SCORE: 0.9. *)
Lemma Evaluate_cascade_contract_witness :
  Result_Success (scenario_Evaluate ["SCORE: 0.5"; "SCORE: 0.4"; "SCORE: 0.9"]).1 = true /\
  Result_Score (scenario_Evaluate ["SCORE: 0.5"; "SCORE: 0.4"; "SCORE: 0.9"]).1 = 0.9%float.
Proof.
  assert (Hall : all_complete scan_literals
                   (exec_prints ["SCORE: 0.5"; "SCORE: 0.4"; "SCORE: 0.9"])
                   scenario_stages 1 [0.5; 0.4; 0.9]%float).
  { split; [reflexivity|].
    intros [|[|[|k]]] stage Hk; simplify_eq/=; eexists; split; reflexivity. }
  assert (Hcrit : criticals_pass scenario_stages [0.5; 0.4; 0.9]%float).
  { intros [|[|[|k]]] stage x Hk Hx Hc; simplify_eq/=; reflexivity. }
  destruct (Evaluate_cascade_contract scan_literals (fun _ => "") (fun _ => "")
              (exec_prints ["SCORE: 0.5"; "SCORE: 0.4"; "SCORE: 0.9"]) 0
              scenario_stages [0.5; 0.4; 0.9]%float Hall Hcrit)
    as (_ & _ & _ & Hscenario).
  destruct (Hscenario eq_refl eq_refl) as (_ & Hs & Hsc & _).
  split; [exact Hs|exact Hsc].
Defined.

(** C3 fails as stated.  In the scenario the result carries
    failure_stage = basic although success = true; and with parsed scores
    0.9, 0.4, 0.85 the final score is 0.85, below the accepted score 0.9 of
    the first stage, because the stage that missed its threshold overwrote
    the running score. *)
Lemma Evaluate_cascade_counterexample :
  let r := (scenario_Evaluate ["SCORE: 0.5"; "SCORE: 0.4"; "SCORE: 0.9"]).1 in
  let r' := (scenario_Evaluate ["SCORE: 0.9"; "SCORE: 0.4"; "SCORE: 0.85"]).1 in
  (Result_Success r = true /\
   Result_Artifacts r !! "failure_stage" = Some "basic") /\
  (Result_Success r' = true /\ Result_Score r' = 0.85%float).
Proof. vm_compute. repeat split. Qed.

(* ===================================================================== *)
(** * The score parsers *)
(* ===================================================================== *)

(** C8 on the code.  The output below has the line SCORE: 0.5 as its second
    line.  Scanning the output line by line finds it (the result is what the
    scanner makes of 0.5), but [CascadeEvaluator.parseScoreOutput] treats the
    whole output as one line and returns the sentinel -1, whatever
    [fmt.Sscanf] does.  [WorkerPool.parseScoreOutput] never reaches the
    second line either: when the output is not JSON with a score it returns
    what [fmt.Sscanf] reads at the start of the whole output, and -1 when
    that reads nothing. *)
Theorem parseScoreOutput_first_line_only
    (Sscanf_f json_score : string -> option float) :
  let output := "info" +:+ newline +:+ "SCORE: 0.5" in
  parseScoreOutput Sscanf_f output = (-1)%float /\
  (json_score output = None -> Sscanf_f output = None ->
   WorkerPool_parseScoreOutput Sscanf_f json_score output = (-1)%float) /\
  (forall score,
      json_score output = None -> Sscanf_f output = Some score ->
      WorkerPool_parseScoreOutput Sscanf_f json_score output = score) /\
  scanScoreLines Sscanf_f output = default (-1)%float (Sscanf_f "0.5").
Proof.
  intros output. split; [reflexivity|]. split; [|split].
  - intros Hjson Hscan. unfold WorkerPool_parseScoreOutput. rewrite Hjson.
    cbn [WorkerPool_parseScoreOutput_loop].
    change (has_score_prefix output) with false. cbn iota. rewrite Hscan. reflexivity.
  - intros score Hjson Hscan. unfold WorkerPool_parseScoreOutput. rewrite Hjson.
    cbn [WorkerPool_parseScoreOutput_loop].
    change (has_score_prefix output) with false. cbn iota. rewrite Hscan. reflexivity.
  - unfold scanScoreLines.
    change (split_lines output) with ["info"; "SCORE: 0.5"].
    cbn [parseScoreOutput_loop].
    change (has_score_prefix "info") with false.
    change (has_score_prefix "SCORE: 0.5") with true.
    change (after_score_prefix "SCORE: 0.5") with "0.5". cbn iota.
    destruct (Sscanf_f "0.5"); reflexivity.
Qed.

(* ===================================================================== *)
(** * Reasoning models *)
(* ===================================================================== *)

(** [strings.HasPrefix] and [strings.Contains], in terms of concatenation. *)
Lemma HasPrefix_spec (s prefix : string) :
  HasPrefix s prefix = true <-> exists rest, s = prefix +:+ rest.
Proof.
  unfold HasPrefix. revert s.
  induction prefix as [|a prefix IH]; intros s.
  - split; [intros _; exists s; reflexivity|]. intros _. destruct s; reflexivity.
  - destruct s as [|b s]; simpl.
    + split; [discriminate|]. intros [rest H]. discriminate.
    + destruct (Ascii.ascii_dec a b) as [->|Hne].
      * rewrite IH. split; intros [rest H]; exists rest; [rewrite H; reflexivity|].
        injection H as H. exact H.
      * split; [discriminate|]. intros [rest H]. injection H as H1 H2. congruence.
Qed.

Lemma Contains_spec (s substr : string) :
  Contains s substr = true <-> exists pre post, s = pre +:+ substr +:+ post.
Proof.
  split.
  - induction s as [|a s IH]; simpl; intros H.
    + apply orb_true_iff in H as [H|H]; [|discriminate].
      apply (HasPrefix_spec EmptyString substr) in H as [rest H].
      exists EmptyString, rest. exact H.
    + apply orb_true_iff in H as [H|H].
      * apply (HasPrefix_spec (String a s) substr) in H as [rest H].
        exists EmptyString, rest. exact H.
      * destruct (IH H) as (pre & post & ->).
        exists (String a pre), post. reflexivity.
  - intros (pre & post & ->). induction pre as [|a pre IH].
    + assert (HasPrefix (substr +:+ post) substr = true) as H
        by (apply HasPrefix_spec; eauto).
      unfold HasPrefix in H.
      change (EmptyString +:+ substr +:+ post) with (substr +:+ post).
      revert H. generalize (substr +:+ post). intros s H.
      destruct s; cbn [Contains]; rewrite H; reflexivity.
    + change (String a pre +:+ substr +:+ post)
        with (String a (pre +:+ substr +:+ post)).
      cbn [Contains]. rewrite IH. apply orb_true_r.
Qed.

Lemma existsb_reasoningPrefixes_false (model : string) :
  existsb (HasPrefix model) reasoningPrefixes = false ->
  HasPrefix model "o1" = false /\ HasPrefix model "o3" = false.
Proof.
  unfold reasoningPrefixes. cbn [existsb]. intros H.
  repeat (apply orb_false_elim in H as [? H]). split; assumption.
Qed.

Lemma isReasoningModel_eq (ToLower : string -> string) (c : OpenAIClient) :
  isReasoningModel ToLower c
  = existsb (HasPrefix (ToLower (Config_Name (client_config c)))) reasoningPrefixes
    || (Contains (ToLower (client_baseURL c)) "api.openai.com"
        && HasPrefix (ToLower (Config_Name (client_config c))) "o4").
Proof.
  unfold isReasoningModel.
  destruct (existsb _ reasoningPrefixes) eqn:E; [reflexivity|].
  destruct (existsb_reasoningPrefixes_false _ E) as [-> ->]. reflexivity.
Qed.

(** The decision in terms of concatenation, for every lower-casing. *)
Lemma isReasoningModel_iff (ToLower : string -> string) (c : OpenAIClient) :
  isReasoningModel ToLower c = true <->
  (exists prefix rest,
      prefix ∈ reasoningPrefixes /\
      ToLower (Config_Name (client_config c)) = prefix +:+ rest)
  \/ ((exists pre post,
          ToLower (client_baseURL c) = pre +:+ "api.openai.com" +:+ post) /\
      exists rest, ToLower (Config_Name (client_config c)) = "o4" +:+ rest).
Proof.
  rewrite isReasoningModel_eq, orb_true_iff, andb_true_iff, existsb_exists.
  rewrite Contains_spec, HasPrefix_spec.
  split.
  - intros [(prefix & H1 & H2)|H]; [left|right; exact H].
    apply HasPrefix_spec in H2 as [rest H2]. exists prefix, rest.
    split; [apply list_elem_of_In; exact H1|exact H2].
  - intros [(prefix & rest & Hin & H)|H]; [left|right; exact H].
    exists prefix. split; [apply list_elem_of_In; exact Hin|].
    apply HasPrefix_spec. eauto.
Qed.

(** C9, as the code has it.  Let [model] be the configured model name and
    [apiBase] the client's base URL, both lower-cased by [strings.ToLower].
    [isReasoningModel] returns true exactly when [model] is one of the
    listed prefixes followed by anything, or [model] is o4 followed by
    anything and api.openai.com occurs in [apiBase].  [strings.ToLower]
    lower-cases ASCII strings byte by byte, which makes the test
    case-insensitive on them.  So, for every base URL, the answer is true for
    "o1-preview", "O1-Preview", "gpt-5" and "GPT-5-Turbo" and false for
    "gpt-4" and "GPT-4"; for "o4" it is true on the default base and on
    "https://API.OpenAI.com/v1" and false on a local server, where "o4-mini"
    is still a reasoning model. *)
Theorem isReasoningModel_spec (ToLower : string -> string) (c : OpenAIClient)
    (base : string) :
  lowers_ASCII ToLower ->
  let model := ToLower (Config_Name (client_config c)) in
  let apiBase := ToLower (client_baseURL c) in
  (isReasoningModel ToLower c = true <->
     (exists prefix rest, prefix ∈ reasoningPrefixes /\ model = prefix +:+ rest)
     \/ ((exists pre post, apiBase = pre +:+ "api.openai.com" +:+ post) /\
         exists rest, model = "o4" +:+ rest)) /\
  (isASCII (Config_Name (client_config c)) = true ->
   model = lowerASCII (Config_Name (client_config c))) /\
  (isASCII (client_baseURL c) = true -> apiBase = lowerASCII (client_baseURL c)) /\
  isReasoningModel ToLower (client_for "o1-preview" base) = true /\
  isReasoningModel ToLower (client_for "O1-Preview" base) = true /\
  isReasoningModel ToLower (client_for "gpt-4" base) = false /\
  isReasoningModel ToLower (client_for "GPT-4" base) = false /\
  isReasoningModel ToLower (client_for "gpt-5" base) = true /\
  isReasoningModel ToLower (client_for "GPT-5-Turbo" base) = true /\
  isReasoningModel ToLower (client_for "o4" "") = true /\
  isReasoningModel ToLower (client_for "o4" "https://API.OpenAI.com/v1") = true /\
  isReasoningModel ToLower (client_for "o4" "http://localhost:8080/v1") = false /\
  isReasoningModel ToLower (client_for "o4-mini" "http://localhost:8080/v1") = true.
Proof.
  intros Hlower model apiBase.
  split; [apply isReasoningModel_iff|].
  split; [apply Hlower|]. split; [apply Hlower|].
  assert (Hname : forall name b,
             isASCII name = true ->
             isReasoningModel ToLower (client_for name b)
             = existsb (HasPrefix (lowerASCII name)) reasoningPrefixes
               || (Contains (ToLower (client_baseURL (client_for name b)))
                     "api.openai.com"
                   && HasPrefix (lowerASCII name) "o4")).
  { intros name b Hascii. rewrite isReasoningModel_eq.
    cbn [client_for NewOpenAIClient client_config Config_Name].
    rewrite (Hlower name Hascii). reflexivity. }
  assert (Hurl : forall name b,
             isASCII b = true -> b <> "" ->
             Contains (ToLower (client_baseURL (client_for name b))) "api.openai.com"
             = Contains (lowerASCII b) "api.openai.com").
  { intros name b Hascii Hne.
    cbn [client_for NewOpenAIClient client_baseURL Config_APIBase].
    unfold getOrDefault. destruct (String.eqb_spec b ""); [contradiction|].
    rewrite (Hlower b Hascii). reflexivity. }
  repeat split.
  - rewrite Hname by reflexivity. reflexivity.
  - rewrite Hname by reflexivity. reflexivity.
  - rewrite Hname by reflexivity. apply andb_false_r.
  - rewrite Hname by reflexivity. apply andb_false_r.
  - rewrite Hname by reflexivity. reflexivity.
  - rewrite Hname by reflexivity. reflexivity.
  - rewrite Hname by reflexivity.
    cbn [client_for NewOpenAIClient client_baseURL Config_APIBase].
    change (getOrDefault "" "https://api.openai.com/v1") with "https://api.openai.com/v1".
    rewrite (Hlower "https://api.openai.com/v1") by reflexivity. reflexivity.
  - rewrite Hname, Hurl by (reflexivity || discriminate). reflexivity.
  - rewrite Hname, Hurl by (reflexivity || discriminate). reflexivity.
  - rewrite Hname by reflexivity. reflexivity.
Qed.

(** Witness of [isReasoningModel_spec]: the byte-wise lower-casing itself,
    on a model name in capitals. *)
Lemma isReasoningModel_spec_witness :
  isReasoningModel lowerASCII (client_for "O1-Preview" "") = true.
Proof.
  refine (proj1 (proj2 (proj2 (proj2 (proj2
            (isReasoningModel_spec lowerASCII (client_for "O1-Preview" "") "" _)))))).
  intros s _. reflexivity.
Defined.

(** C9 fails as stated: the name "o4" begins with none of the listed
    prefixes, yet a client for it on the default API base is taken for a
    reasoning model.  (On these ASCII strings [strings.ToLower] is
    [lowerASCII].) *)
Lemma isReasoningModel_counterexample :
  existsb (HasPrefix (lowerASCII "o4")) reasoningPrefixes = false /\
  client_baseURL (client_for "o4" "") = "https://api.openai.com/v1" /\
  isReasoningModel lowerASCII (client_for "o4" "") = true.
Proof. repeat split. Qed.


Lemma wrap64_succ (z : Z) : wrap64 (wrap64 z + 1) = wrap64 (z + 1).
Proof.
  unfold wrap64.
  replace ((z + 2 ^ 63) `mod` 2 ^ 64 - 2 ^ 63 + 1 + 2 ^ 63)
    with ((z + 2 ^ 63) `mod` 2 ^ 64 + 1) by lia.
  rewrite Zplus_mod_idemp_l. f_equal. f_equal. lia.
Qed.

(* ===================================================================== *)
(** * The grid: what an insertion leaves alone *)
(* ===================================================================== *)

Section GridMore.

Implicit Types (h : heap) (i : Island) (g : MAPGrid) (p q e : ptr).

(** The two ways [AddToGrid] can return. *)
Lemma AddToGrid_inv h i p i' b :
  AddToGrid h i p = Some (i', b) ->
  exists prog,
    h !! p = Some prog /\
    ((b = true /\
      i' = placed i prog p
             match occupant i (Program_Features prog) with
             | Some _ => Grid_FilledCells (Island_Grid i)
             | None => wrap64 (Grid_FilledCells (Island_Grid i) + 1)
             end)
     \/ (b = false /\ i' = i /\ is_Some (occupant i (Program_Features prog)))).
Proof.
  unfold AddToGrid, occupant, placed. intros H.
  destruct (h !! p) as [prog|] eqn:Hp; [|discriminate]. simpl in H.
  exists prog. split; [reflexivity|].
  destruct (Grid_Cells (Island_Grid i) !! calculateCellKey i (Program_Features prog))
    as [e|] eqn:Hc.
  - destruct (h !! e) as [eprog|]; [|discriminate]. simpl in H.
    destruct (Program_Score eprog <? Program_Score prog)%float;
      injection H as <- <-; [left|right]; eauto.
  - injection H as <- <-. left. eauto.
Qed.

Lemma placed_cells i prog p filled :
  Grid_Cells (Island_Grid (placed i prog p filled))
  = <[calculateCellKey i (Program_Features prog) := p]> (Grid_Cells (Island_Grid i)).
Proof. reflexivity. Qed.

Lemma grid_counted_placed i prog p :
  grid_counted i ->
  grid_counted
    (placed i prog p
       match occupant i (Program_Features prog) with
       | Some _ => Grid_FilledCells (Island_Grid i)
       | None => wrap64 (Grid_FilledCells (Island_Grid i) + 1)
       end).
Proof.
  unfold grid_counted, occupant. intros Hc.
  rewrite placed_cells.
  change (Grid_FilledCells (Island_Grid (placed i prog p ?f))) with f.
  destruct (Grid_Cells (Island_Grid i) !! calculateCellKey i (Program_Features prog))
    as [e|] eqn:Hk.
  - rewrite map_size_insert_Some by (rewrite Hk; eauto). exact Hc.
  - rewrite map_size_insert_None by exact Hk.
    rewrite Hc, wrap64_succ. f_equal. lia.
Qed.

Lemma AddToGrid_counted h i p i' b :
  AddToGrid h i p = Some (i', b) -> grid_counted i -> grid_counted i'.
Proof.
  intros H Hc. apply AddToGrid_inv in H as (prog & _ & [[_ ->]|(_ & -> & _)]);
    [apply grid_counted_placed|]; exact Hc.
Qed.

Lemma NewIsland_counted id config : grid_counted (NewIsland id config).
Proof. reflexivity. Qed.

End GridMore.

(* ===================================================================== *)
(** * The running feature statistics *)
(* ===================================================================== *)

Section StatsMore.

Lemma updateStats_brackets (stats : FeatureStats) (feature : float) :
  Stats_Count (updateStats stats feature) = wrap64 (Stats_Count stats + 1) /\
  (feature <? Stats_Min (updateStats stats feature))%float = false /\
  (Stats_Max (updateStats stats feature) <? feature)%float = false /\
  (Stats_Min stats <? Stats_Min (updateStats stats feature))%float = false /\
  (Stats_Max (updateStats stats feature) <? Stats_Max stats)%float = false.
Proof.
  unfold updateStats.
  destruct (wrap64 (Stats_Count stats + 1) =? 1); cbn [Stats_Count Stats_Min Stats_Max];
    (split; [reflexivity|]);
    destruct (feature <? Stats_Min stats)%float eqn:Emin;
    destruct (Stats_Max stats <? feature)%float eqn:Emax;
    auto using ltb_irrefl, ltb_asym.
Qed.

Lemma updateFeatureStats_loop_notin dims :
  forall k features fs dim,
    dim ∉ dims ->
    updateFeatureStats_loop dims k features fs !! dim = fs !! dim.
Proof.
  induction dims as [|dim0 rest IH]; intros k features fs dim Hn; simpl; [reflexivity|].
  apply not_elem_of_cons in Hn as [Hne Hn].
  destruct (features !! k) as [f|]; rewrite IH by exact Hn; [|reflexivity].
  apply lookup_insert_ne. congruence.
Qed.

Lemma updateFeatureStats_loop_at dims :
  forall k features fs d dim,
    NoDup dims ->
    dims !! d = Some dim ->
    updateFeatureStats_loop dims k features fs !! dim
    = match features !! (k + d)%nat with
      | Some feature => Some (updateStats (default FeatureStats_zero (fs !! dim)) feature)
      | None => fs !! dim
      end.
Proof.
  induction dims as [|dim0 rest IH]; intros k features fs d dim Hnd Hd; [discriminate|].
  apply NoDup_cons in Hnd as [Hn0 Hnd]. simpl.
  destruct d as [|d]; simpl in Hd.
  - injection Hd as ->. rewrite Nat.add_0_r.
    destruct (features !! k) as [f|]; rewrite updateFeatureStats_loop_notin by exact Hn0;
      [apply lookup_insert_eq|reflexivity].
  - assert (dim0 <> dim) as Hne.
    { intros ->. apply Hn0. eapply list_elem_of_lookup_2; eassumption. }
    replace (k + S d)%nat with (S k + d)%nat by lia.
    destruct (features !! k) as [f|]; rewrite (IH _ _ _ d dim Hnd Hd); [|reflexivity].
    rewrite lookup_insert_ne by exact Hne. reflexivity.
Qed.

End StatsMore.

Section ScalingMore.

Variable fs : gmap string FeatureStats.

Lemma ScaleFeatures_loop_beyond dims :
  forall k features scaled j,
    (k + length dims <= j)%nat ->
    ScaleFeatures_loop fs dims k features scaled !! j = scaled !! j.
Proof.
  induction dims as [|dim rest IH]; intros k features scaled j Hj; simpl; [reflexivity|].
  simpl in Hj.
  destruct (features !! k) as [f|]; rewrite IH by lia; [|reflexivity].
  apply list_lookup_insert_ne. lia.
Qed.

End ScalingMore.

(* ===================================================================== *)
(** * The island: further properties *)
(* ===================================================================== *)

(** X1.  [AddToGrid] touches the addressed cell only: it keeps the cell key
    of every feature vector, [GetFromGrid] of the program's own vector
    gives the program when it was accepted and the previous occupant when
    it was not, every vector that addresses another cell gets what it got
    before, and no filled cell becomes empty. *)
Theorem AddToGrid_other_cells (h : heap) (i i' : Island) (p : ptr) (b : bool)
    (prog : Program) :
  h !! p = Some prog ->
  AddToGrid h i p = Some (i', b) ->
  (forall features, calculateCellKey i' features = calculateCellKey i features) /\
  GetFromGrid i' (Program_Features prog)
  = (if b then Some p else GetFromGrid i (Program_Features prog)) /\
  (forall features,
      calculateCellKey i features <> calculateCellKey i (Program_Features prog) ->
      GetFromGrid i' features = GetFromGrid i features) /\
  (forall features,
      is_Some (GetFromGrid i features) -> is_Some (GetFromGrid i' features)).
Proof.
  intros Hp H.
  apply AddToGrid_inv in H as (prog' & Hp' & H).
  assert (prog' = prog) as -> by congruence.
  destruct H as [[-> ->]|(-> & -> & _)].
  - set (filled := match occupant i (Program_Features prog) with
                   | Some _ => _ | None => _ end).
    split; [intros features; apply placed_key|].
    split; [apply placed_occupant|].
    split.
    + intros features Hne. unfold GetFromGrid.
      rewrite placed_key, placed_cells. apply lookup_insert_ne. congruence.
    + intros features Hs. unfold GetFromGrid in *.
      rewrite placed_key, placed_cells.
      destruct (decide (calculateCellKey i (Program_Features prog)
                        = calculateCellKey i features)) as [E|E].
      * rewrite E, lookup_insert_eq. eauto.
      * rewrite lookup_insert_ne by exact E. exact Hs.
  - repeat split; auto.
Qed.

Lemma AddToGrid_other_cells_witness :
  GetFromGrid
    (placed island_5x5 program_test1 1%positive 1) (Program_Features program_test1)
  = Some 1%positive.
Proof.
  assert (AddToGrid heap_tests island_5x5 1%positive
          = Some (placed island_5x5 program_test1 1%positive 1, true)) as H.
  { vm_compute. reflexivity. }
  exact (proj1 (proj2 (AddToGrid_other_cells heap_tests island_5x5 _ 1%positive true
                         program_test1 eq_refl H))).
Defined.

(** X2.  One call of [updateFeatureStats] on an island whose dimension
    names are distinct: for a dimension the program's vector covers, the
    observation count goes up by one, the new minimum and maximum bracket
    the observed feature and are not tighter than the old ones, and a first
    observation becomes the mean with deviation 0; for a dimension the
    vector does not reach, and for every name that is no dimension, the
    statistics stay as they were. *)
Theorem updateFeatureStats_brackets (i : Island) (program : Program)
    (dimIdx : nat) (dim : string) :
  NoDup (Grid_Dimensions (Island_Grid i)) ->
  Grid_Dimensions (Island_Grid i) !! dimIdx = Some dim ->
  let old := default FeatureStats_zero (Island_FeatureStats i !! dim) in
  let stats' := Island_FeatureStats (updateFeatureStats i program) in
  (forall feature,
      Program_Features program !! dimIdx = Some feature ->
      exists new,
        stats' !! dim = Some new /\
        Stats_Count new = wrap64 (Stats_Count old + 1) /\
        (feature <? Stats_Min new)%float = false /\
        (Stats_Max new <? feature)%float = false /\
        (Stats_Min old <? Stats_Min new)%float = false /\
        (Stats_Max new <? Stats_Max old)%float = false /\
        (Stats_Count old = 0 -> Stats_Mean new = feature /\ Stats_Std new = 0%float)) /\
  (Program_Features program !! dimIdx = None ->
   stats' !! dim = Island_FeatureStats i !! dim) /\
  (forall name, name ∉ Grid_Dimensions (Island_Grid i) ->
                stats' !! name = Island_FeatureStats i !! name).
Proof.
  intros Hnd Hd old stats'. subst stats'. unfold updateFeatureStats.
  cbn [Island_FeatureStats Island_with_FeatureStats].
  pose proof (updateFeatureStats_loop_at (Grid_Dimensions (Island_Grid i)) 0
                (Program_Features program) (Island_FeatureStats i) dimIdx dim Hnd Hd)
    as Hat.
  simpl in Hat.
  split; [|split].
  - intros feature Hf. rewrite Hf in Hat.
    exists (updateStats old feature). split; [exact Hat|].
    destruct (updateStats_brackets old feature) as (Hc & H1 & H2 & H3 & H4).
    repeat (split; [assumption|]).
    intros H0. unfold updateStats. rewrite H0. simpl. split; reflexivity.
  - intros Hf. rewrite Hf in Hat. exact Hat.
  - intros name Hn. apply updateFeatureStats_loop_notin. exact Hn.
Qed.

Lemma updateFeatureStats_brackets_witness :
  exists new,
    Island_FeatureStats (updateFeatureStats island_5x5 program_test1) !! "complexity"
    = Some new /\
    Stats_Count new = 1.
Proof.
  assert (NoDup (Grid_Dimensions (Island_Grid island_5x5))) as Hnd.
  { change (NoDup ["complexity"; "diversity"]).
    apply NoDup_cons. split; [|apply NoDup_singleton].
    intros H%list_elem_of_singleton. discriminate. }
  destruct (proj1 (updateFeatureStats_brackets island_5x5 program_test1 0 "complexity"
                     Hnd eq_refl) 0.3%float eq_refl)
    as (new & Hn & Hc & _).
  exists new. split; [exact Hn|]. rewrite Hc. reflexivity.
Defined.

(** X3.  [ScaleFeatures] has an output entry for every input entry, and the
    entries beyond the grid's dimensions are 0 whatever the input was. *)
Theorem ScaleFeatures_surplus (i : Island) (features : list float) (dimIdx : nat) :
  (length (Grid_Dimensions (Island_Grid i)) <= dimIdx < length features)%nat ->
  ScaleFeatures i features !! dimIdx = Some 0%float.
Proof.
  intros [Hge Hlt]. unfold ScaleFeatures.
  rewrite ScaleFeatures_loop_beyond by (simpl; exact Hge).
  apply lookup_replicate_2. exact Hlt.
Qed.

Lemma ScaleFeatures_surplus_witness :
  ScaleFeatures island_5x5 [0.3; 0.7; 0.9]%float !! 2%nat = Some 0%float.
Proof. apply ScaleFeatures_surplus. simpl. lia. Defined.

(* ===================================================================== *)
(** * Sampling: where the samples come from *)
(* ===================================================================== *)

Section SamplingMore.

Variable range_order : gmap string ptr -> list (string * ptr).
Hypothesis range_order_perm : forall m, range_order m ≡ₚ map_to_list m.

Lemma range_order_pick (m : gmap string ptr) (n : nat) :
  m <> ∅ ->
  exists p k, (range_order m).*2 !! (n `mod` length (range_order m).*2)%nat = Some p /\
              m !! k = Some p.
Proof.
  intros Hne.
  assert (0 < length (range_order m).*2)%nat as Hpos.
  { rewrite (range_order_length range_order range_order_perm).
    destruct (size m) eqn:E; [|lia].
    apply map_size_empty_iff in E. contradiction. }
  destruct (lookup_lt_is_Some_2 (range_order m).*2
              (n `mod` length (range_order m).*2)) as [p Hp].
  { apply Nat.mod_upper_bound. lia. }
  exists p.
  destruct (range_order_elem range_order range_order_perm m p) as [k Hk].
  { eapply list_elem_of_lookup_2. exact Hp. }
  exists k. split; assumption.
Qed.

Lemma SampleFromGrid_cases nanos isl :
  (Grid_Cells (Island_Grid isl) = ∅ /\ SampleFromGrid range_order nanos isl = None)
  \/ (Grid_Cells (Island_Grid isl) <> ∅ /\
      exists p key, SampleFromGrid range_order nanos isl = Some p /\
                    Grid_Cells (Island_Grid isl) !! key = Some p).
Proof.
  destruct (decide (Grid_Cells (Island_Grid isl) = ∅)) as [He|Hne].
  - left. split; [exact He|]. apply SampleFromGrid_empty. exact He.
  - right. split; [exact Hne|].
    destruct (range_order_pick (Grid_Cells (Island_Grid isl)) nanos Hne)
      as (p & key & Hp & Hkey).
    exists p, key. split; [|exact Hkey].
    unfold SampleFromGrid.
    rewrite bool_decide_eq_false_2 by (rewrite map_size_empty_iff; exact Hne).
    destruct (Nat.ltb_spec 0 (length (range_order (Grid_Cells (Island_Grid isl))).*2))
      as [_|Hz]; [exact Hp|].
    rewrite (range_order_length range_order range_order_perm) in Hz.
    assert (size (Grid_Cells (Island_Grid isl)) = 0%nat) as E by lia.
    apply map_size_empty_iff in E. contradiction.
Qed.

Lemma index_range {A : Type} (s : list A) (i : Z) :
  is_Some (index s i) <-> 0 <= i < len s.
Proof.
  unfold index, len. destruct (Z.ltb_spec i 0) as [Hneg|Hpos].
  - split; [intros [x Hx]; discriminate|lia].
  - rewrite lookup_lt_is_Some. lia.
Qed.

Lemma SampleFromIsland_cases nanos rnd db islandID :
  (~ 0 <= islandID < len (db_islands db) /\
   SampleFromIsland range_order nanos rnd db islandID
   = Some (Err ("invalid island ID: " +:+ itoa islandID)))
  \/ (exists isl,
        index (db_islands db) islandID = Some isl /\
        ((island_empty isl /\
          SampleFromIsland range_order nanos rnd db islandID
          = Some (Err ("island " +:+ itoa islandID +:+ " is empty")))
         \/ (exists p,
               SampleFromIsland range_order nanos rnd db islandID = Some (Ok p) /\
               if decide (Grid_Cells (Island_Grid isl) = ∅)
               then exists k, Island_Programs isl !! k = Some p
               else exists key, Grid_Cells (Island_Grid isl) !! key = Some p))).
Proof.
  unfold SampleFromIsland.
  destruct (Z.ltb_spec islandID 0) as [Hneg|Hpos]; simpl; [left; split; [lia|reflexivity]|].
  destruct (Z.leb_spec (len (db_islands db)) islandID) as [Hbig|Hlt];
    [left; split; [lia|reflexivity]|].
  right.
  destruct (proj2 (index_range (db_islands db) islandID)) as [isl Hisl]; [lia|].
  exists isl. split; [exact Hisl|]. rewrite Hisl. simpl.
  destruct (SampleFromGrid_cases nanos isl)
    as [[Hempty ->]|(Hne & p & key & -> & Hkey)].
  - destruct (Nat.ltb_spec 0 (size (Island_Programs isl))) as [Hsz|Hsz].
    + right.
      assert (Island_Programs isl <> ∅) as Hpne.
      { intros E. rewrite E, map_size_empty in Hsz. lia. }
      destruct (range_order_pick (Island_Programs isl) rnd Hpne) as (p & k & Hp & Hk).
      exists p. rewrite Hp. simpl. split; [reflexivity|].
      rewrite decide_True by exact Hempty. eauto.
    + left. split; [|reflexivity]. split; [exact Hempty|].
      apply map_size_empty_iff. lia.
  - right. exists p. split; [reflexivity|].
    rewrite decide_False by exact Hne. eauto.
Qed.

Lemma SampleFromIsland_outcome nanos rnd db islandID :
  (samplable db islandID /\
   exists p isl,
     SampleFromIsland range_order nanos rnd db islandID = Some (Ok p) /\
     index (db_islands db) islandID = Some isl /\ island_member isl p)
  \/ (~ samplable db islandID /\
      exists msg, SampleFromIsland range_order nanos rnd db islandID = Some (Err msg)).
Proof.
  destruct (SampleFromIsland_cases nanos rnd db islandID)
    as [[Hbad H]|(isl & Hisl & [[Hempty H]|(p & Hp & Hmem)])].
  - right. split; [|eauto]. intros (isl & Hisl & _).
    apply Hbad. apply index_range. eauto.
  - right. split; [|eauto]. intros (isl' & Hisl' & Hne).
    assert (isl' = isl) as -> by congruence. contradiction.
  - left. split.
    + exists isl. split; [exact Hisl|]. intros [Hc Hp'].
      rewrite decide_True in Hmem by exact Hc.
      destruct Hmem as [k Hk]. rewrite Hp' in Hk. discriminate.
    + exists p, isl. split; [exact Hp|]. split; [exact Hisl|].
      destruct (decide _); [right|left]; exact Hmem.
Qed.

Lemma samplePrograms_fallback_spec nanosF rndF db todo :
  forall msg0,
    ((exists i, i ∈ todo /\ samplable db (Z.of_nat i)) /\
     exists p isl i,
       samplePrograms_fallback range_order nanosF rndF db todo (Err msg0) = Some (Ok p) /\
       index (db_islands db) (Z.of_nat i) = Some isl /\ island_member isl p)
    \/ ((forall i, i ∈ todo -> ~ samplable db (Z.of_nat i)) /\
        exists msg,
          samplePrograms_fallback range_order nanosF rndF db todo (Err msg0)
          = Some (Err msg)).
Proof.
  induction todo as [|i rest IH]; intros msg0.
  - right. split; [intros i Hi; inversion Hi|]. eauto.
  - cbn [samplePrograms_fallback].
    destruct (SampleFromIsland_outcome (nanosF i) (rndF i) db (Z.of_nat i))
      as [(Hs & p & isl & -> & Hisl & Hmem)|(Hn & msg & ->)]; simpl.
    + left. split; [exists i; split; [left|exact Hs]|]. eauto 10.
    + destruct (IH msg) as [((j & Hj & Hs) & p & isl & k & -> & Hisl & Hmem)
                           |(Hall & msg' & ->)].
      * left. split; [exists j; split; [right; exact Hj|exact Hs]|]. eauto 10.
      * right. split; [|eauto].
        intros j Hj. apply elem_of_cons in Hj as [->|Hj]; auto.
Qed.

Lemma sampleIslands_loop_source clock db todo :
  forall acc ps,
    sampleIslands_loop range_order clock db todo acc = Some ps ->
    forall p, p ∈ ps ->
      p ∈ acc \/
      exists isl, isl ∈ db_islands db /\
                  ((exists key, Grid_Cells (Island_Grid isl) !! key = Some p) \/
                   Island_BestProgram isl = Some p).
Proof.
  induction todo as [|i rest IH]; intros acc ps H p Hp.
  - injection H as <-. left. exact Hp.
  - cbn [sampleIslands_loop] in H.
    destruct (index (db_islands db) _) as [isl|] eqn:Hisl; [|discriminate].
    simpl in H.
    assert (Hin : isl ∈ db_islands db).
    { unfold index in Hisl. destruct (_ <? 0); [discriminate|].
      eapply list_elem_of_lookup_2. exact Hisl. }
    destruct (SampleFromGrid_cases (clock i) isl)
      as [[Hempty Hg]|(Hne & q & key & Hg & Hkey)]; rewrite Hg in H.
    + destruct (Island_BestProgram isl) as [best|] eqn:Hbest.
      * destruct (IH _ _ H p Hp) as [Hacc|Hsrc]; [|right; exact Hsrc].
        apply elem_of_app in Hacc as [Hacc|Hq%list_elem_of_singleton]; [left; exact Hacc|].
        subst. right. exists isl. eauto.
      * exact (IH _ _ H p Hp).
    + destruct (IH _ _ H p Hp) as [Hacc|Hsrc]; [|right; exact Hsrc].
      apply elem_of_app in Hacc as [Hacc|Hq%list_elem_of_singleton]; [left; exact Hacc|].
      subst. right. exists isl. eauto.
Qed.

Lemma sampleGlobal_loop_source rnd db count fuel :
  forall k acc ps,
    sampleGlobal_loop range_order rnd db count fuel k acc = Some ps ->
    forall p, p ∈ ps -> p ∈ acc \/ exists id, db_programs db !! id = Some p.
Proof.
  induction fuel as [|fuel IH]; intros k acc ps H p Hp; cbn [sampleGlobal_loop] in H.
  - destruct (_ && _); [discriminate|]. injection H as <-. left. exact Hp.
  - destruct (_ && _); [|injection H as <-; left; exact Hp].
    destruct ((range_order (db_programs db)).*2 !! _) as [q|] eqn:Hq.
    + destruct (IH _ _ _ H p Hp) as [Hacc|Hsrc]; [|right; exact Hsrc].
      apply elem_of_app in Hacc as [Hacc|Hq'%list_elem_of_singleton]; [left; exact Hacc|].
      subst. right.
      apply (range_order_elem range_order range_order_perm).
      eapply list_elem_of_lookup_2. exact Hq.
    + exact (IH _ _ _ H p Hp).
Qed.

End SamplingMore.

(** X4.  [SampleFromGrid] returns nil exactly when the grid has no filled
    cell; otherwise it returns the occupant of one of the cells, whatever
    the clock reads and in whatever order the cells are ranged over. *)
Theorem SampleFromGrid_occupant
    (range_order : gmap string ptr -> list (string * ptr))
    (nanos : nat) (isl : Island) :
  (forall m, range_order m ≡ₚ map_to_list m) ->
  (SampleFromGrid range_order nanos isl = None
   <-> Grid_Cells (Island_Grid isl) = ∅) /\
  (forall p, SampleFromGrid range_order nanos isl = Some p ->
             exists key, Grid_Cells (Island_Grid isl) !! key = Some p).
Proof.
  intros Hperm.
  destruct (SampleFromGrid_cases range_order Hperm nanos isl)
    as [[Hempty Hg]|(Hne & q & key & Hg & Hkey)]; rewrite Hg.
  - split; [tauto|]. intros p Hp. discriminate.
  - split.
    + split; [discriminate|contradiction].
    + intros p [= <-]. eauto.
Qed.

Lemma SampleFromGrid_occupant_witness :
  SampleFromGrid map_to_list 7 island_5x5 = None.
Proof.
  apply (proj1 (SampleFromGrid_occupant map_to_list 7 island_5x5
                  (fun m => reflexivity (map_to_list m)))).
  reflexivity.
Defined.

(** X5.  [SampleFromIsland] never panics.  It fails with "invalid island
    ID" exactly for an index outside the island slice and with "island is
    empty" exactly for an island with no filled cell and no resident; in
    every other case it succeeds, with an occupant of the island's grid when
    the grid has a filled cell and with a resident of the island
    otherwise. *)
Theorem SampleFromIsland_spec
    (range_order : gmap string ptr -> list (string * ptr))
    (nanos rnd : nat) (db : ProgramDatabase) (islandID : Z) :
  (forall m, range_order m ≡ₚ map_to_list m) ->
  exists r,
    SampleFromIsland range_order nanos rnd db islandID = Some r /\
    (~ 0 <= islandID < len (db_islands db) ->
     r = Err ("invalid island ID: " +:+ itoa islandID)) /\
    (forall isl,
        index (db_islands db) islandID = Some isl ->
        (island_empty isl -> r = Err ("island " +:+ itoa islandID +:+ " is empty")) /\
        (~ island_empty isl ->
         exists p, r = Ok p /\
                   if decide (Grid_Cells (Island_Grid isl) = ∅)
                   then exists k, Island_Programs isl !! k = Some p
                   else exists key, Grid_Cells (Island_Grid isl) !! key = Some p)).
Proof.
  intros Hperm.
  destruct (SampleFromIsland_cases range_order Hperm nanos rnd db islandID)
    as [[Hbad ->]|(isl & Hisl & [[Hempty ->]|(p & -> & Hmem)])];
    eexists; (split; [reflexivity|]); split.
  - reflexivity.
  - intros isl Hisl. exfalso. apply Hbad. apply index_range. eauto.
  - intros Hbad. exfalso. apply Hbad. apply index_range. eauto.
  - intros isl' Hisl'. assert (isl' = isl) as -> by congruence.
    split; [reflexivity|contradiction].
  - intros Hbad. exfalso. apply Hbad. apply index_range. eauto.
  - intros isl' Hisl'. assert (isl' = isl) as -> by congruence.
    split; [|eauto].
    intros [Hc Hp]. rewrite decide_True in Hmem by exact Hc.
    destruct Hmem as [k Hk]. rewrite Hp in Hk. discriminate.
Qed.

Lemma SampleFromIsland_spec_witness :
  exists r, SampleFromIsland map_to_list 0 0 db_two 5 = Some r /\
            r = Err "invalid island ID: 5".
Proof.
  destruct (SampleFromIsland_spec map_to_list 0 0 db_two 5
              (fun m => reflexivity (map_to_list m))) as (r & Hr & Hbad & _).
  exists r. split; [exact Hr|]. apply Hbad. vm_compute. intros [_ H]. discriminate.
Defined.

(** X6.  [SampleMultiple] rejects a count that is not positive with the
    error "invalid sample count".  Every program of a successful sample is
    the occupant of a grid cell of some island, the cached best program of
    some island, or a program of the global index. *)
Theorem SampleMultiple_sources
    (range_order : gmap string ptr -> list (string * ptr))
    (clock rnd : nat -> nat) (fuel : nat) (db : ProgramDatabase) (count : Z) :
  (forall m, range_order m ≡ₚ map_to_list m) ->
  (count <= 0 ->
   SampleMultiple range_order clock rnd fuel db count
   = Some (Err ("invalid sample count: " +:+ itoa count))) /\
  (forall ps,
      SampleMultiple range_order clock rnd fuel db count = Some (Ok ps) ->
      0 < count /\
      forall p, p ∈ ps ->
        (exists isl, isl ∈ db_islands db /\
                     ((exists key, Grid_Cells (Island_Grid isl) !! key = Some p) \/
                      Island_BestProgram isl = Some p))
        \/ (exists id, db_programs db !! id = Some p)).
Proof.
  intros Hperm. unfold SampleMultiple.
  destruct (Z.leb_spec count 0) as [Hle|Hgt].
  - split; [reflexivity|]. intros ps H. discriminate.
  - split; [lia|]. intros ps H. split; [exact Hgt|]. intros p Hp.
    destruct (sampleIslands_loop range_order clock db _ []) as [ps1|] eqn:H1;
      [|discriminate].
    simpl in H.
    destruct (sampleGlobal_loop range_order rnd db count fuel 0 ps1) as [ps2|] eqn:H2;
      [|discriminate].
    injection H as <-.
    destruct (sampleGlobal_loop_source range_order Hperm _ _ _ _ _ _ _ H2 p Hp)
      as [Hin|Hsrc]; [|right; exact Hsrc].
    destruct (sampleIslands_loop_source range_order Hperm _ _ _ _ _ H1 p Hin)
      as [Hnil|Hsrc]; [inversion Hnil|left; exact Hsrc].
Qed.

Lemma SampleMultiple_sources_witness :
  SampleMultiple map_to_list (fun _ => 0%nat) (fun _ => 0%nat) 0 db_two 0
  = Some (Err "invalid sample count: 0").
Proof.
  apply (proj1 (SampleMultiple_sources map_to_list (fun _ => 0%nat) (fun _ => 0%nat)
                  0 db_two 0 (fun m => reflexivity (map_to_list m)))).
  lia.
Defined.

(** X7.  [samplePrograms] of the iteration worker returns a parent whenever
    the island under the cursor, or some island numbered below the worker's
    [NumIslands], holds a program; the parent is then a program of one of the
    store's islands, and the inspirations are exactly three as soon as the
    global index is not empty.  When none of these islands holds a program
    it fails with "failed to sample parent program". *)
Theorem samplePrograms_spec
    (range_order : gmap string ptr -> list (string * ptr))
    (numIslands : Z) (nanos0 rnd0 : nat) (nanosF rndF clock rnd : nat -> nat)
    (fuel : nat) (db : ProgramDatabase) :
  (forall m, range_order m ≡ₚ map_to_list m) ->
  cursor_ok db -> (3 <= fuel)%nat ->
  exists r,
    samplePrograms range_order numIslands nanos0 rnd0 nanosF rndF clock rnd fuel db
    = Some r /\
    (samplable db (GetCurrentIsland db) \/
     (exists i, 0 <= i < numIslands /\ samplable db i) ->
     exists parent inspirations isl,
       r = Ok (parent, inspirations) /\
       isl ∈ db_islands db /\ island_member isl parent /\
       (db_programs db <> ∅ -> len inspirations = 3)) /\
    (~ (samplable db (GetCurrentIsland db) \/
        exists i, 0 <= i < numIslands /\ samplable db i) ->
     exists msg, r = Err ("failed to sample parent program: " +:+ msg)).
Proof.
  intros Hperm Hcur Hfuel.
  destruct (SampleMultiple_spec range_order Hperm clock rnd fuel db 3)
    as (ps & Hps & Hfull & _); [lia|exact Hcur|simpl; lia|].
  assert (Hin : forall (id : Z) isl, index (db_islands db) id = Some isl ->
                                     isl ∈ db_islands db).
  { intros id isl H. unfold index in H. destruct (id <? 0); [discriminate|].
    eapply list_elem_of_lookup_2. exact H. }
  unfold samplePrograms.
  destruct (SampleFromIsland_outcome range_order Hperm nanos0 rnd0 db
              (GetCurrentIsland db))
    as [(Hs & p & isl & -> & Hisl & Hmem)|(Hn & msg & ->)]; simpl.
  - rewrite Hps. simpl. eexists. split; [reflexivity|]. split.
    + intros _. exists p, ps, isl. eauto.
    + intros Hnone. exfalso. apply Hnone. left. exact Hs.
  - destruct (samplePrograms_fallback_spec range_order Hperm nanosF rndF db
                (seq 0 (Z.to_nat numIslands)) msg)
      as [((j & Hj & Hs) & p & isl & k & -> & Hisl & Hmem)|(Hall & msg' & ->)]; simpl.
    + rewrite Hps. simpl. eexists. split; [reflexivity|]. split.
      * intros _. exists p, ps, isl. eauto.
      * intros Hnone. exfalso. apply Hnone. right.
        apply elem_of_seq in Hj. exists (Z.of_nat j). split; [lia|exact Hs].
    + eexists. split; [reflexivity|]. split; [|eauto].
      intros [Hs|(i & Hi & Hs)]; [contradiction|].
      exfalso. apply (Hall (Z.to_nat i)).
      * apply elem_of_seq. lia.
      * rewrite Z2Nat.id by lia. exact Hs.
Qed.

Lemma samplePrograms_spec_witness :
  exists r,
    samplePrograms map_to_list 2 0 0 (fun _ => 0%nat) (fun _ => 0%nat)
      (fun _ => 0%nat) (fun _ => 0%nat) 3 db_two = Some r.
Proof.
  destruct (samplePrograms_spec map_to_list 2 0 0 (fun _ => 0%nat) (fun _ => 0%nat)
              (fun _ => 0%nat) (fun _ => 0%nat) 3 db_two
              (fun m => reflexivity (map_to_list m))) as (r & Hr & _).
  - split; vm_compute; congruence.
  - lia.
  - exists r. exact Hr.
Defined.

(* ===================================================================== *)
(** * The island's best program *)
(* ===================================================================== *)

Section BestProgram.

Implicit Types (h : heap) (i : Island) (p q : ptr).

Lemma GetBestProgram_loop_spec h ps :
  forall i,
    (forall q, q ∈ ps -> is_Some (h !! q)) ->
    exists i',
      GetBestProgram_loop h i ps = Some i' /\
      Island_ID i' = Island_ID i /\
      Island_Programs i' = Island_Programs i /\
      Island_Grid i' = Island_Grid i /\
      Island_Generation i' = Island_Generation i /\
      Island_Migrated i' = Island_Migrated i /\
      Island_FeatureStats i' = Island_FeatureStats i /\
      (forall q prog, q ∈ ps -> h !! q = Some prog ->
                      (Island_BestScore i' <? Program_Score prog)%float = false) /\
      (i' = i \/
       exists q prog,
         q ∈ ps /\ h !! q = Some prog /\
         Island_BestProgram i' = Some q /\
         Island_BestScore i' = Program_Score prog /\
         Island_BestID i' = Program_ID prog /\
         (Island_BestScore i <? Island_BestScore i')%float = true).
Proof.
  induction ps as [|p rest IH]; intros i Halloc.
  - exists i. split; [reflexivity|]. repeat (split; [reflexivity|]).
    split; [intros q prog Hq; inversion Hq|left; reflexivity].
  - destruct (Halloc p) as [prog Hp]; [left|].
    cbn [GetBestProgram_loop]. rewrite Hp. simpl.
    set (i1 := if (Island_BestScore i <? Program_Score prog)%float
               then Island_with_Best p (Program_Score prog) (Program_ID prog) i
               else i).
    assert (Hi1 : (Island_BestScore i1 <? Program_Score prog)%float = false).
    { subst i1. destruct (Island_BestScore i <? Program_Score prog)%float eqn:E;
        [apply ltb_irrefl|exact E]. }
    assert (Hframe : Island_ID i1 = Island_ID i /\
                     Island_Programs i1 = Island_Programs i /\
                     Island_Grid i1 = Island_Grid i /\
                     Island_Generation i1 = Island_Generation i /\
                     Island_Migrated i1 = Island_Migrated i /\
                     Island_FeatureStats i1 = Island_FeatureStats i).
    { subst i1. destruct (Island_BestScore i <? Program_Score prog)%float;
        repeat split; reflexivity. }
    destruct Hframe as (F1 & F2 & F3 & F4 & F5 & F6).
    destruct (IH i1) as (i' & Hloop & G1 & G2 & G3 & G4 & G5 & G6 & Hbound & Hres).
    { intros q Hq. apply Halloc. right. exact Hq. }
    exists i'. split; [exact Hloop|].
    rewrite G1, G2, G3, G4, G5, G6. repeat (split; [assumption|]).
    split.
    + intros q qprog Hq Hqp. apply elem_of_cons in Hq as [->|Hq].
      * assert (qprog = prog) as -> by congruence.
        destruct Hres as [->|(q' & prog' & _ & _ & _ & _ & _ & Hraise)];
          [exact Hi1|].
        eapply ltb_raise; eassumption.
      * eapply Hbound; eassumption.
    + destruct (Island_BestScore i <? Program_Score prog)%float eqn:E.
      * right. subst i1.
        destruct Hres as [->|(q' & prog' & Hq' & Hp' & B1 & B2 & B3 & Hraise)].
        -- exists p, prog. split; [left|]. repeat (split; [assumption || reflexivity|]).
           exact E.
        -- exists q', prog'. split; [right; exact Hq'|].
           repeat (split; [assumption|]).
           eapply ltb_trans; [exact E|exact Hraise].
      * subst i1.
        destruct Hres as [->|(q' & prog' & Hq' & Hres)]; [left; reflexivity|].
        right. exists q', prog'. split; [right; exact Hq'|exact Hres].
Qed.

End BestProgram.

(** X8.  [GetBestProgram] on an island whose residents are allocated.  A
    cached best program is returned as it is and an island without programs
    yields nil, the island staying as it was.  Otherwise the residents are
    scanned: afterwards the island's best score is not below the score of
    any resident, and the returned program, if there is one, is a resident
    whose score and identifier are the island's best score and best
    identifier, above the best score the island had before; when no resident
    scores above that score the result is nil and the island is
    unchanged. *)
Theorem GetBestProgram_spec
    (range_order : gmap string ptr -> list (string * ptr))
    (h : heap) (i : Island) :
  (forall m, range_order m ≡ₚ map_to_list m) ->
  (forall k q, Island_Programs i !! k = Some q -> is_Some (h !! q)) ->
  exists i' r,
    GetBestProgram range_order h i = Some (i', r) /\
    r = Island_BestProgram i' /\
    (is_Some (Island_BestProgram i) \/ Island_Programs i = ∅ ->
     i' = i) /\
    (Island_BestProgram i = None ->
     Island_Programs i' = Island_Programs i /\
     Island_Grid i' = Island_Grid i /\
     (forall k q prog,
         Island_Programs i !! k = Some q -> h !! q = Some prog ->
         (Island_BestScore i' <? Program_Score prog)%float = false) /\
     match r with
     | Some q =>
         exists k prog,
           Island_Programs i !! k = Some q /\ h !! q = Some prog /\
           Island_BestScore i' = Program_Score prog /\
           Island_BestID i' = Program_ID prog /\
           (Island_BestScore i <? Program_Score prog)%float = true
     | None => i' = i
     end).
Proof.
  intros Hperm Halloc. unfold GetBestProgram.
  destruct (Island_BestProgram i) as [b|] eqn:Hbest.
  - rewrite bool_decide_eq_false_2 by discriminate. simpl.
    exists i, (Some b). split; [reflexivity|]. split; [symmetry; exact Hbest|].
    split; [reflexivity|discriminate].
  - rewrite bool_decide_eq_true_2 by reflexivity. simpl.
    destruct (Nat.ltb_spec 0 (size (Island_Programs i))) as [Hpos|Hzero].
    + destruct (GetBestProgram_loop_spec h (range_order (Island_Programs i)).*2 i)
        as (i' & Hloop & _ & F2 & F3 & _ & _ & _ & Hbound & Hres).
      { intros q Hq.
        destruct (range_order_elem range_order Hperm _ _ Hq) as [k Hk]. eauto. }
      rewrite Hloop. simpl.
      exists i', (Island_BestProgram i'). split; [reflexivity|]. split; [reflexivity|].
      split.
      * intros [[b Hb]|He]; [discriminate|].
        rewrite He, map_size_empty in Hpos. lia.
      * intros _. split; [exact F2|]. split; [exact F3|]. split.
        -- intros k q prog Hk Hq. apply (Hbound q prog); [|exact Hq].
           apply list_elem_of_fmap. exists (k, q). split; [reflexivity|].
           rewrite Hperm. apply elem_of_map_to_list. exact Hk.
        -- destruct Hres as [->|(q & prog & Hq & Hp & -> & B2 & B3 & Hraise)].
           ++ rewrite Hbest. reflexivity.
           ++ destruct (range_order_elem range_order Hperm _ _ Hq) as [k Hk].
              exists k, prog. split; [exact Hk|]. split; [exact Hp|].
              split; [exact B2|]. split; [exact B3|]. rewrite <- B2. exact Hraise.
    + exists i, None. split; [reflexivity|].
      split; [symmetry; exact Hbest|]. split; [reflexivity|].
      intros _. split; [reflexivity|]. split; [reflexivity|]. split; [|reflexivity].
      intros k q prog Hk. assert (Island_Programs i = ∅) as He
          by (apply map_size_empty_iff; lia).
      rewrite He in Hk. discriminate.
Qed.

Lemma GetBestProgram_spec_witness :
  exists i' r,
    GetBestProgram map_to_list heap_tests
      (Island_with_Programs
         (<["test1" := 1%positive]> (<["test2" := 2%positive]> ∅)) island_5x5)
    = Some (i', r) /\
    r = Island_BestProgram i'.
Proof.
  destruct (GetBestProgram_spec map_to_list heap_tests
              (Island_with_Programs
                 (<["test1" := 1%positive]> (<["test2" := 2%positive]> ∅)) island_5x5)
              (fun m => reflexivity (map_to_list m)))
    as (i' & r & H & Hr & _).
  - intros k q Hk. cbn [Island_Programs Island_with_Programs] in Hk.
    apply lookup_insert_Some in Hk as [[_ <-]|[_ Hk]]; [vm_compute; eauto|].
    apply lookup_insert_Some in Hk as [[_ <-]|[_ Hk]]; [vm_compute; eauto|].
    rewrite lookup_empty in Hk. discriminate.
  - eauto.
Defined.

(* ===================================================================== *)
(** * Migration: a proof rule for what the loops keep *)
(* ===================================================================== *)

Lemma moveProgram_inv i t (h : heap) (l : list Island) (m : Z) (p : ptr) h' l' m' :
  moveProgram i t (h, l, m) p = Some (h', l', m') ->
  exists prog A T T' b,
    h !! p = Some prog /\ l !! i = Some A /\
    <[i := Island_with_Programs (delete (Program_ID prog) (Island_Programs A)) A]> l !! t
    = Some T /\
    h' = <[p := Program_with_IslandID (Island_ID T) prog]> h /\
    AddToGrid h' (Island_with_Programs (<[Program_ID prog := p]> (Island_Programs T)) T) p
    = Some (T', b) /\
    l' = <[t := T']>
           (<[i := Island_with_Programs (delete (Program_ID prog) (Island_Programs A)) A]> l) /\
    m' = wrap64 (m + 1).
Proof.
  unfold moveProgram. intros H.
  destruct (h !! p) as [prog|] eqn:Hp; [|discriminate]. simpl in H.
  destruct (l !! i) as [A|] eqn:HA; [|discriminate]. simpl in H.
  destruct (<[i := _]> l !! t) as [T|] eqn:HT; [|discriminate]. simpl in H.
  destruct (AddToGrid _ _ p) as [[T' b]|] eqn:Hadd; [|discriminate]. simpl in H.
  injection H as <- <- <-.
  exists prog, A, T, T', b. repeat (split; [reflexivity || assumption|]). reflexivity.
Qed.

Section MigrationRule.

Variable range_order : gmap string ptr -> list (string * ptr).

(** A relation between the heap and islands before and after. *)
Variable R : heap -> list Island -> heap -> list Island -> Prop.

Hypothesis R_refl : forall h l, R h l h l.
Hypothesis R_trans :
  forall h1 l1 h2 l2 h3 l3, R h1 l1 h2 l2 -> R h2 l2 h3 l3 -> R h1 l1 h3 l3.
Hypothesis R_move :
  forall i t h l m p h' l' m',
    moveProgram i t (h, l, m) p = Some (h', l', m') -> R h l h' l'.
Hypothesis R_migrated :
  forall h l i A m,
    l !! i = Some A -> R h l h (<[i := Island_with_Migrated m A]> l).

Lemma movePrograms_rule i t ps :
  forall h l m h' l' m',
    movePrograms i t (h, l, m) ps = Some (h', l', m') -> R h l h' l'.
Proof.
  induction ps as [|p rest IH]; intros h l m h' l' m' H.
  - injection H as <- <- <-. apply R_refl.
  - rewrite movePrograms_cons in H.
    destruct (moveProgram i t (h, l, m) p) as [[[h1 l1] m1]|] eqn:Hmove; [|discriminate].
    simpl in H. eapply R_trans; [eapply R_move; exact Hmove|eapply IH; exact H].
Qed.

Lemma migrateIsland_rule rate h l m i h' l' m' :
  migrateIsland range_order rate (h, l, m) i = Some (h', l', m') -> R h l h' l'.
Proof.
  unfold migrateIsland. intros H.
  destruct (l !! i) as [A|] eqn:HA; [|discriminate]. simpl in H.
  destruct (selectCandidates h _ _) as [cs|]; [|discriminate]. simpl in H.
  destruct (movePrograms i _ (h, l, m) _) as [[[h1 l1] m1]|] eqn:Hmove; [|discriminate].
  simpl in H.
  destruct (l1 !! i) as [A1|] eqn:HA1; [|discriminate]. simpl in H.
  injection H as <- <- <-.
  eapply R_trans; [eapply movePrograms_rule; exact Hmove|].
  apply R_migrated. exact HA1.
Qed.

Lemma migrateIslands_rule rate idxs :
  forall h l m h' l' m',
    migrateIslands range_order rate (h, l, m) idxs = Some (h', l', m') -> R h l h' l'.
Proof.
  induction idxs as [|i rest IH]; intros h l m h' l' m' H.
  - injection H as <- <- <-. apply R_refl.
  - cbn [migrateIslands] in H.
    destruct (migrateIsland range_order rate (h, l, m) i) as [[[h1 l1] m1]|] eqn:Hm;
      [|discriminate].
    simpl in H. eapply R_trans; [eapply migrateIsland_rule; exact Hm|eapply IH; exact H].
Qed.

Lemma MigratePrograms_rule h db h' db' :
  MigratePrograms range_order h db = Some (h', db') ->
  R h (db_islands db) h' (db_islands db') /\
  db_config db' = db_config db /\
  db_programs db' = db_programs db /\
  db_globalBest db' = db_globalBest db /\
  db_globalBestScore db' = db_globalBestScore db /\
  db_currentIsland db' = db_currentIsland db /\
  db_lastIteration db' = db_lastIteration db /\
  db_stats db' = db_stats db /\
  db_checkpointDir db' = db_checkpointDir db /\
  (len (db_islands db) < 2 -> h' = h /\ db' = db) /\
  (2 <= len (db_islands db) ->
   exists first, db_islands db' !! 0%nat = Some first /\
                 db_lastMigrationGeneration db' = Island_Generation first).
Proof.
  unfold MigratePrograms. intros H.
  destruct (Z.ltb_spec (len (db_islands db)) 2) as [Hlt|Hge].
  - injection H as <- <-. split; [apply R_refl|].
    repeat (split; [reflexivity|]). split; [auto|lia].
  - destruct (migrateIslands range_order _ _ _) as [[[h1 l1] m1]|] eqn:Hm; [|discriminate].
    simpl in H.
    destruct (l1 !! 0%nat) as [first|] eqn:Hfirst; [|discriminate]. simpl in H.
    injection H as <- <-.
    split; [eapply migrateIslands_rule; exact Hm|].
    repeat (split; [reflexivity|]). split; [lia|].
    intros _. exists first. split; [exact Hfirst|reflexivity].
Qed.

End MigrationRule.

(* ===================================================================== *)
(** * Migration: the frame *)
(* ===================================================================== *)

Section MigrationFrame.

Lemma Program_with_IslandID_same (prog : Program) :
  Program_with_IslandID (Program_IslandID prog) prog = prog.
Proof. destruct prog; reflexivity. Qed.

Lemma migration_frame_refl h l : migration_frame h l h l.
Proof.
  split; [reflexivity|]. split.
  - intros p prog Hp. exists (Program_IslandID prog).
    rewrite Program_with_IslandID_same. exact Hp.
  - split; [auto|]. intros x A A' HA HA'.
    assert (A' = A) as -> by congruence. repeat (split; [reflexivity|]). auto.
Qed.

Lemma migration_frame_trans h1 l1 h2 l2 h3 l3 :
  migration_frame h1 l1 h2 l2 -> migration_frame h2 l2 h3 l3 ->
  migration_frame h1 l1 h3 l3.
Proof.
  intros (L1 & H1 & N1 & I1) (L2 & H2 & N2 & I2).
  split; [congruence|]. split; [|split; [auto|]].
  - intros p prog Hp. destruct (H1 p prog Hp) as [z Hz].
    destruct (H2 p _ Hz) as [z' Hz']. exists z'. exact Hz'.
  - intros x A A'' HA HA''.
    destruct (lookup_lt_is_Some_2 l2 x) as [A' HA'].
    { rewrite L1. eapply lookup_lt_Some. exact HA. }
    destruct (I1 x A A' HA HA') as (a1 & a2 & a3 & a4 & a5 & a6 & a7 & a8 & a9 & a10).
    destruct (I2 x A' A'' HA' HA'') as (b1 & b2 & b3 & b4 & b5 & b6 & b7 & b8 & b9 & b10).
    repeat (split; [congruence|]). auto.
Qed.

Lemma migration_frame_island_refl (A A' : Island) :
  Island_ID A' = Island_ID A ->
  Island_Generation A' = Island_Generation A ->
  Island_BestProgram A' = Island_BestProgram A ->
  Island_BestScore A' = Island_BestScore A ->
  Island_BestID A' = Island_BestID A ->
  Island_Grid A' = Island_Grid A ->
  Island_ID A' = Island_ID A /\
  Island_Generation A' = Island_Generation A /\
  Island_BestProgram A' = Island_BestProgram A /\
  Island_BestScore A' = Island_BestScore A /\
  Island_BestID A' = Island_BestID A /\
  Grid_Dimensions (Island_Grid A') = Grid_Dimensions (Island_Grid A) /\
  Grid_Resolution (Island_Grid A') = Grid_Resolution (Island_Grid A) /\
  Grid_Bounds (Island_Grid A') = Grid_Bounds (Island_Grid A) /\
  Grid_TotalCells (Island_Grid A') = Grid_TotalCells (Island_Grid A) /\
  (forall key, is_Some (Grid_Cells (Island_Grid A) !! key) ->
               is_Some (Grid_Cells (Island_Grid A') !! key)).
Proof.
  intros -> -> -> -> -> ->. repeat (split; [reflexivity|]). auto.
Qed.

Lemma migration_frame_move i t h l m p h' l' m' :
  moveProgram i t (h, l, m) p = Some (h', l', m') -> migration_frame h l h' l'.
Proof.
  intros H. apply moveProgram_inv in H
    as (prog & A & T & T' & b & Hp & HA & HT & -> & Hadd & -> & ->).
  split; [rewrite !length_insert; reflexivity|]. split; [|split].
  - intros q qprog Hq. destruct (decide (q = p)) as [->|Hne].
    + assert (qprog = prog) as -> by congruence.
      exists (Island_ID T). apply lookup_insert_eq.
    + exists (Program_IslandID qprog). rewrite lookup_insert_ne by congruence.
      rewrite Program_with_IslandID_same. exact Hq.
  - intros q Hq. rewrite lookup_insert_ne by congruence. exact Hq.
  - intros x X X' HX HX'.
    assert (Hmid : forall Y, <[i := Island_with_Programs
                                  (delete (Program_ID prog) (Island_Programs A)) A]> l !! x
                             = Some Y ->
                             Island_ID Y = Island_ID X /\
                             Island_Generation Y = Island_Generation X /\
                             Island_BestProgram Y = Island_BestProgram X /\
                             Island_BestScore Y = Island_BestScore X /\
                             Island_BestID Y = Island_BestID X /\
                             Island_Grid Y = Island_Grid X).
    { intros Y HY. destruct (decide (x = i)) as [->|Hne].
      - rewrite list_lookup_insert_eq in HY by (eapply lookup_lt_Some; exact HA).
        injection HY as <-. assert (X = A) as -> by congruence.
        repeat split; reflexivity.
      - rewrite list_lookup_insert_ne in HY by congruence.
        assert (Y = X) as -> by congruence. repeat split; reflexivity. }
    destruct (decide (x = t)) as [->|Hne].
    + rewrite list_lookup_insert_eq in HX'
        by (rewrite length_insert; eapply lookup_lt_Some; exact HX).
      injection HX' as <-.
      destruct (Hmid T HT) as (m1 & m2 & m3 & m4 & m5 & m6).
      apply AddToGrid_inv in Hadd as (prog' & _ & [[_ ->]|(_ & -> & _)]).
      * rewrite <- m1, <- m2, <- m3, <- m4, <- m5, <- m6.
        repeat (split; [reflexivity|]).
        intros key Hkey. rewrite placed_cells.
        cbn [Island_Grid Island_with_Programs].
        destruct (decide (calculateCellKey
                            (Island_with_Programs
                               (<[Program_ID prog := p]> (Island_Programs T)) T)
                            (Program_Features prog') = key)) as [<-|Hk].
        -- rewrite lookup_insert_eq. eauto.
        -- rewrite lookup_insert_ne by exact Hk. exact Hkey.
      * apply migration_frame_island_refl; assumption.
    + rewrite list_lookup_insert_ne in HX' by congruence.
      destruct (Hmid X' HX') as (m1 & m2 & m3 & m4 & m5 & m6).
      apply migration_frame_island_refl; assumption.
Qed.

Lemma migration_frame_migrated h l i A m :
  l !! i = Some A -> migration_frame h l h (<[i := Island_with_Migrated m A]> l).
Proof.
  intros HA. split; [apply length_insert|]. split; [|split; [auto|]].
  - intros p prog Hp. exists (Program_IslandID prog).
    rewrite Program_with_IslandID_same. exact Hp.
  - intros x X X' HX HX'. destruct (decide (x = i)) as [->|Hne].
    + rewrite list_lookup_insert_eq in HX' by (eapply lookup_lt_Some; exact HA).
      injection HX' as <-. assert (X = A) as -> by congruence.
      apply migration_frame_island_refl; reflexivity.
    + rewrite list_lookup_insert_ne in HX' by congruence.
      assert (X' = X) as -> by congruence.
      apply migration_frame_island_refl; reflexivity.
Qed.

Lemma Forall_counted_move i t h l m p h' l' m' :
  moveProgram i t (h, l, m) p = Some (h', l', m') ->
  Forall grid_counted l -> Forall grid_counted l'.
Proof.
  intros H Hall. apply moveProgram_inv in H
    as (prog & A & T & T' & b & Hp & HA & HT & -> & Hadd & -> & ->).
  assert (Hmid : Forall grid_counted
                   (<[i := Island_with_Programs
                             (delete (Program_ID prog) (Island_Programs A)) A]> l)).
  { apply Forall_insert; [exact Hall|].
    exact (proj1 (Forall_lookup _ _) Hall i A HA). }
  apply Forall_insert; [exact Hmid|].
  eapply AddToGrid_counted; [exact Hadd|].
  exact (proj1 (Forall_lookup _ _) Hmid t T HT).
Qed.

End MigrationFrame.

(* ===================================================================== *)
(** * [AddProgram]: the effect of one call *)
(* ===================================================================== *)

Section AddProgramMore.

Implicit Types (h : heap) (db : ProgramDatabase) (p q : ptr).

(** The identifier [AddProgram] stores the program under. *)
Lemma AddProgram_inv fresh h db p iteration h' db' :
  AddProgram fresh h db p iteration = Some (h', db') ->
  exists prog isl isl2 b,
    let id := if bool_decide (Program_ID prog = "") then fresh else Program_ID prog in
    let isl1 := Island_with_Programs (<[id := p]> (Island_Programs isl)) isl in
    let prog' :=
      Program_with_Features (ScaleFeatures isl1 (Program_Features prog))
        (if bool_decide (Program_ID prog = "") then Program_with_ID fresh prog else prog) in
    let newBest := (db_globalBestScore db <? Program_Score prog)%float in
    h !! p = Some prog /\
    index (db_islands db) (targetIsland_of db prog) = Some isl /\
    h' = <[p := prog']> h /\
    Program_ID prog' = id /\
    Program_Score prog' = Program_Score prog /\
    AddToGrid h' isl1 p = Some (isl2, b) /\
    db' = mkProgramDatabase (db_config db) (<[id := p]> (db_programs db))
            (<[Z.to_nat (targetIsland_of db prog) :=
                 if (Island_BestScore isl2 <? Program_Score prog)%float
                 then Island_with_Best p (Program_Score prog) id isl2
                 else isl2]> (db_islands db))
            (if newBest then Some p else db_globalBest db)
            (if newBest then Program_Score prog else db_globalBestScore db)
            (wrap64 (db_currentIsland db + 1) `rem` len (db_islands db))
            (db_lastIteration db) (db_lastMigrationGeneration db)
            (if (0 <? Program_Score prog)%float
             then mkEvolutionStats (wrap64 (TotalEvaluations (db_stats db) + 1))
                    (wrap64 (SuccessfulEvals (db_stats db) + 1))
                    (FailedEvals (db_stats db))
             else mkEvolutionStats (wrap64 (TotalEvaluations (db_stats db) + 1))
                    (SuccessfulEvals (db_stats db))
                    (wrap64 (FailedEvals (db_stats db) + 1)))
            (db_checkpointDir db).
Proof.
  unfold AddProgram. intros H.
  destruct (h !! p) as [prog|] eqn:Hp; [|discriminate]. simpl in H.
  assert (Htarget : forall x, targetIsland_of db (Program_with_ID x prog)
                              = targetIsland_of db prog) by reflexivity.
  destruct (bool_decide (Program_ID prog = "")) eqn:Hid.
  - rewrite Htarget in H.
    destruct (index (db_islands db) (targetIsland_of db prog)) as [isl|] eqn:Hisl;
      [|discriminate].
    simpl in H.
    destruct (AddToGrid _ _ p) as [[isl2 b]|] eqn:Hadd; [|discriminate]. simpl in H.
    injection H as <- <-.
    exists prog, isl, isl2, b. simpl. rewrite Hid.
    repeat (split; [reflexivity || assumption|]). reflexivity.
  - destruct (index (db_islands db) (targetIsland_of db prog)) as [isl|] eqn:Hisl;
      [|discriminate].
    simpl in H.
    destruct (AddToGrid _ _ p) as [[isl2 b]|] eqn:Hadd; [|discriminate]. simpl in H.
    injection H as <- <-.
    exists prog, isl, isl2, b. simpl. rewrite Hid.
    repeat (split; [reflexivity || assumption|]). reflexivity.
Qed.

Lemma AddProgram_is_Some fresh h db p iteration prog :
  h !! p = Some prog ->
  is_Some (index (db_islands db) (targetIsland_of db prog)) ->
  (forall i A, db_islands db !! i = Some A -> grid_allocated h A) ->
  is_Some (AddProgram fresh h db p iteration).
Proof.
  intros Hp [isl Hisl] Hgrid. unfold AddProgram. rewrite Hp. simpl.
  assert (Htarget : forall x, targetIsland_of db (Program_with_ID x prog)
                              = targetIsland_of db prog) by reflexivity.
  assert (Hga : grid_allocated h isl).
  { unfold index in Hisl. destruct (_ <? 0); [discriminate|]. eapply Hgrid. exact Hisl. }
  destruct (bool_decide (Program_ID prog = "")); rewrite ?Htarget, Hisl; simpl.
  all: match goal with
       | |- context [AddToGrid ?h' ?i' ?p'] =>
           destruct (AddToGrid_frame h' i' p') as (A' & b & -> & _)
       end; simpl; eauto.
  all: try (rewrite lookup_insert_eq; eauto).
  all: apply grid_allocated_insert; exact Hga.
Qed.

Lemma targetIsland_of_range db prog :
  0 <= db_currentIsland db < len (db_islands db) ->
  0 <= targetIsland_of db prog < len (db_islands db).
Proof.
  intros Hcur. unfold targetIsland_of.
  destruct (Z.leb_spec 0 (Program_IslandID prog)); simpl; [|exact Hcur].
  destruct (Z.ltb_spec (Program_IslandID prog) (len (db_islands db))); lia.
Qed.

End AddProgramMore.

Section BestBounds.

Implicit Types (h : heap) (db : ProgramDatabase) (p q : ptr).

Lemma global_best_bound_kept h db h' db' :
  (forall q prog', h' !! q = Some prog' ->
                   exists prog, h !! q = Some prog /\
                                Program_Score prog = Program_Score prog') ->
  (forall q, is_Some (h !! q) -> is_Some (h' !! q)) ->
  db_programs db' = db_programs db ->
  db_globalBest db' = db_globalBest db ->
  db_globalBestScore db' = db_globalBestScore db ->
  global_best_bound h db -> global_best_bound h' db'.
Proof.
  intros Hscores Hdom Hprogs Hbest Hscore [Hbound Hcache].
  unfold global_best_bound, GetProgram, GetGlobalBest in *.
  split.
  - intros id q prog' Hid Hq. rewrite Hprogs in Hid. rewrite Hscore.
    destruct (Hscores q prog' Hq) as (prog & Hprog & <-).
    eapply Hbound; eassumption.
  - intros q Hq. rewrite Hbest in Hq.
    destruct (Hcache q Hq) as (prog & Hprog & Hs).
    destruct (Hdom q) as [prog' Hprog']; [eauto|].
    exists prog'. split; [exact Hprog'|].
    destruct (Hscores q prog' Hprog') as (prog0 & Hprog0 & <-).
    rewrite Hscore. congruence.
Qed.

Lemma AddProgram_global_best_bound fresh h db p iteration h' db' :
  AddProgram fresh h db p iteration = Some (h', db') ->
  global_best_bound h db -> global_best_bound h' db'.
Proof.
  intros H [Hbound Hcache]. unfold GetProgram, GetGlobalBest in *.
  apply AddProgram_inv in H
    as (prog & isl & isl2 & b & Hp & Hisl & Hh & Hid & Hscore & Hadd & Hdb).
  set (id := if bool_decide (Program_ID prog = "") then fresh else Program_ID prog) in *.
  set (prog' := Program_with_Features _ _) in *.
  assert (Hold : forall q qprog', h' !! q = Some qprog' ->
                   exists qprog, h !! q = Some qprog /\
                                 Program_Score qprog = Program_Score qprog').
  { intros q qprog' Hq. subst h'. destruct (decide (q = p)) as [->|Hne].
    - rewrite lookup_insert_eq in Hq. injection Hq as <-. eauto.
    - rewrite lookup_insert_ne in Hq by congruence. eauto. }
  subst db'. unfold global_best_bound, GetProgram, GetGlobalBest.
  cbn [db_programs db_globalBest db_globalBestScore].
  split.
  - intros k q qprog' Hk Hq.
    destruct (Hold q qprog' Hq) as (qprog & Hqprog & <-).
    assert (Hcases : q = p \/ db_programs db !! k = Some q).
    { apply lookup_insert_Some in Hk as [[_ <-]|[_ Hk]]; auto. }
    destruct (db_globalBestScore db <? Program_Score prog)%float eqn:E.
    + destruct Hcases as [->|Hk'].
      * assert (qprog = prog) as -> by congruence. apply ltb_irrefl.
      * eapply ltb_raise; [exact E|]. eapply Hbound; eassumption.
    + destruct Hcases as [->|Hk'].
      * assert (qprog = prog) as -> by congruence. exact E.
      * eapply Hbound; eassumption.
  - intros q Hq.
    destruct (db_globalBestScore db <? Program_Score prog)%float eqn:E.
    + injection Hq as <-. exists prog'. subst h'.
      split; [apply lookup_insert_eq|exact Hscore].
    + destruct (Hcache q Hq) as (qprog & Hqprog & Hs).
      subst h'. destruct (decide (q = p)) as [->|Hne].
      * exists prog'. split; [apply lookup_insert_eq|]. congruence.
      * exists qprog. rewrite lookup_insert_ne by congruence. auto.
Qed.

Lemma AddProgram_keeps_island_bounds fresh h db p iteration h' db' :
  AddProgram fresh h db p iteration = Some (h', db') ->
  (forall isl, isl ∈ db_islands db -> island_best_bound h isl) ->
  forall isl, isl ∈ db_islands db' -> island_best_bound h' isl.
Proof.
  intros H Hall.
  apply AddProgram_inv in H
    as (prog & isl & isl2 & b & Hp & Hisl & Hh & Hid & Hscore & Hadd & Hdb).
  set (id := if bool_decide (Program_ID prog = "") then fresh else Program_ID prog) in *.
  set (prog' := Program_with_Features _ _) in *.
  assert (Hold : forall q qprog', h' !! q = Some qprog' ->
                   exists qprog, h !! q = Some qprog /\
                                 Program_Score qprog = Program_Score qprog').
  { intros q qprog' Hq. subst h'. destruct (decide (q = p)) as [->|Hne].
    - rewrite lookup_insert_eq in Hq. injection Hq as <-. eauto.
    - rewrite lookup_insert_ne in Hq by congruence. eauto. }
  assert (Hin : isl ∈ db_islands db).
  { unfold index in Hisl. destruct (_ <? 0); [discriminate|].
    eapply list_elem_of_lookup_2. exact Hisl. }
  destruct (AddToGrid_Some_frame _ _ _ _ _ Hadd) as (Hprogs & _ & _ & _ & Hbs & _).
  cbn [Island_Programs Island_BestScore Island_with_Programs] in Hprogs, Hbs.
  subst db'. cbn [db_islands]. intros X HX.
  apply list_elem_of_lookup in HX as [x HX].
  destruct (decide (x = Z.to_nat (targetIsland_of db prog))) as [->|Hne].
  - rewrite list_lookup_insert_eq in HX.
    2:{ unfold index in Hisl. destruct (_ <? 0); [discriminate|].
        eapply lookup_lt_Some. exact Hisl. }
    injection HX as <-.
    intros k q qprog' Hk Hq.
    destruct (Hold q qprog' Hq) as (qprog & Hqprog & <-).
    assert (Hcases : q = p \/ Island_Programs isl !! k = Some q).
    { destruct (Island_BestScore isl2 <? Program_Score prog)%float;
        cbn [Island_Programs Island_with_Best] in Hk; rewrite Hprogs in Hk;
        apply lookup_insert_Some in Hk as [[_ <-]|[_ Hk]]; auto. }
    destruct (Island_BestScore isl2 <? Program_Score prog)%float eqn:E;
      cbn [Island_BestScore Island_with_Best].
    + destruct Hcases as [->|Hk'].
      * assert (qprog = prog) as -> by congruence. apply ltb_irrefl.
      * eapply ltb_raise; [exact E|]. rewrite Hbs. eapply (Hall isl Hin); eassumption.
    + destruct Hcases as [->|Hk'].
      * assert (qprog = prog) as -> by congruence. exact E.
      * rewrite Hbs. eapply (Hall isl Hin); eassumption.
  - rewrite list_lookup_insert_ne in HX by congruence.
    intros k q qprog' Hk Hq.
    destruct (Hold q qprog' Hq) as (qprog & Hqprog & <-).
    eapply (Hall X); [eapply list_elem_of_lookup_2; exact HX|exact Hk|exact Hqprog].
Qed.

Lemma New_islands config dir db isl :
  New config dir = Some db -> isl ∈ db_islands db ->
  exists id, isl = NewIsland id config.
Proof.
  unfold New. destruct (_ <? 0); [discriminate|]. intros [= <-].
  cbn [db_islands]. intros (n & -> & _)%list_elem_of_fmap. eauto.
Qed.

Lemma AddProgram_counted fresh h db p iteration h' db' :
  AddProgram fresh h db p iteration = Some (h', db') ->
  Forall grid_counted (db_islands db) -> Forall grid_counted (db_islands db').
Proof.
  intros H Hall.
  apply AddProgram_inv in H
    as (prog & isl & isl2 & b & Hp & Hisl & Hh & Hid & Hscore & Hadd & Hdb).
  subst db'. cbn [db_islands]. apply Forall_insert; [exact Hall|].
  assert (Hc : grid_counted isl2).
  { eapply AddToGrid_counted; [exact Hadd|].
    unfold index in Hisl. destruct (_ <? 0); [discriminate|].
    exact (proj1 (Forall_lookup _ _) Hall _ _ Hisl). }
  destruct (_ <? _)%float; exact Hc.
Qed.

Lemma AddProgram_stats fresh h db p iteration h' db' :
  AddProgram fresh h db p iteration = Some (h', db') ->
  stats_consistent (db_stats db) ->
  TotalEvaluations (db_stats db) < max_int64 ->
  stats_consistent (db_stats db') /\
  TotalEvaluations (db_stats db') = TotalEvaluations (db_stats db) + 1 /\
  SuccessfulEvals (db_stats db') = SuccessfulEvals (db_stats db) + successes h [p] /\
  FailedEvals (db_stats db') = FailedEvals (db_stats db) + (1 - successes h [p]) /\
  (forall ps, successes h' ps = successes h ps).
Proof.
  intros H (Hs & Hf & Ht) Hmax.
  apply AddProgram_inv in H
    as (prog & isl & isl2 & b & Hp & Hisl & Hh & Hid & Hscore & Hadd & Hdb).
  assert (Hkeep : forall ps, successes h' ps = successes h ps).
  { intros ps. induction ps as [|q ps IH]; [reflexivity|].
    cbn [successes]. rewrite IH. f_equal. subst h'.
    destruct (decide (q = p)) as [->|Hne].
    - rewrite lookup_insert_eq, Hp, Hscore. reflexivity.
    - rewrite lookup_insert_ne by congruence. reflexivity. }
  subst db'. cbn [db_stats successes]. rewrite Hp. unfold stats_consistent.
  destruct (0 <? Program_Score prog)%float;
    cbn [TotalEvaluations SuccessfulEvals FailedEvals];
    rewrite !wrap64_small by (unfold min_int64, max_int64 in *; lia);
    repeat split; try lia; exact Hkeep.
Qed.

End BestBounds.

(* ===================================================================== *)
(** * The store: further properties *)
(* ===================================================================== *)

(** X9.  On a store whose cursor is in range and whose grid occupants are
    allocated, [AddProgram] of an allocated program always returns.  The
    program gets the fresh identifier only when it has none, keeps its code,
    score and island id, and gets a feature vector of the same length;
    no other program of the heap changes.  Afterwards [GetProgram] of the
    identifier gives the program and every other identifier gives what it
    gave before; the program is resident on the target island, the cell its
    features address on that island is filled, and the other islands are as
    they were. *)
Theorem AddProgram_stores (fresh : string) (h : heap) (db : ProgramDatabase)
    (p : ptr) (iteration : Z) (prog : Program) :
  h !! p = Some prog ->
  0 <= db_currentIsland db < len (db_islands db) ->
  (forall i A, db_islands db !! i = Some A -> grid_allocated h A) ->
  let id := if bool_decide (Program_ID prog = "") then fresh else Program_ID prog in
  exists h' db' prog' isl',
    AddProgram fresh h db p iteration = Some (h', db') /\
    h' !! p = Some prog' /\
    (forall q, q <> p -> h' !! q = h !! q) /\
    Program_ID prog' = id /\
    Program_Code prog' = Program_Code prog /\
    Program_Score prog' = Program_Score prog /\
    Program_IslandID prog' = Program_IslandID prog /\
    length (Program_Features prog') = length (Program_Features prog) /\
    GetProgram db' id = Some p /\
    (forall id', id' <> id -> GetProgram db' id' = GetProgram db id') /\
    index (db_islands db') (targetIsland_of db prog) = Some isl' /\
    Island_Programs isl' !! id = Some p /\
    is_Some (GetFromGrid isl' (Program_Features prog')) /\
    (forall x, x <> Z.to_nat (targetIsland_of db prog) ->
               db_islands db' !! x = db_islands db !! x).
Proof.
  intros Hp Hcur Hgrid id.
  pose proof (targetIsland_of_range db prog Hcur) as Hrange.
  destruct (AddProgram_is_Some fresh h db p iteration prog Hp) as [[h' db'] H].
  { apply index_range. exact Hrange. }
  { exact Hgrid. }
  pose proof (AddProgram_inv _ _ _ _ _ _ _ H)
    as (prog0 & isl & isl2 & b & Hp0 & Hisl & Hh & Hid & Hscore & Hadd & Hdb).
  assert (prog0 = prog) as -> by congruence.
  fold id in Hid, Hh, Hadd, Hdb.
  set (isl1 := Island_with_Programs (<[id := p]> (Island_Programs isl)) isl) in *.
  set (prog' := Program_with_Features (ScaleFeatures isl1 (Program_Features prog))
                  (if bool_decide (Program_ID prog = "")
                   then Program_with_ID fresh prog else prog)) in *.
  set (isl' := if (Island_BestScore isl2 <? Program_Score prog)%float
               then Island_with_Best p (Program_Score prog) id isl2 else isl2) in *.
  exists h', db', prog', isl'.
  split; [exact H|]. subst h'.
  split; [apply lookup_insert_eq|].
  split; [intros q Hq; apply lookup_insert_ne; congruence|].
  split; [exact Hid|].
  split; [subst prog'; destruct (bool_decide _); reflexivity|].
  split; [exact Hscore|].
  split; [subst prog'; destruct (bool_decide _); reflexivity|].
  split.
  { subst prog'. cbn [Program_Features Program_with_Features]. unfold ScaleFeatures.
    rewrite ScaleFeatures_loop_length. apply length_replicate. }
  subst db'. unfold GetProgram. cbn [db_programs db_islands].
  split; [apply lookup_insert_eq|].
  split; [intros id' Hne; apply lookup_insert_ne; congruence|].
  assert (Hgrid' : Island_Grid isl' = Island_Grid isl2).
  { subst isl'. destruct (_ <? _)%float; reflexivity. }
  assert (Hprogs' : Island_Programs isl' = Island_Programs isl2).
  { subst isl'. destruct (_ <? _)%float; reflexivity. }
  split.
  { unfold index in *. destruct (Z.ltb_spec (targetIsland_of db prog) 0); [lia|].
    apply list_lookup_insert_eq. eapply lookup_lt_Some. exact Hisl. }
  split.
  { rewrite Hprogs'.
    destruct (AddToGrid_Some_frame _ _ _ _ _ Hadd) as (-> & _).
    apply lookup_insert_eq. }
  split.
  { assert (Hkey : forall fs, calculateCellKey isl' fs = calculateCellKey isl2 fs).
    { intros fs. apply calculateCellKey_ext; rewrite Hgrid'; reflexivity. }
    unfold GetFromGrid. rewrite Hkey, Hgrid'.
    apply AddToGrid_inv in Hadd as (prog0 & Hp0' & Hcase).
    rewrite lookup_insert_eq in Hp0'. injection Hp0' as <-.
    destruct Hcase as [[_ ->]|(_ & -> & Hocc)].
    - pose proof (placed_occupant isl1 prog' p) as Hplaced.
      unfold occupant in Hplaced. rewrite Hplaced. eauto.
    - exact Hocc. }
  intros x Hx. apply list_lookup_insert_ne. congruence.
Qed.

Lemma AddProgram_stores_witness :
  exists h' db',
    AddProgram "fresh" heap_two db_two 1%positive 0 = Some (h', db') /\
    GetProgram db' "a" = Some 1%positive.
Proof.
  destruct (AddProgram_stores "fresh" heap_two db_two 1%positive 0
              (program_scored "a" 0) eq_refl)
    as (h' & db' & prog' & isl' & H & _ & _ & _ & _ & _ & _ & _ & Hget & _).
  - split; vm_compute; congruence.
  - intros i A HA. destruct db_two_store_ok as (_ & Hg & _). eapply Hg. exact HA.
  - exists h', db'. split; [exact H|exact Hget].
Defined.

(** X10.  The global best score is an upper bound that the store keeps: in
    a store made by [New], and after every [AddProgram] and every
    [MigratePrograms] on a store where it held, no program [GetProgram] can
    return scores above the global best score, and the program
    [GetGlobalBest] returns, if any, has exactly that score. *)
Theorem global_best_bound_invariant :
  (forall config dir db h, New config dir = Some db -> global_best_bound h db) /\
  (forall fresh h db p iteration h' db',
      AddProgram fresh h db p iteration = Some (h', db') ->
      global_best_bound h db -> global_best_bound h' db') /\
  (forall range_order h db h' db',
      MigratePrograms range_order h db = Some (h', db') ->
      global_best_bound h db -> global_best_bound h' db').
Proof.
  split; [|split].
  - intros config dir db h. unfold New. destruct (_ <? 0); [discriminate|].
    intros [= <-]. split.
    + intros id q prog Hid. unfold GetProgram in Hid. cbn in Hid.
      rewrite lookup_empty in Hid. discriminate.
    + intros q Hq. discriminate.
  - apply AddProgram_global_best_bound.
  - intros range_order h db h' db' H.
    destruct (MigratePrograms_rule range_order migration_frame migration_frame_refl
                migration_frame_trans migration_frame_move migration_frame_migrated
                h db h' db' H)
      as ((_ & Hheap & Hnone & _) & _ & Hprogs & Hbest & Hscore & _).
    apply global_best_bound_kept; try assumption.
    + intros q prog' Hq. destruct (h !! q) as [prog|] eqn:Hprog.
      * destruct (Hheap q prog Hprog) as [z Hz]. exists prog. split; [reflexivity|].
        rewrite Hz in Hq. injection Hq as <-. reflexivity.
      * rewrite (Hnone q Hprog) in Hq. discriminate.
    + intros q [prog Hprog]. destruct (Hheap q prog Hprog) as [z Hz]. eauto.
Qed.

(** X11.  Each island's best score is an upper bound for the island's
    residents as long as programs only arrive through [AddProgram]: it
    holds on the islands [New] makes, and [AddProgram] keeps it on every
    island. *)
Theorem AddProgram_island_best_bound :
  (forall config dir db h isl,
      New config dir = Some db -> isl ∈ db_islands db -> island_best_bound h isl) /\
  (forall fresh h db p iteration h' db',
      AddProgram fresh h db p iteration = Some (h', db') ->
      (forall isl, isl ∈ db_islands db -> island_best_bound h isl) ->
      forall isl, isl ∈ db_islands db' -> island_best_bound h' isl).
Proof.
  split.
  - intros config dir db h isl Hnew Hin.
    destruct (New_islands config dir db isl Hnew Hin) as [id ->].
    intros k q prog Hk. cbn in Hk. rewrite lookup_empty in Hk. discriminate.
  - apply AddProgram_keeps_island_bounds.
Qed.

(** X12.  The filled-cell counter of a grid always agrees with the number
    of cells the grid holds (as an int64): it does on a new island, and
    [AddToGrid], [AddProgram] and [MigratePrograms] keep it so. *)
Theorem FilledCells_counts_cells :
  (forall id config, grid_counted (NewIsland id config)) /\
  (forall h i p i' b,
      AddToGrid h i p = Some (i', b) -> grid_counted i -> grid_counted i') /\
  (forall fresh h db p iteration h' db',
      AddProgram fresh h db p iteration = Some (h', db') ->
      Forall grid_counted (db_islands db) -> Forall grid_counted (db_islands db')) /\
  (forall range_order h db h' db',
      MigratePrograms range_order h db = Some (h', db') ->
      Forall grid_counted (db_islands db) -> Forall grid_counted (db_islands db')).
Proof.
  split; [exact NewIsland_counted|].
  split; [exact AddToGrid_counted|].
  split; [exact AddProgram_counted|].
  intros range_order h db h' db' H.
  refine (proj1 (MigratePrograms_rule range_order
                   (fun _ l _ l' => Forall grid_counted l -> Forall grid_counted l')
                   _ _ _ _ h db h' db' H)).
  - auto.
  - auto.
  - intros i t h0 l m p h1 l1 m1. apply Forall_counted_move.
  - intros h0 l i A m HA Hall. apply Forall_insert; [exact Hall|].
    exact (proj1 (Forall_lookup _ _) Hall i A HA).
Qed.

(** X13.  [AddProgram] counts every call once, as a successful evaluation
    when the program's score is above 0 and as a failed one otherwise.
    After any run of calls on a store whose counters add up (and with the
    total staying within int64): [TotalEvaluations] has grown by the number
    of calls, [SuccessfulEvals] by the number of added programs whose score
    is above 0, and [FailedEvals] by the number of the others, so that the
    counters still add up. *)
Theorem AddPrograms_counts (fresh : nat -> string) (ps : list ptr) :
  forall (k : nat) (h : heap) (db : ProgramDatabase) h' db',
    AddPrograms fresh k h db ps = Some (h', db') ->
    stats_consistent (db_stats db) ->
    TotalEvaluations (db_stats db) + len ps <= max_int64 ->
    stats_consistent (db_stats db') /\
    TotalEvaluations (db_stats db') = TotalEvaluations (db_stats db) + len ps /\
    SuccessfulEvals (db_stats db') = SuccessfulEvals (db_stats db) + successes h ps /\
    FailedEvals (db_stats db')
    = FailedEvals (db_stats db) + (len ps - successes h ps) /\
    (forall p prog, ps = [p] -> h !! p = Some prog ->
       ((0 <? Program_Score prog)%float = true ->
        SuccessfulEvals (db_stats db') = SuccessfulEvals (db_stats db) + 1 /\
        FailedEvals (db_stats db') = FailedEvals (db_stats db)) /\
       ((0 <? Program_Score prog)%float = false ->
        SuccessfulEvals (db_stats db') = SuccessfulEvals (db_stats db) /\
        FailedEvals (db_stats db') = FailedEvals (db_stats db) + 1)).
Proof.
  assert (Hmain : forall (k : nat) (h : heap) (db : ProgramDatabase) h' db',
             AddPrograms fresh k h db ps = Some (h', db') ->
             stats_consistent (db_stats db) ->
             TotalEvaluations (db_stats db) + len ps <= max_int64 ->
             stats_consistent (db_stats db') /\
             TotalEvaluations (db_stats db') = TotalEvaluations (db_stats db) + len ps /\
             SuccessfulEvals (db_stats db')
             = SuccessfulEvals (db_stats db) + successes h ps /\
             FailedEvals (db_stats db')
             = FailedEvals (db_stats db) + (len ps - successes h ps)).
  { induction ps as [|p rest IH]; intros k h db h' db' H Hc Hmax.
    - injection H as <- <-. split; [exact Hc|]. unfold len. simpl. lia.
    - rewrite AddPrograms_cons in H.
      destruct (AddProgram (fresh k) h db p (Z.of_nat k)) as [[h1 db1]|] eqn:Hadd;
        [|discriminate].
      simpl in H. unfold len in *. rewrite length_cons in *.
      destruct (AddProgram_stats _ _ _ _ _ _ _ Hadd Hc)
        as (Hc1 & Ht1 & Hs1 & Hf1 & Hkeep); [lia|].
      destruct (IH _ _ _ _ _ H Hc1) as (Hc2 & Ht2 & Hs2 & Hf2); [lia|].
      rewrite Hkeep in Hs2, Hf2.
      assert (Hsplit : successes h (p :: rest) = successes h [p] + successes h rest).
      { cbn [successes]. lia. }
      split; [exact Hc2|]. rewrite Hsplit. lia. }
  intros k h db h' db' H Hc Hmax.
  destruct (Hmain k h db h' db' H Hc Hmax) as (Hc' & Ht & Hs & Hf).
  repeat (split; [assumption|]).
  intros p prog -> Hp. cbn [successes] in Hs, Hf. rewrite Hp in Hs, Hf.
  unfold len in Hf. simpl in Hf.
  split; intros Hscore; rewrite Hscore in Hs, Hf; lia.
Qed.

Lemma AddPrograms_counts_witness :
  exists h' db',
    AddPrograms no_fresh 0 heap_two db_two [1%positive; 2%positive] = Some (h', db') /\
    TotalEvaluations (db_stats db') = 2 /\
    SuccessfulEvals (db_stats db') = 2 /\
    FailedEvals (db_stats db') = 0.
Proof.
  destruct (AddPrograms no_fresh 0 heap_two db_two [1%positive; 2%positive])
    as [[h' db']|] eqn:H; [|vm_compute in H; discriminate].
  exists h', db'. split; [reflexivity|].
  destruct (AddPrograms_counts no_fresh [1%positive; 2%positive] 0 heap_two db_two
              h' db' H) as (_ & Ht & Hs & Hf & _).
  - vm_compute. repeat split; congruence.
  - vm_compute. discriminate.
  - split; [exact Ht|]. split; [exact Hs|exact Hf].
Defined.

(** X14.  What [MigratePrograms] leaves alone, for every order of map
    iteration: a program changes in its island id at most and none is
    allocated or freed; every island keeps its id, generation counter, best
    program, best score, best id and grid layout, and none of its filled
    cells becomes empty; the configuration, the global index, the global
    best, the cursor and the counters of the store are unchanged.  With
    fewer than two islands nothing changes at all; otherwise the generation
    of island 0 is recorded as the generation of the last migration. *)
Theorem MigratePrograms_frame
    (range_order : gmap string ptr -> list (string * ptr))
    (h : heap) (db : ProgramDatabase) h' db' :
  MigratePrograms range_order h db = Some (h', db') ->
  migration_frame h (db_islands db) h' (db_islands db') /\
  db_config db' = db_config db /\
  db_programs db' = db_programs db /\
  GetGlobalBest db' = GetGlobalBest db /\
  db_globalBestScore db' = db_globalBestScore db /\
  GetCurrentIsland db' = GetCurrentIsland db /\
  db_stats db' = db_stats db /\
  (len (db_islands db) < 2 -> h' = h /\ db' = db) /\
  (2 <= len (db_islands db) ->
   exists first, db_islands db !! 0%nat = Some first /\
                 db_lastMigrationGeneration db' = Island_Generation first).
Proof.
  intros H.
  destruct (MigratePrograms_rule range_order migration_frame migration_frame_refl
              migration_frame_trans migration_frame_move migration_frame_migrated
              h db h' db' H)
    as (Hframe & Hc & Hp & Hb & Hs & Hcur & _ & Hst & _ & Hsmall & Hbig).
  split; [exact Hframe|]. repeat (split; [assumption|]).
  intros Hlen. destruct (Hbig Hlen) as (first' & Hfirst' & ->).
  destruct Hframe as (Hl & _ & _ & Hisl).
  destruct (lookup_lt_is_Some_2 (db_islands db) 0) as [first Hfirst].
  { unfold len in Hlen. lia. }
  exists first. split; [exact Hfirst|].
  destruct (Hisl 0%nat first first' Hfirst Hfirst') as (_ & -> & _). reflexivity.
Qed.

Lemma MigratePrograms_frame_witness :
  exists h' db',
    MigratePrograms map_to_list heap_two db_two = Some (h', db') /\
    db_lastMigrationGeneration db' = 0.
Proof.
  destruct (MigratePrograms map_to_list heap_two db_two) as [[h' db']|] eqn:H;
    [|vm_compute in H; discriminate].
  exists h', db'. split; [reflexivity|].
  destruct (MigratePrograms_frame map_to_list heap_two db_two h' db' H)
    as (_ & _ & _ & _ & _ & _ & _ & _ & Hbig).
  destruct Hbig as (first & Hfirst & ->); [vm_compute; discriminate|].
  injection Hfirst as <-. reflexivity.
Defined.

(* ===================================================================== *)
(** * Generations and the migration schedule *)
(* ===================================================================== *)

Section Generations.

Lemma UpdateGeneration_first db first :
  db_islands db !! 0%nat = Some first ->
  UpdateGeneration db
  = Some (db_with_islands (IncrementGeneration <$> db_islands db)
            (db_lastMigrationGeneration db) db,
          MigrationInterval (db_config db)
            <=? wrap64 (wrap64 (Island_Generation first + 1)
                        - db_lastMigrationGeneration db)).
Proof.
  intros Hfirst. unfold UpdateGeneration, index.
  change (0 <? 0) with false. cbv iota. change (Z.to_nat 0) with 0%nat.
  rewrite list_lookup_fmap, Hfirst. reflexivity.
Qed.

Lemma UpdateGenerations_spec k :
  forall db first,
    db_islands db !! 0%nat = Some first ->
    min_int64 <= Island_Generation first ->
    Island_Generation first + Z.of_nat k <= max_int64 ->
    min_int64 <= Island_Generation first + 1 - db_lastMigrationGeneration db ->
    Island_Generation first + Z.of_nat k - db_lastMigrationGeneration db <= max_int64 ->
    exists db' first',
      UpdateGenerations k db
      = Some (db',
              (fun j : nat =>
                 MigrationInterval (db_config db)
                   <=? Island_Generation first + Z.of_nat j + 1
                       - db_lastMigrationGeneration db) <$> seq 0 k) /\
      db_islands db' !! 0%nat = Some first' /\
      Island_Generation first' = Island_Generation first + Z.of_nat k /\
      length (db_islands db') = length (db_islands db).
Proof.
  induction k as [|k IH]; intros db first Hfirst Hlo Hhi Hdlo Hdhi.
  - exists db, first. split; [reflexivity|]. split; [exact Hfirst|]. split; [lia|reflexivity].
  - cbn [UpdateGenerations]. rewrite (UpdateGeneration_first db first Hfirst). simpl.
    set (db1 := db_with_islands (IncrementGeneration <$> db_islands db)
                  (db_lastMigrationGeneration db) db).
    assert (Hg : wrap64 (Island_Generation first + 1) = Island_Generation first + 1)
      by (apply wrap64_small; unfold min_int64, max_int64 in *; lia).
    destruct (IH db1 (IncrementGeneration first)) as (db' & first' & Hrun & Hf' & Hgen & Hlen).
    { subst db1. cbn [db_islands db_with_islands].
      rewrite list_lookup_fmap, Hfirst. reflexivity. }
    { cbn. rewrite Hg. unfold min_int64 in *. lia. }
    { cbn. rewrite Hg. lia. }
    { cbn. rewrite Hg. unfold min_int64 in *. lia. }
    { cbn. rewrite Hg. lia. }
    rewrite Hrun. simpl. exists db', first'.
    split.
    + f_equal. f_equal. f_equal.
      * rewrite Hg, wrap64_small by (unfold min_int64, max_int64 in *; lia).
        f_equal. lia.
      * rewrite <- fmap_S_seq, <- list_fmap_compose. apply list_fmap_ext.
        intros _ j _. simpl. cbn [Island_Generation IncrementGeneration
                                    Island_with_Generation].
        rewrite Hg. f_equal. lia.
    + split; [exact Hf'|]. split.
      * rewrite Hgen. cbn. rewrite Hg. lia.
      * rewrite Hlen. subst db1. cbn. apply length_fmap.
Qed.

End Generations.

(** X15.  The migration schedule.  [UpdateGeneration] panics on a store
    without islands.  After a [MigratePrograms] on a store with at least
    two islands, and as long as no other migration has run, the [j]-th call
    of [UpdateGeneration] (counting from 1) starts a migration exactly when
    [j] has reached the configured [MigrationInterval]; the generation of
    island 0 is assumed not to overflow. *)
Theorem UpdateGeneration_cadence
    (range_order : gmap string ptr -> list (string * ptr))
    (h : heap) (db : ProgramDatabase) h1 db1 (first : Island) (k : nat) :
  MigratePrograms range_order h db = Some (h1, db1) ->
  2 <= len (db_islands db) ->
  db_islands db !! 0%nat = Some first ->
  0 <= Island_Generation first ->
  Island_Generation first + Z.of_nat k <= max_int64 ->
  (forall db0, db_islands db0 = [] -> UpdateGeneration db0 = None) /\
  exists db2 flags,
    UpdateGenerations k db1 = Some (db2, flags) /\
    length flags = k /\
    forall j, (j < k)%nat ->
              flags !! j = Some (MigrationInterval (db_config db) <=? Z.of_nat j + 1).
Proof.
  intros H Hlen Hfirst Hlo Hhi.
  split.
  { intros db0 H0. unfold UpdateGeneration. rewrite H0. reflexivity. }
  destruct (MigratePrograms_rule range_order migration_frame migration_frame_refl
              migration_frame_trans migration_frame_move migration_frame_migrated
              h db h1 db1 H)
    as ((Hl & _ & _ & Hisl) & Hc & _ & _ & _ & _ & _ & _ & _ & _ & Hbig).
  destruct (Hbig Hlen) as (first1 & Hfirst1 & Hlast).
  destruct (Hisl 0%nat first first1 Hfirst Hfirst1) as (_ & Hgen & _).
  destruct (UpdateGenerations_spec k db1 first1 Hfirst1)
    as (db2 & first2 & Hrun & _); rewrite ?Hlast, ?Hgen;
    try (unfold min_int64, max_int64 in *; lia).
  eexists db2, _. split; [exact Hrun|].
  split; [rewrite length_fmap; apply length_seq|].
  intros j Hj. rewrite list_lookup_fmap, lookup_seq_lt by exact Hj. simpl.
  rewrite Hlast, Hgen, Hc. f_equal. f_equal. lia.
Qed.

Lemma UpdateGeneration_cadence_witness :
  exists h1 db1 db2 flags,
    MigratePrograms map_to_list heap_two db_two = Some (h1, db1) /\
    UpdateGenerations 2 db1 = Some (db2, flags) /\
    flags !! 0%nat = Some true.
Proof.
  destruct (MigratePrograms map_to_list heap_two db_two) as [[h1 db1]|] eqn:H;
    [|vm_compute in H; discriminate].
  destruct (UpdateGeneration_cadence map_to_list heap_two db_two h1 db1
              (Island_with_Programs (<["a" := 1%positive]> ∅)
                 (NewIsland 0 config_two_islands)) 2 H)
    as (_ & db2 & flags & Hrun & _ & Hflags).
  - vm_compute. discriminate.
  - reflexivity.
  - vm_compute. discriminate.
  - vm_compute. discriminate.
  - exists h1, db1, db2, flags. split; [reflexivity|]. split; [exact Hrun|].
    rewrite (Hflags 0%nat) by lia. reflexivity.
Defined.

(* ===================================================================== *)
(** * The cascade evaluator: where it stops *)
(* ===================================================================== *)

Section CascadeStops.

Variable Sscanf_f : string -> option float.
Variable Sprintf_3f : float -> string.
Variable Duration_String : Z -> string.
Variable exec : CascadeStage -> Z -> StageRun.

(** Running through a prefix of stages that all complete, no critical one
    missing its threshold, leads to the loop over the rest. *)
Lemma Evaluate_loop_app pre :
  forall n result scores rest,
    all_complete Sscanf_f exec pre n scores ->
    criticals_pass pre scores ->
    exists result',
      Evaluate_loop Sscanf_f Sprintf_3f Duration_String exec (pre ++ rest) n result
      = Evaluate_loop Sscanf_f Sprintf_3f Duration_String exec rest (n + len pre) result' /\
      Result_ID result' = Result_ID result /\
      Result_Score result' = running_score pre scores (Result_Score result) /\
      (Result_Success result = false -> Result_Success result' = false).
Proof.
  induction pre as [|stage pre IH]; intros n result scores rest [Hlen Hall] Hcrit.
  - exists result. unfold len. simpl. rewrite Z.add_0_r.
    destruct scores; [|discriminate]. repeat split; auto.
  - destruct scores as [|x scores]; [discriminate|].
    destruct (Hall 0%nat stage eq_refl) as (output & Hexec & Hx).
    rewrite Z.add_0_r in Hexec. simpl in Hx. injection Hx as Hx.
    cbn [app Evaluate_loop]. rewrite (runStage_completed _ _ _ stage n output Hexec).
    cbn [Result_Score Result_Artifacts]. rewrite <- Hx.
    assert (Hrest : all_complete Sscanf_f exec pre (n + 1) scores).
    { split; [simpl in Hlen; lia|]. intros k st Hk.
      destruct (Hall (S k) st Hk) as (out & He & Hs). exists out.
      split; [|exact Hs]. rewrite <- He. f_equal. lia. }
    assert (Hcrit' : criticals_pass pre scores).
    { intros k st y Hk Hy. apply (Hcrit (S k) st y Hk Hy). }
    assert (Hn : n + len (stage :: pre) = n + 1 + len pre)
      by (unfold len; rewrite length_cons; lia).
    rewrite Hn.
    destruct (x <? Stage_Threshold stage)%float eqn:Hmiss.
    + assert (Hnc : Stage_Critical stage = false).
      { destruct (Stage_Critical stage) eqn:Hc; [|reflexivity].
        rewrite (Hcrit 0%nat stage x eq_refl eq_refl Hc) in Hmiss. discriminate. }
      rewrite Hnc. cbn [andb].
      match goal with |- context [Evaluate_loop _ _ _ _ (pre ++ rest) (n + 1) ?res] =>
        destruct (IH (n + 1) res scores rest Hrest Hcrit') as (result' & He & Hi & Hsc & Hs)
      end.
      exists result'. split; [exact He|]. split; [exact Hi|]. split.
      * rewrite Hsc. cbn [Result_Score running_score]. unfold score_after.
        rewrite Hmiss. reflexivity.
      * intros _. apply Hs. reflexivity.
    + cbn [andb].
      match goal with |- context [Evaluate_loop _ _ _ _ (pre ++ rest) (n + 1) ?res] =>
        destruct (IH (n + 1) res scores rest Hrest Hcrit') as (result' & He & Hi & Hsc & Hs)
      end.
      exists result'. split; [exact He|]. split; [exact Hi|]. split.
      * rewrite Hsc. cbn [Result_Score running_score]. unfold score_after.
        rewrite Hmiss. reflexivity.
      * exact Hs.
Qed.

End CascadeStops.

(** X16.  [Evaluate] stops at the first stage that fails.  Let the stages
    before [stage] complete with no critical one missing its threshold.  If
    the run of [stage] times out or fails, [Evaluate] returns that stage's
    error; if it completes with a score below the threshold of a critical
    [stage], [Evaluate] returns the error "critical stage ... failed
    threshold" and the result carries the stage's score.  In both cases the
    result is unsuccessful and names the stage under "failure_stage", and
    the stages after it are never run: the outcome is the same whatever they
    are. *)
Theorem Evaluate_stops_at_failure
    (Sscanf_f : string -> option float) (Sprintf_3f : float -> string)
    (Duration_String : Z -> string) (exec : CascadeStage -> Z -> StageRun)
    (now : Z) (pre : list CascadeStage) (stage : CascadeStage)
    (post : list CascadeStage) (scores : list float) :
  all_complete Sscanf_f exec pre 1 scores ->
  criticals_pass pre scores ->
  let r := Evaluate Sscanf_f Sprintf_3f Duration_String exec now (pre ++ stage :: post) in
  let n := 1 + len pre in
  (exec stage n = TimedOut ->
   r.2 = Some ("stage " +:+ Stage_Name stage +:+ " timed out") /\
   Result_Success r.1 = false /\
   Result_Score r.1 = running_score pre scores 0 /\
   Result_Artifacts r.1 !! "failure_stage" = Some (Stage_Name stage) /\
   Result_Artifacts r.1 !! "stage_error" = r.2 /\
   Some (Result_Error r.1) = r.2) /\
  (forall output err,
      exec stage n = Failed output err ->
      r.2 = Some ("stage execution failed: " +:+ err) /\
      Result_Success r.1 = false /\
      Result_Score r.1 = running_score pre scores 0 /\
      Result_Artifacts r.1 !! "failure_stage" = Some (Stage_Name stage) /\
      Result_Artifacts r.1 !! "stage_error" = r.2 /\
      Some (Result_Error r.1) = r.2) /\
  (forall output,
      exec stage n = Completed output ->
      (parseScoreOutput Sscanf_f output <? Stage_Threshold stage)%float = true ->
      Stage_Critical stage = true ->
      r.2 = Some ("critical stage " +:+ Stage_Name stage +:+ " failed threshold") /\
      Result_Success r.1 = false /\
      Result_Score r.1 = parseScoreOutput Sscanf_f output /\
      Result_Artifacts r.1 !! "failure_stage" = Some (Stage_Name stage) /\
      Result_Artifacts r.1 !! "threshold_failed" = Some "true").
Proof.
  intros Hall Hcrit r n. subst r. unfold Evaluate.
  destruct (Evaluate_loop_app Sscanf_f Sprintf_3f Duration_String exec pre 1
              (mkEvaluationResult ("cascade-" +:+ itoa now) 0 0 [] false ∅ "")
              scores (stage :: post) Hall Hcrit)
    as (result' & -> & _ & Hscore & Hsucc).
  specialize (Hsucc eq_refl). cbn [Result_Score] in Hscore.
  fold n. cbn [Evaluate_loop]. unfold runStage.
  split; [|split].
  - intros ->. cbn. rewrite lookup_insert_eq.
    rewrite lookup_insert_ne by discriminate. rewrite lookup_insert_eq.
    repeat split; auto.
  - intros output err ->. cbn. rewrite lookup_insert_eq.
    rewrite lookup_insert_ne by discriminate. rewrite lookup_insert_eq.
    repeat split; auto.
  - intros output -> Hmiss Hc. cbn [Result_Score]. rewrite Hmiss, Hc. cbn.
    rewrite lookup_insert_eq.
    rewrite lookup_insert_ne by discriminate. rewrite lookup_insert_eq.
    repeat split; auto.
Qed.

Lemma Evaluate_stops_at_failure_witness :
  (Evaluate scan_literals (fun _ => "") (fun _ => "") (fun _ _ => TimedOut) 0
     scenario_stages).2
  = Some "stage validation timed out".
Proof.
  refine (proj1 (proj1 (Evaluate_stops_at_failure scan_literals (fun _ => "")
                          (fun _ => "") (fun _ _ => TimedOut) 0 [] stage_validation
                          [stage_basic; stage_comprehensive] [] _ _) eq_refl)).
  - split; [reflexivity|]. intros k st Hk. discriminate.
  - intros k st x Hk. discriminate.
Defined.

(** X24.  Artifacts accumulate, later stages overwriting earlier ones: when
    every stage of a cascade completes and no critical stage misses its
    threshold, the "stdout" artifact of the result is the output of the last
    stage. *)
Theorem Evaluate_stdout_of_last_stage
    (Sscanf_f : string -> option float) (Sprintf_3f : float -> string)
    (Duration_String : Z -> string) (exec : CascadeStage -> Z -> StageRun)
    (now : Z) (pre : list CascadeStage) (stage : CascadeStage)
    (scores : list float) (output : string) :
  all_complete Sscanf_f exec (pre ++ [stage]) 1 scores ->
  criticals_pass (pre ++ [stage]) scores ->
  exec stage (1 + len pre) = Completed output ->
  let r := Evaluate Sscanf_f Sprintf_3f Duration_String exec now (pre ++ [stage]) in
  r.2 = None /\
  Result_Success r.1 = true /\
  Result_Artifacts r.1 !! "stdout" = Some output.
Proof.
  intros [Hlen Hall] Hcrit Hexec r. subst r. unfold Evaluate.
  rewrite length_app in Hlen. simpl in Hlen.
  assert (Hpre : all_complete Sscanf_f exec pre 1 (take (length pre) scores)).
  { split; [rewrite length_take; lia|]. intros k st Hk.
    destruct (Hall k st) as (out & He & Hs);
      [rewrite lookup_app_l by (eapply lookup_lt_Some; exact Hk); exact Hk|].
    exists out. split; [exact He|].
    rewrite lookup_take_lt by (eapply lookup_lt_Some; exact Hk). exact Hs. }
  assert (Hcpre : criticals_pass pre (take (length pre) scores)).
  { intros k st x Hk Hx Hc.
    apply (Hcrit k st x); [|rewrite lookup_take_lt in Hx
                              by (eapply lookup_lt_Some; exact Hk); exact Hx|exact Hc].
    rewrite lookup_app_l by (eapply lookup_lt_Some; exact Hk). exact Hk. }
  destruct (Evaluate_loop_app Sscanf_f Sprintf_3f Duration_String exec pre 1
              (mkEvaluationResult ("cascade-" +:+ itoa now) 0 0 [] false ∅ "")
              (take (length pre) scores) [stage] Hpre Hcpre)
    as (result' & -> & _ & _ & _).
  cbn [Evaluate_loop].
  rewrite (runStage_completed Sscanf_f Duration_String exec stage _ output Hexec).
  cbn [Result_Score Result_Artifacts].
  destruct (parseScoreOutput Sscanf_f output <? Stage_Threshold stage)%float eqn:Hmiss.
  - assert (Hnc : Stage_Critical stage = false).
    { destruct (Stage_Critical stage) eqn:Hc; [|reflexivity].
      destruct (Hall (length pre) stage) as (out & He & Hs).
      { rewrite lookup_app_r by lia. rewrite Nat.sub_diag. reflexivity. }
      unfold len in Hexec. rewrite Z.add_comm in Hexec.
      assert (Z.of_nat (length pre) + 1 = 1 + Z.of_nat (length pre)) as E by lia.
      rewrite E in Hexec. rewrite Hexec in He. injection He as <-.
      rewrite (Hcrit (length pre) stage _) in Hmiss; [discriminate| |exact Hs|exact Hc].
      rewrite lookup_app_r by lia. rewrite Nat.sub_diag. reflexivity. }
    rewrite Hnc. cbn. split; [reflexivity|]. split; [reflexivity|].
    apply lookup_union_Some_l. apply lookup_insert_eq.
  - cbn. split; [reflexivity|]. split; [reflexivity|].
    apply lookup_union_Some_l. apply lookup_insert_eq.
Qed.

Lemma Evaluate_stdout_of_last_stage_witness :
  Result_Artifacts (scenario_Evaluate ["SCORE: 0.5"; "SCORE: 0.4"; "SCORE: 0.9"]).1
    !! "stdout"
  = Some "SCORE: 0.9".
Proof.
  refine (proj2 (proj2 (Evaluate_stdout_of_last_stage scan_literals (fun _ => "")
                          (fun _ => "")
                          (exec_prints ["SCORE: 0.5"; "SCORE: 0.4"; "SCORE: 0.9"]) 0
                          [stage_validation; stage_basic] stage_comprehensive
                          [0.5; 0.4; 0.9]%float "SCORE: 0.9" _ _ eq_refl))).
  - split; [reflexivity|]. intros k st Hk.
    destruct k as [|[|[|k]]]; simpl in Hk; try discriminate;
      injection Hk as <-; eexists; split; reflexivity.
  - intros k st x Hk Hx Hc.
    destruct k as [|[|[|k]]]; simpl in Hk, Hx; try discriminate;
      injection Hk as <-; injection Hx as <-; try discriminate; reflexivity.
Defined.

(* ===================================================================== *)
(** * The iteration worker: choosing the child's code *)
(* ===================================================================== *)

Section CodeBlocksFacts.

Variable FindAllStringSubmatch : string -> list (list string).
Variable TrimSpace : string -> string.

Lemma extractCodeBlocks_fold_nonempty matches :
  forall acc,
    (forall b, b ∈ acc -> b <> "") ->
    forall b,
      b ∈ fold_left
            (fun blocks match_ =>
               if (1 <? length match_)%nat then
                 let code := TrimSpace (default "" (match_ !! 1%nat)) in
                 if bool_decide (code <> "") then blocks ++ [code] else blocks
               else blocks)
            matches acc ->
      b <> "".
Proof.
  induction matches as [|m rest IH]; intros acc Hacc b Hb; simpl in Hb; [auto|].
  refine (IH _ _ b Hb).
  destruct (1 <? length m)%nat; [|exact Hacc].
  case_bool_decide as Hcode; [|exact Hacc].
  intros c [Hc|Hc%list_elem_of_singleton]%elem_of_app; [auto|congruence].
Qed.

Lemma largest_fold blocks :
  forall acc,
    let r := fold_left
               (fun largestBlock block =>
                  if (String.length largestBlock <? String.length block)%nat
                  then block else largestBlock)
               blocks acc in
    (r = acc /\ forall b, b ∈ blocks -> (String.length b <= String.length acc)%nat)
    \/ (exists l1 l2,
          blocks = l1 ++ r :: l2 /\
          (String.length acc < String.length r)%nat /\
          (forall b, b ∈ l1 -> (String.length b < String.length r)%nat) /\
          (forall b, b ∈ l2 -> (String.length b <= String.length r)%nat)).
Proof.
  induction blocks as [|block rest IH]; intros acc; simpl.
  - left. split; [reflexivity|]. intros b Hb. inversion Hb.
  - destruct (Nat.ltb_spec (String.length acc) (String.length block)) as [Hlt|Hge].
    + right. destruct (IH block) as [[Hr Hall]|(l1 & l2 & Hsplit & Hgt & H1 & H2)].
      * exists [], rest. simpl in *. rewrite Hr.
        split; [reflexivity|]. split; [exact Hlt|].
        split; [intros b Hb; inversion Hb|exact Hall].
      * exists (block :: l1), l2. simpl in *.
        split; [rewrite Hsplit at 1; reflexivity|]. split; [lia|].
        split; [|exact H2].
        intros b [->|Hb]%elem_of_cons; [exact Hgt|auto].
    + destruct (IH acc) as [[Hr Hall]|(l1 & l2 & Hsplit & Hgt & H1 & H2)].
      * left. simpl in *. split; [exact Hr|].
        intros b [->|Hb]%elem_of_cons; [exact Hge|auto].
      * right. exists (block :: l1), l2. simpl in *.
        split; [rewrite Hsplit at 1; reflexivity|]. split; [exact Hgt|].
        split; [|exact H2].
        intros b [->|Hb]%elem_of_cons; [lia|auto].
Qed.

End CodeBlocksFacts.

(** X17.  The code [parseFullRewrite] and [applyDiffs] take from an LLM
    response.  Every block [extractCodeBlocks] returns is non-empty.
    [parseFullRewrite] returns the empty string exactly when there is no
    such block; otherwise it returns the first block of the largest length:
    the blocks before it are strictly shorter and the blocks after it are
    not longer.  [applyDiffs] fails exactly when there is no block, and
    otherwise returns the first block together with the number of
    blocks. *)
Theorem parseFullRewrite_largest
    (FindAllStringSubmatch : string -> list (list string))
    (TrimSpace : string -> string) (parentCode llmResponse : string) :
  let blocks := extractCodeBlocks FindAllStringSubmatch TrimSpace llmResponse in
  let r := parseFullRewrite FindAllStringSubmatch TrimSpace llmResponse in
  (forall b, b ∈ blocks -> b <> "") /\
  (r = "" <-> blocks = []) /\
  (blocks <> [] ->
   exists l1 l2,
     blocks = l1 ++ r :: l2 /\
     (forall b, b ∈ l1 -> (String.length b < String.length r)%nat) /\
     (forall b, b ∈ l2 -> (String.length b <= String.length r)%nat)) /\
  (blocks = [] ->
   applyDiffs FindAllStringSubmatch TrimSpace parentCode llmResponse
   = Err "no code blocks found in LLM response") /\
  (forall b rest,
      blocks = b :: rest ->
      applyDiffs FindAllStringSubmatch TrimSpace parentCode llmResponse
      = Ok (b, "Applied " +:+ itoa (len blocks) +:+ " diff(s)")).
Proof.
  intros blocks r.
  assert (Hne : forall b, b ∈ blocks -> b <> "").
  { intros b Hb.
    eapply (extractCodeBlocks_fold_nonempty TrimSpace _ []); [|exact Hb].
    intros c Hc. inversion Hc. }
  assert (Hcases : blocks = [] /\ r = ""
                   \/ blocks <> [] /\ r <> "" /\
                      exists l1 l2,
                        blocks = l1 ++ r :: l2 /\
                        (forall b, b ∈ l1 -> (String.length b < String.length r)%nat) /\
                        (forall b, b ∈ l2 -> (String.length b <= String.length r)%nat)).
  { subst r. unfold parseFullRewrite. fold blocks.
    destruct blocks as [|b0 rest] eqn:Hblocks; [left; split; reflexivity|].
    right. split; [discriminate|].
    change (length (b0 :: rest) =? 0)%nat with false. cbv iota.
    destruct (largest_fold (b0 :: rest) "") as [[Hr Hall]|(l1 & l2 & Hsplit & Hgt & H1 & H2)].
    - exfalso. apply (Hne b0); [left|].
      specialize (Hall b0 (list_elem_of_here _ _)). simpl in Hall.
      destruct b0; [reflexivity|simpl in Hall; lia].
    - split; [|exists l1, l2; auto].
      intros E. rewrite E in Hgt. simpl in Hgt. lia. }
  split; [exact Hne|]. split; [|split; [|split]].
  - destruct Hcases as [[Hb Hr]|(Hb & Hr & _)]; split; intros; congruence.
  - intros Hb. destruct Hcases as [[Hb' _]|(_ & _ & H)]; [contradiction|exact H].
  - intros Hb. unfold applyDiffs. fold blocks. rewrite Hb. reflexivity.
  - intros b rest Hb. unfold applyDiffs. fold blocks. rewrite Hb. reflexivity.
Qed.

(* ===================================================================== *)
(** * The OpenAI client: the retry loop *)
(* ===================================================================== *)

Section RetryFacts.

Variable Response : Type.
Variable makeRequest : nat -> RequestOutcome Response.
Variable done_in_wait : nat -> bool.
Variable done_after : nat -> bool.

(** What a run of the loop over the attempts [a], ..., [a + n - 1] with [a]
    requests already sent can come to. *)
Lemma retry_loop_sound n :
  forall a lastErr,
    let r := retry_loop Response makeRequest done_in_wait done_after (seq a n) lastErr a in
    (a <= r.2 <= a + n)%nat /\
    (forall k, (a <= k)%nat -> (S k < r.2)%nat -> retried (makeRequest k)) /\
    match r.1 with
    | Generated response =>
        exists k, r.2 = S k /\ (a <= k)%nat /\ makeRequest k = Responded response
    | RequestError err =>
        exists k StatusCode Message,
          r.2 = S k /\ (a <= k)%nat /\ makeRequest k = err /\
          err = HTTPError StatusCode Message /\ no_retry StatusCode = true
    | MaxRetriesExceeded last =>
        r.2 = (a + n)%nat /\
        (forall k, (a <= k < a + n)%nat -> retried (makeRequest k)) /\
        last = match n with
               | O => lastErr
               | S n' => Some (makeRequest (a + n')%nat)
               end
    | ContextError =>
        exists k, (a <= k < a + n)%nat /\
                  ((0 < k)%nat /\ done_in_wait k = true /\ r.2 = k
                   \/ done_after k = true /\ r.2 = S k)
    end.
Proof.
  induction n as [|n IH]; intros a lastErr.
  - simpl. split; [lia|]. split; [intros; lia|].
    split; [lia|]. split; [intros; lia|reflexivity].
  - cbn [seq retry_loop].
    destruct ((0 <? a)%nat && done_in_wait a) eqn:Hwait.
    { simpl. split; [lia|]. split; [intros; lia|].
      exists a. split; [lia|]. left.
      apply andb_true_iff in Hwait as [Ha Hd]. apply Nat.ltb_lt in Ha. auto. }
    assert (Hcont : forall err,
               makeRequest a = err -> retried err ->
               let r := retry_loop Response makeRequest done_in_wait done_after
                   (seq (S a) n) (Some err) (S a) in
               (a <= r.2 <= a + S n)%nat /\
               (forall k, (a <= k)%nat -> (S k < r.2)%nat -> retried (makeRequest k)) /\
               match r.1 with
               | Generated response =>
                   exists k, r.2 = S k /\ (a <= k)%nat /\ makeRequest k = Responded response
               | RequestError err =>
                   exists k StatusCode Message,
                     r.2 = S k /\ (a <= k)%nat /\ makeRequest k = err /\
                     err = HTTPError StatusCode Message /\ no_retry StatusCode = true
               | MaxRetriesExceeded last =>
                   r.2 = (a + S n)%nat /\
                   (forall k, (a <= k < a + S n)%nat -> retried (makeRequest k)) /\
                   last = Some (makeRequest (a + n)%nat)
               | ContextError =>
                   exists k, (a <= k < a + S n)%nat /\
                             ((0 < k)%nat /\ done_in_wait k = true /\ r.2 = k
                              \/ done_after k = true /\ r.2 = S k)
               end).
    { intros err Herr Hret r. subst r.
      destruct (IH (S a) (Some err)) as (Hb & Hprev & Hout).
      split; [lia|]. split.
      - intros k Hk Hlt. destruct (decide (k = a)) as [->|Hne].
        + rewrite Herr. exact Hret.
        + apply Hprev; [lia|exact Hlt].
      - destruct (retry_loop Response makeRequest done_in_wait done_after
          (seq (S a) n) (Some err) (S a)).1.
        + destruct Hout as (k & H1 & H2 & H3). exists k. split; [exact H1|]. split; [lia|exact H3].
        + destruct Hout as (k & Hk & Hcase). exists k. split; [lia|exact Hcase].
        + destruct Hout as (k & s & m & H1 & H2 & H3). exists k, s, m.
          split; [exact H1|]. split; [lia|exact H3].
        + destruct Hout as (H1 & H2 & H3). split; [lia|]. split.
          * intros k Hk. destruct (decide (k = a)) as [->|Hne].
            -- rewrite Herr. exact Hret.
            -- apply H2. lia.
          * rewrite H3. destruct n as [|n']; [|f_equal; f_equal; lia].
            rewrite Nat.add_0_r. congruence. }
    destruct (makeRequest a) as [response|s m|msg] eqn:Hreq.
    + simpl. split; [lia|]. split; [intros; lia|]. exists a. auto.
    + destruct (done_after a) eqn:Hafter.
      { simpl. split; [lia|]. split; [intros; lia|]. exists a. split; [lia|]. right. auto. }
      destruct (no_retry s) eqn:Hno.
      * simpl. split; [lia|]. split; [intros; lia|]. exists a, s, m. auto.
      * apply (Hcont (HTTPError s m) eq_refl). exact Hno.
    + destruct (done_after a) eqn:Hafter.
      { simpl. split; [lia|]. split; [intros; lia|]. exists a. split; [lia|]. right. auto. }
      apply (Hcont (OtherError msg) eq_refl). exact I.
Qed.

Hypothesis never_done_in_wait : forall k, done_in_wait k = false.
Hypothesis never_done_after : forall k, done_after k = false.

(** With a context that is never done, the loop runs up to the first
    attempt whose request is not retried. *)
Lemma retry_loop_run n :
  forall a lastErr k,
    (a <= k)%nat ->
    (forall j, (a <= j < k)%nat -> retried (makeRequest j)) ->
    (forall response,
        (k < a + n)%nat -> makeRequest k = Responded response ->
        retry_loop Response makeRequest done_in_wait done_after
            (seq a n) lastErr a = (Generated response, S k)) /\
    (forall StatusCode Message,
        (k < a + n)%nat -> makeRequest k = HTTPError StatusCode Message ->
        no_retry StatusCode = true ->
        retry_loop Response makeRequest done_in_wait done_after
            (seq a n) lastErr a = (RequestError (HTTPError StatusCode Message), S k)) /\
    (k = (a + n)%nat ->
     retry_loop Response makeRequest done_in_wait done_after (seq a n) lastErr a
     = (MaxRetriesExceeded match n with
                           | O => lastErr
                           | S n' => Some (makeRequest (a + n')%nat)
                           end, k)).
Proof.
  induction n as [|n IH]; intros a lastErr k Hk Hprev.
  - split; [intros; lia|]. split; [intros; lia|].
    intros ->. simpl. rewrite Nat.add_0_r. reflexivity.
  - cbn [seq retry_loop]. rewrite never_done_in_wait, andb_false_r, never_done_after.
    destruct (decide (k = a)) as [->|Hne].
    + split; [|split].
      * intros response _ ->. reflexivity.
      * intros s m _ -> ->. reflexivity.
      * intros; lia.
    + assert (Hret : retried (makeRequest a)) by (apply Hprev; lia).
      destruct (IH (S a) (Some (makeRequest a)) k) as (H1 & H2 & H3);
        [lia|intros j Hj; apply Hprev; lia|].
      assert (Hstep : retry_loop Response makeRequest done_in_wait done_after
          (seq a (S n)) lastErr a
                      = retry_loop Response makeRequest done_in_wait done_after
                          (seq (S a) n) (Some (makeRequest a)) (S a)).
      { cbn [seq retry_loop].
        rewrite never_done_in_wait, andb_false_r, never_done_after.
        destruct (makeRequest a) as [response|s m|msg]; simpl in Hret;
          [contradiction|rewrite Hret; reflexivity|reflexivity]. }
      cbn [seq retry_loop] in Hstep.
      rewrite never_done_in_wait, andb_false_r, never_done_after in Hstep.
      rewrite Hstep. split; [|split].
      * intros response Hlt Hreq. apply H1; [lia|exact Hreq].
      * intros s m Hlt Hreq Hno. apply H2; [lia|exact Hreq|exact Hno].
      * intros ->. rewrite H3 by lia. f_equal. f_equal.
        destruct n as [|n']; [rewrite Nat.add_0_r; reflexivity|].
        f_equal. f_equal. lia.
Qed.

End RetryFacts.

(** X18.  What [GenerateWithSystemMessage] can return, for every behaviour
    of the server and of the context.  It sends at most [maxRetries + 1]
    requests, where [maxRetries] is the configured [Retries], or 3 when that
    is 0; every request but the last one sent failed in a way that is
    retried.  A response is the response of the last request.  An error
    returned as it is comes from the last request and is an HTTP error with
    status 400, 401 or 403.  "max retries exceeded" means that all
    [maxRetries + 1] requests were sent and failed, and it wraps the error
    of the last one (no error at all when [maxRetries] is negative and no
    request was sent). *)
Theorem GenerateWithSystemMessage_attempts
    (Response : Type) (makeRequest : nat -> RequestOutcome Response)
    (done_in_wait done_after : nat -> bool) (Retries : Z) :
  let maxRetries := if Retries =? 0 then 3 else Retries in
  let r := GenerateWithSystemMessage Response makeRequest done_in_wait done_after
             Retries in
  (r.2 <= Z.to_nat (maxRetries + 1))%nat /\
  (forall k, (S k < r.2)%nat -> retried (makeRequest k)) /\
  match r.1 with
  | Generated response => exists k, r.2 = S k /\ makeRequest k = Responded response
  | RequestError err =>
      exists k StatusCode Message,
        r.2 = S k /\ makeRequest k = err /\ err = HTTPError StatusCode Message /\
        (StatusCode = 400 \/ StatusCode = 401 \/ StatusCode = 403)
  | MaxRetriesExceeded last =>
      r.2 = Z.to_nat (maxRetries + 1) /\
      (forall k, (k < r.2)%nat -> retried (makeRequest k)) /\
      last = match r.2 with
             | O => None
             | S k => Some (makeRequest k)
             end
  | ContextError =>
      exists k, (0 < k)%nat /\ done_in_wait k = true /\ r.2 = k
                \/ done_after k = true /\ r.2 = S k
  end.
Proof.
  intros maxRetries r. subst r. unfold GenerateWithSystemMessage, getOrDefaultInt.
  fold maxRetries.
  destruct (retry_loop_sound Response makeRequest done_in_wait done_after
              (Z.to_nat (maxRetries + 1)) 0 None) as (Hb & Hprev & Hout).
  split; [lia|]. split; [intros k Hk; apply Hprev; [lia|exact Hk]|].
  destruct (retry_loop Response makeRequest done_in_wait done_after _ None 0).1.
  - destruct Hout as (k & H1 & _ & H2). eauto.
  - destruct Hout as (k & _ & Hcase). eauto.
  - destruct Hout as (k & s & m & H1 & _ & H2 & H3 & H4).
    exists k, s, m. repeat (split; [assumption|]).
    unfold no_retry in H4. lia.
  - destruct Hout as (H1 & H2 & H3). simpl in H1. split; [exact H1|].
    split; [intros k Hk; apply H2; lia|].
    rewrite H3, H1. destruct (Z.to_nat (maxRetries + 1)); reflexivity.
Qed.

(** X19.  With a context that is never cancelled the outcome of
    [GenerateWithSystemMessage] is fixed by the first of the
    [maxRetries + 1] attempts whose request is not retried: a response is
    returned at once, after one request more than there were failures
    before; an HTTP error with status 400, 401 or 403 is returned at once
    and as it is; and when every attempt fails otherwise the result is "max
    retries exceeded" after exactly [maxRetries + 1] requests.  A
    configured [Retries] of 0 means four attempts. *)
Theorem GenerateWithSystemMessage_outcome
    (Response : Type) (makeRequest : nat -> RequestOutcome Response)
    (done_in_wait done_after : nat -> bool) (Retries : Z) :
  (forall k, done_in_wait k = false) ->
  (forall k, done_after k = false) ->
  let n := Z.to_nat ((if Retries =? 0 then 3 else Retries) + 1) in
  let r := GenerateWithSystemMessage Response makeRequest done_in_wait done_after
             Retries in
  (Retries = 0 -> n = 4%nat) /\
  (forall k response,
      (k < n)%nat ->
      (forall j, (j < k)%nat -> retried (makeRequest j)) ->
      makeRequest k = Responded response ->
      r = (Generated response, S k)) /\
  (forall k StatusCode Message,
      (k < n)%nat ->
      (forall j, (j < k)%nat -> retried (makeRequest j)) ->
      makeRequest k = HTTPError StatusCode Message ->
      StatusCode = 400 \/ StatusCode = 401 \/ StatusCode = 403 ->
      r = (RequestError (HTTPError StatusCode Message), S k)) /\
  ((forall j, (j < n)%nat -> retried (makeRequest j)) ->
   r = (MaxRetriesExceeded match n with
                           | O => None
                           | S k => Some (makeRequest k)
                           end, n)).
Proof.
  intros Hwait Hafter n r. subst r. unfold GenerateWithSystemMessage, getOrDefaultInt.
  fold n.
  split; [intros ->; reflexivity|].
  split; [|split].
  - intros k response Hk Hprev Hreq.
    apply (retry_loop_run Response makeRequest done_in_wait done_after Hwait Hafter
             n 0 None k); [lia|intros j Hj; apply Hprev; lia|lia|exact Hreq].
  - intros k s m Hk Hprev Hreq Hs.
    apply (retry_loop_run Response makeRequest done_in_wait done_after Hwait Hafter
             n 0 None k); [lia|intros j Hj; apply Hprev; lia|lia|exact Hreq|].
    unfold no_retry. destruct Hs as [->|[->| ->]]; reflexivity.
  - intros Hall.
    apply (retry_loop_run Response makeRequest done_in_wait done_after Hwait Hafter
             n 0 None n); [lia|intros j Hj; apply Hall; lia|reflexivity].
Qed.

Lemma GenerateWithSystemMessage_outcome_witness :
  GenerateWithSystemMessage string
    (fun k => if (k <? 2)%nat then HTTPError 500 "busy" else Responded "ok")
    (fun _ => false) (fun _ => false) 0
  = (Generated "ok", 3%nat).
Proof.
  refine (proj1 (proj2 (GenerateWithSystemMessage_outcome string
                          (fun k => if (k <? 2)%nat then HTTPError 500 "busy"
                                    else Responded "ok")
                          (fun _ => false) (fun _ => false) 0
                          (fun _ => eq_refl) (fun _ => eq_refl)))
            2%nat "ok" _ _ eq_refl).
  - simpl. lia.
  - intros j Hj. destruct j as [|[|j]]; [reflexivity|reflexivity|lia].
Defined.

(* ===================================================================== *)
(** * Feature scaling on a young island *)
(* ===================================================================== *)

Section YoungIsland.

Lemma featureStats_init_lookup dims dim :
  dim ∈ dims ->
  featureStats_init dims !! dim = Some (mkFeatureStats pos_inf neg_inf 0 0 0).
Proof.
  unfold featureStats_init. generalize (∅ : gmap string FeatureStats).
  induction dims as [|d rest IH]; intros m Hin; [inversion Hin|]. simpl.
  destruct (decide (dim ∈ rest)) as [Hrest|Hrest]; [apply IH; exact Hrest|].
  apply elem_of_cons in Hin as [->|Hin]; [|contradiction].
  clear IH. revert m. induction rest as [|d' rest IH]; intros m; simpl.
  - apply lookup_insert_eq.
  - apply not_elem_of_cons in Hrest as [Hne Hrest].
    rewrite insert_insert_ne by congruence. apply IH. exact Hrest.
Qed.

Lemma updateStats_first (f : float) :
  let s := updateStats (mkFeatureStats pos_inf neg_inf 0 0 0) f in
  Stats_Count s = 1 /\ (Stats_Min s <? Stats_Max s)%float = false.
Proof.
  unfold updateStats. cbn [Stats_Count Stats_Min Stats_Max].
  change (wrap64 (0 + 1) =? 1) with true. cbv iota.
  cbn [Stats_Count Stats_Min Stats_Max]. split; [reflexivity|].
  destruct (f <? pos_inf)%float, (neg_inf <? f)%float;
    auto using ltb_irrefl, ltb_neg_inf, pos_inf_ltb.
Qed.

Lemma scaleFeature_single (stats : FeatureStats) (f : float) :
  Stats_Count stats <> 0 ->
  (Stats_Min stats <? Stats_Max stats)%float = false ->
  scaleFeature stats f = 0.5%float.
Proof.
  intros Hc Hm. unfold scaleFeature.
  destruct (Z.eqb_spec (Stats_Count stats) 0) as [|_]; [contradiction|].
  rewrite Hm. reflexivity.
Qed.

Lemma ScaleFeatures_at (i : Island) (features : list float) (d : nat) (dim : string)
    (feature : float) :
  Grid_Dimensions (Island_Grid i) !! d = Some dim ->
  features !! d = Some feature ->
  ScaleFeatures i features !! d
  = Some (scaleFeature (default FeatureStats_zero (Island_FeatureStats i !! dim)) feature).
Proof.
  intros Hd Hf. unfold ScaleFeatures.
  apply (ScaleFeatures_loop_at (Island_FeatureStats i) _ 0 d);
    [apply length_replicate|exact Hd|exact Hf].
Qed.

End YoungIsland.

(** X20.  Feature scaling on a young island, as [AddProgram] applies it.
    The first program added to an island of a new store keeps its features
    in every grid dimension (no statistics yet, so no scaling).  The second
    program added to that island is stored with the feature 0.5 in every
    grid dimension the two vectors cover, whatever its own features were:
    after one observation the minimum and the maximum of a dimension
    coincide.  The dimension names are assumed distinct. *)
Theorem AddProgram_second_features
    (config : DatabaseConfig) (dir : string) (db0 : ProgramDatabase)
    (fresh1 fresh2 : string) (h : heap) (p1 p2 : ptr) (it1 it2 : Z)
    (h1 h2 : heap) (db1 db2 : ProgramDatabase) (prog1 prog2 : Program)
    (d : nat) (dim : string) (f1 f2 : float) :
  New config dir = Some db0 ->
  NoDup (GridDimensions config) ->
  GridDimensions config !! d = Some dim ->
  h !! p1 = Some prog1 ->
  Program_Features prog1 !! d = Some f1 ->
  AddProgram fresh1 h db0 p1 it1 = Some (h1, db1) ->
  h1 !! p2 = Some prog2 ->
  Program_Features prog2 !! d = Some f2 ->
  targetIsland_of db1 prog2 = targetIsland_of db0 prog1 ->
  AddProgram fresh2 h1 db1 p2 it2 = Some (h2, db2) ->
  (exists prog1', h1 !! p1 = Some prog1' /\ Program_Features prog1' !! d = Some f1) /\
  (exists prog2', h2 !! p2 = Some prog2' /\
                  Program_Features prog2' !! d = Some 0.5%float).
Proof.
  intros Hnew Hnd Hdim Hp1 Hf1 Hadd1 Hp2 Hf2 Htarget Hadd2.
  apply AddProgram_inv in Hadd1
    as (prog1_ & isl & isl2 & b & Hp1' & Hisl & Hh1 & _ & _ & Hgrid1 & Hdb1).
  assert (prog1_ = prog1) as -> by congruence.
  assert (Hin : isl ∈ db_islands db0).
  { unfold index in Hisl. destruct (_ <? 0); [discriminate|].
    eapply list_elem_of_lookup_2. exact Hisl. }
  destruct (New_islands config dir db0 isl Hnew Hin) as [id ->].
  set (id1 := if bool_decide (Program_ID prog1 = "") then fresh1 else Program_ID prog1) in *.
  set (isl1 := Island_with_Programs (<[id1 := p1]> (Island_Programs (NewIsland id config)))
                 (NewIsland id config)) in *.
  set (prog1' := Program_with_Features (ScaleFeatures isl1 (Program_Features prog1))
                   (if bool_decide (Program_ID prog1 = "")
                    then Program_with_ID fresh1 prog1 else prog1)) in *.
  assert (Hfeat1 : Program_Features prog1' !! d = Some f1).
  { subst prog1'. cbn [Program_Features Program_with_Features].
    rewrite (ScaleFeatures_at isl1 _ d dim f1 Hdim Hf1). f_equal.
    change (Island_FeatureStats isl1) with (featureStats_init (GridDimensions config)).
    rewrite featureStats_init_lookup by (eapply list_elem_of_lookup_2; exact Hdim).
    reflexivity. }
  split.
  { exists prog1'. split; [subst h1; apply lookup_insert_eq|exact Hfeat1]. }
  assert (Hisl2 : Island_FeatureStats isl2 !! dim
                  = Some (updateStats (mkFeatureStats pos_inf neg_inf 0 0 0) f1) /\
                  Grid_Dimensions (Island_Grid isl2) = GridDimensions config).
  { apply AddToGrid_inv in Hgrid1 as (prog0 & Hprog0 & Hcase).
    subst h1. rewrite lookup_insert_eq in Hprog0. injection Hprog0 as <-.
    destruct Hcase as [[_ ->]|(_ & _ & [e He])].
    - split; [|reflexivity].
      unfold placed, updateFeatureStats.
      cbn [Island_FeatureStats Island_with_FeatureStats Island_Grid Island_with_Grid
             Grid_Dimensions Grid_with_Cells isl1 Island_with_Programs NewIsland].
      rewrite (updateFeatureStats_loop_at (GridDimensions config) 0
                 (Program_Features prog1') _ d dim Hnd Hdim).
      change (0 + d)%nat with d. rewrite Hfeat1.
      rewrite featureStats_init_lookup by (eapply list_elem_of_lookup_2; exact Hdim).
      reflexivity.
    - unfold occupant in He. cbn in He. rewrite lookup_empty in He. discriminate. }
  destruct Hisl2 as [Hstats Hdims].
  apply AddProgram_inv in Hadd2
    as (prog2_ & islB & islB2 & b2 & Hp2' & HislB & Hh2 & _ & _ & _ & _).
  assert (prog2_ = prog2) as -> by congruence.
  rewrite Htarget in HislB. subst db1. cbn [db_islands] in HislB.
  assert (HislB' : islB = if (Island_BestScore isl2 <? Program_Score prog1)%float
                          then Island_with_Best p1 (Program_Score prog1) id1 isl2
                          else isl2).
  { unfold index in *. destruct (_ <? 0); [discriminate|].
    rewrite list_lookup_insert_eq in HislB by (eapply lookup_lt_Some; exact Hisl).
    congruence. }
  assert (HB : Island_FeatureStats islB = Island_FeatureStats isl2 /\
               Grid_Dimensions (Island_Grid islB) = GridDimensions config).
  { rewrite HislB'. destruct (_ <? _)%float; split; solve [reflexivity | exact Hdims]. }
  destruct HB as [HBstats HBdims].
  eexists. split; [subst h2; apply lookup_insert_eq|].
  cbn [Program_Features Program_with_Features].
  rewrite (ScaleFeatures_at _ _ d dim f2)
    by (try exact Hf2; cbn [Island_Grid Island_with_Programs]; rewrite HBdims; exact Hdim).
  cbn [Island_FeatureStats Island_with_Programs].
  rewrite HBstats, Hstats. f_equal.
  change (default FeatureStats_zero
            (Some (updateStats (mkFeatureStats pos_inf neg_inf 0 0 0) f1)))
    with (updateStats (mkFeatureStats pos_inf neg_inf 0 0 0) f1).
  destruct (updateStats_first f1) as [Hc Hm].
  apply scaleFeature_single; [rewrite Hc; discriminate|exact Hm].
Qed.

Lemma AddProgram_second_features_witness :
  exists h1 db1 h2 db2 prog2',
    AddProgram "x" heap_young db_young 1%positive 0 = Some (h1, db1) /\
    AddProgram "y" h1 db1 2%positive 1 = Some (h2, db2) /\
    h2 !! 2%positive = Some prog2' /\
    Program_Features prog2' !! 0%nat = Some 0.5%float.
Proof.
  let r1 := eval vm_compute in (AddProgram "x" heap_young db_young 1%positive 0) in
  match r1 with
  | Some (?h1, ?db1) =>
      let r2 := eval vm_compute in (AddProgram "y" h1 db1 2%positive 1) in
      match r2 with
      | Some (?h2, ?db2) =>
          assert (H1 : AddProgram "x" heap_young db_young 1%positive 0 = Some (h1, db1))
            by (vm_compute; reflexivity);
          assert (H2 : AddProgram "y" h1 db1 2%positive 1 = Some (h2, db2))
            by (vm_compute; reflexivity);
          exists h1, db1, h2, db2;
          destruct (AddProgram_second_features config_one_dim "" db_young "x" "y"
                      heap_young 1%positive 2%positive 0 1 h1 h2 db1 db2
                      program_young_a program_young_b 0 "complexity" 0.3%float 0.9%float)
            as (_ & prog2' & Hp & Hf);
          [reflexivity
          |apply NoDup_singleton
          |reflexivity
          |reflexivity
          |reflexivity
          |exact H1
          |vm_compute; reflexivity
          |reflexivity
          |vm_compute; reflexivity
          |exact H2
          |exists prog2'; repeat split; assumption]
      end
  end.
Defined.

(* ===================================================================== *)
(** * The OpenAI client: what goes on the wire *)
(* ===================================================================== *)

Section RequestFacts.

Variable ToLower : string -> string.

Lemma requestMap_lookup (c : OpenAIClient) (params : LLMModelParams)
    (request : LLMRequest) (key : string) :
  makeRequest_requestMap ToLower c params request !! key
  = if String.eqb key "seed" && (0 <? Config_RandomSeed params)
    then Some (VInt (Config_RandomSeed params))
    else if String.eqb key "reasoning_effort"
              && bool_decide (is_Some (Config_ReasoningEffort params))
    then VString <$> Config_ReasoningEffort params
    else if isReasoningModel ToLower c then
      if String.eqb key "max_completion_tokens"
      then Some (VInt (Request_MaxTokens request))
      else if String.eqb key "messages" then Some (VMessages (Request_Messages request))
      else if String.eqb key "model" then Some (VString (Request_Model request))
      else None
    else
      if String.eqb key "top_p" then Some (VFloat (Request_TopP request))
      else if String.eqb key "temperature" then Some (VFloat (Request_Temperature request))
      else if String.eqb key "max_tokens" then Some (VInt (Request_MaxTokens request))
      else if String.eqb key "messages" then Some (VMessages (Request_Messages request))
      else if String.eqb key "model" then Some (VString (Request_Model request))
      else None.
Proof.
  unfold makeRequest_requestMap.
  repeat match goal with
         | |- context [String.eqb key ?s] =>
             destruct (String.eqb_spec key s) as [->|?]
         end;
    destruct (0 <? Config_RandomSeed params);
    destruct (Config_ReasoningEffort params) as [effort|];
    destruct (isReasoningModel ToLower c);
    cbn [andb fmap option_fmap option_map];
    rewrite ?bool_decide_eq_true_2 by eauto;
    rewrite ?bool_decide_eq_false_2 by (intros [? ?]; discriminate);
    repeat first [rewrite lookup_insert_eq | rewrite lookup_insert_ne by congruence];
    rewrite ?lookup_empty; try reflexivity; try congruence.
Qed.

End RequestFacts.

(** X21.  The body of a chat request, from the configuration to the wire.
    The request always carries the model name and the messages, the system
    message first.  For a reasoning model it carries the token limit as
    "max_completion_tokens" and neither "max_tokens" nor "temperature" nor
    "top_p"; for any other model it carries "max_tokens", "temperature" and
    "top_p" and no "max_completion_tokens".  A configured value of 0 stands
    for the default: 4096 tokens, temperature 0.7, top_p 0.95.  "seed" is
    sent exactly when the configured seed is positive and
    "reasoning_effort" exactly when one is configured. *)
Theorem request_parameters (ToLower : string -> string)
    (c : OpenAIClient) (params : LLMModelParams)
    (systemMessage : string) (messages : list LLMMessage) :
  let request :=
    GenerateWithSystemMessage_request ToLower c params systemMessage messages in
  let m := makeRequest_requestMap ToLower c params request in
  let maxTokens :=
    if Config_MaxTokens params =? 0 then 4096 else Config_MaxTokens params in
  m !! "model" = Some (VString (Config_Name (client_config c))) /\
  m !! "messages" = Some (VMessages (mkLLMMessage "system" systemMessage :: messages)) /\
  (isReasoningModel ToLower c = true ->
   m !! "max_completion_tokens" = Some (VInt maxTokens) /\
   m !! "max_tokens" = None /\ m !! "temperature" = None /\ m !! "top_p" = None) /\
  (isReasoningModel ToLower c = false ->
   m !! "max_tokens" = Some (VInt maxTokens) /\
   m !! "max_completion_tokens" = None /\
   m !! "temperature"
   = Some (VFloat (if (Config_Temperature params =? 0)%float then 0.7%float
                   else Config_Temperature params)) /\
   m !! "top_p"
   = Some (VFloat (if (Config_TopP params =? 0)%float then 0.95%float
                   else Config_TopP params))) /\
  m !! "seed"
  = (if 0 <? Config_RandomSeed params then Some (VInt (Config_RandomSeed params))
     else None) /\
  m !! "reasoning_effort" = VString <$> Config_ReasoningEffort params.
Proof.
  intros request m maxTokens. subst m.
  rewrite !(requestMap_lookup ToLower). cbn [String.eqb Ascii.eqb Bool.eqb andb].
  subst request maxTokens. unfold GenerateWithSystemMessage_request.
  destruct (isReasoningModel ToLower c) eqn:Hr;
    cbn [Request_Model Request_Messages Request_MaxTokens Request_Temperature
           Request_TopP];
    unfold getOrDefaultInt, getOrDefaultFloat64;
    destruct (Config_ReasoningEffort params) as [effort|];
    rewrite ?bool_decide_eq_true_2 by eauto;
    rewrite ?bool_decide_eq_false_2 by (intros [? ?]; discriminate);
    repeat split; try reflexivity; try discriminate.
Qed.

(** X22.  A program added by [AddProgram] can be sampled back: right after
    the call, [SampleFromIsland] on the island the program went to returns a
    program of that island, with no error, whatever the clock, the random
    source and the order of map iteration are. *)
Theorem AddProgram_then_SampleFromIsland
    (range_order : gmap string ptr -> list (string * ptr))
    (nanos rnd : nat) (fresh : string) (h : heap) (db : ProgramDatabase)
    (p : ptr) (iteration : Z) h' db' (prog : Program) :
  (forall m, range_order m ≡ₚ map_to_list m) ->
  h !! p = Some prog ->
  AddProgram fresh h db p iteration = Some (h', db') ->
  exists q isl,
    SampleFromIsland range_order nanos rnd db' (targetIsland_of db prog) = Some (Ok q) /\
    index (db_islands db') (targetIsland_of db prog) = Some isl /\
    island_member isl q.
Proof.
  intros Hperm Hp H.
  apply AddProgram_inv in H
    as (prog0 & isl & isl2 & b & Hp0 & Hisl & Hh & Hid & Hscore & Hadd & Hdb).
  assert (prog0 = prog) as -> by congruence.
  destruct (SampleFromIsland_outcome range_order Hperm nanos rnd db'
              (targetIsland_of db prog))
    as [(_ & q & isl' & Hq & Hisl' & Hmem)|(Hn & _)]; [eauto|].
  exfalso. apply Hn. subst db'. unfold samplable. cbn [db_islands].
  eexists. split.
  - unfold index in *. destruct (_ <? 0); [discriminate|].
    apply list_lookup_insert_eq. eapply lookup_lt_Some. exact Hisl.
  - intros [_ Hempty].
    destruct (AddToGrid_Some_frame _ _ _ _ _ Hadd) as (Hprogs & _).
    cbn [Island_Programs Island_with_Programs] in Hprogs.
    assert (Island_Programs isl2 = ∅) as E
      by (destruct (_ <? _)%float; exact Hempty).
    rewrite Hprogs in E.
    apply (f_equal (fun m : gmap string ptr =>
                      m !! (if bool_decide (Program_ID prog = "")
                            then fresh else Program_ID prog))) in E.
    rewrite lookup_insert_eq, lookup_empty in E. discriminate.
Qed.

Lemma AddProgram_then_SampleFromIsland_witness :
  exists q, SampleFromIsland map_to_list 0 0
              (default db_young (snd <$> AddProgram "x" heap_young db_young 1%positive 0))
              0
            = Some (Ok q).
Proof.
  destruct (AddProgram "x" heap_young db_young 1%positive 0) as [[h' db']|] eqn:H;
    [|vm_compute in H; discriminate].
  destruct (AddProgram_then_SampleFromIsland map_to_list 0 0 "x" heap_young db_young
              1%positive 0 h' db' program_young_a
              (fun m => reflexivity (map_to_list m)) eq_refl H)
    as (q & isl & Hq & _).
  exists q. exact Hq.
Defined.

(** X23.  The two score parsers of the evaluator package agree whenever
    the output is neither a JSON object with a numeric "score" nor starts
    with a number: both return the number after a leading "SCORE: " when
    there is one that scans, and -1 otherwise.  When the output does start
    with a number that scans, the worker pool's parser returns it where the
    cascade evaluator's returns -1, unless the "SCORE: " form applies. *)
Theorem parseScoreOutput_agreement
    (Sscanf_f json_score : string -> option float) (output : string) :
  json_score output = None ->
  (Sscanf_f output = None ->
   WorkerPool_parseScoreOutput Sscanf_f json_score output
   = parseScoreOutput Sscanf_f output) /\
  (forall score,
      has_score_prefix output = true ->
      Sscanf_f (after_score_prefix output) = Some score ->
      WorkerPool_parseScoreOutput Sscanf_f json_score output = score /\
      parseScoreOutput Sscanf_f output = score) /\
  (forall score,
      has_score_prefix output = false ->
      Sscanf_f output = Some score ->
      WorkerPool_parseScoreOutput Sscanf_f json_score output = score /\
      parseScoreOutput Sscanf_f output = (-1)%float).
Proof.
  intros Hjson. unfold WorkerPool_parseScoreOutput, parseScoreOutput.
  rewrite Hjson. cbn [WorkerPool_parseScoreOutput_loop parseScoreOutput_loop].
  split; [|split].
  - intros ->. destruct (has_score_prefix output); [|reflexivity].
    destruct (Sscanf_f (after_score_prefix output)); reflexivity.
  - intros score -> ->. split; reflexivity.
  - intros score -> ->. split; reflexivity.
Qed.

Lemma parseScoreOutput_agreement_witness :
  WorkerPool_parseScoreOutput scan_literals (fun _ => None) "0.5" = 0.5%float /\
  parseScoreOutput scan_literals "0.5" = (-1)%float.
Proof.
  apply (proj2 (proj2 (parseScoreOutput_agreement scan_literals (fun _ => None) "0.5"
                         eq_refl)) 0.5%float); reflexivity.
Defined.
